(** * lemonmind-frontend: a shallow embedding of its client-side logic

    The models below follow the TypeScript sources function by function:

    - [AuthContext]      src/context/AuthContext.tsx
    - [ProtectedRoute]   src/components/ProtectedRoute.tsx
    - [Categories]       src/pages/Categories.tsx
    - [EditCategory]     src/pages/EditCategory.tsx
    - [SupabaseUtils]    src/lib/supabase/utils.ts
    - [Utils]            src/lib/utils/index.ts
    - [Migrations]       supabase/migrations/*.sql
    - [ProductTypes]     src/types/product.ts
    - [UtilsHelpers]     src/lib/utils/index.ts (strings, arrays, objects,
                         validation)
    - [AuthChecks], [AuthMethods]
                         src/context/AuthContext.tsx (the other methods)
    - [CategoriesPage]   src/pages/Categories.tsx (the page's handlers)
    - [ProductPages], [ProductImages]
                         src/lib/supabase/utils.ts (the other hooks)

    The file has three parts: the models, the vocabulary in which the
    properties are stated, and the properties with their proofs.

    JavaScript conventions used throughout:
    - [T | null] and optional fields are [option T];
    - truthiness is written out ([truthy_num], [truthy_str]);
    - numbers that hold integers (epoch seconds, milliseconds, row counts)
      are [Z] or [nat];
    - an [async] function that awaits SDK calls is a computation in the
      monad [Eff.M]: it threads a world (the SDK's scripted answers and a
      log of the calls made) and may throw. *)

From Stdlib Require Import ZArith NArith List String Ascii Bool Lia Permutation Arith.
Import ListNotations.
Local Open Scope string_scope.
Set Warnings "-register-all".

(** ** JavaScript values *)

Module Js.

(** A thrown value: [Error] instances and the SDK's plain error objects
    both carry a message; [is_Error] is [err instanceof Error]. *)
Record JsError := { is_Error : bool; message : string }.

(** [new Error(msg)]. *)
Definition new_Error (msg : string) : JsError :=
  {| is_Error := true; message := msg |}.

(** [!!n] for a number. *)
Definition truthy_num (n : Z) : bool := negb (n =? 0)%Z.

(** [!!s] for a string. *)
Definition truthy_str (s : string) : bool :=
  match s with EmptyString => false | String _ _ => true end.

(** [s.startsWith(p)]. *)
Definition startsWith (s p : string) : bool := String.prefix p s.

(** [s.includes(sub)]. *)
Fixpoint includes (s sub : string) : bool :=
  String.prefix sub s ||
  match s with
  | EmptyString => false
  | String _ s' => includes s' sub
  end.

End Js.

(** ** Effects: state and exceptions *)

Module Eff.

Inductive Outcome (A : Type) : Type :=
| Returned (a : A)
| Thrown (e : Js.JsError).
Arguments Returned {A} a.
Arguments Thrown {A} e.

(** A computation over a world [W]. *)
Definition M (W A : Type) : Type := W -> Outcome A * W.

Definition ret {W A} (a : A) : M W A := fun w => (Returned a, w).

Definition throw {W A} (e : Js.JsError) : M W A := fun w => (Thrown e, w).

Definition bind {W A B} (m : M W A) (k : A -> M W B) : M W B :=
  fun w =>
    match m w with
    | (Returned a, w') => k a w'
    | (Thrown e, w') => (Thrown e, w')
    end.

(** [try { m } catch (e) { h e }]. *)
Definition try_catch {W A} (m : M W A) (h : Js.JsError -> M W A) : M W A :=
  fun w =>
    match m w with
    | (Returned a, w') => (Returned a, w')
    | (Thrown e, w') => h e w'
    end.

(** [try { m } finally { f }], for a [finally] block that does not throw. *)
Definition try_finally {W A} (m : M W A) (f : W -> W) : M W A :=
  fun w => let (r, w') := m w in (r, f w').

Definition get {W} : M W W := fun w => (Returned w, w).

Definition modify {W} (f : W -> W) : M W unit := fun w => (Returned tt, f w).

(** [when c m]: [if (c) m]. *)
Definition when {W} (c : bool) (m : M W unit) : M W unit :=
  if c then m else ret tt.

End Eff.

Declare Scope eff_scope.
Delimit Scope eff_scope with eff.
Notation "x <- m ;; k" := (Eff.bind m (fun x => k))
  (at level 61, m at next level, right associativity) : eff_scope.
Notation "m ;;; k" := (Eff.bind m (fun _ => k))
  (at level 61, right associativity) : eff_scope.

(** ** src/context/AuthContext.tsx *)

Module AuthContext.
Import Js Eff.
Local Open Scope eff_scope.
Local Open Scope Z_scope.

(** The SDK's [User] and [Session], with the fields this file reads. *)
Record User := {
  user_id : string;
  email_confirmed_at : option string
}.

Record Session := {
  access_token : string;
  expires_at : option Z;      (* [expires_at?: number], epoch seconds *)
  user : User
}.

(** What [supabase.auth.getSession()] and [refreshSession()] resolve to:
    [{ data: { session }, error }]. *)
Record SessionResult := {
  data_session : option Session;
  error : option JsError
}.

Inductive SdkCall := CallGetSession | CallRefreshSession.

(** The SDK as the provider sees it: each call either rejects or
    resolves to a result, and is recorded. *)
Record Sdk := {
  auth_getSession : Outcome SessionResult;
  auth_refreshSession : Outcome SessionResult;
  calls : list SdkCall
}.

Definition record_call (c : SdkCall) (w : Sdk) : Sdk :=
  {| auth_getSession := auth_getSession w;
     auth_refreshSession := auth_refreshSession w;
     calls := (calls w ++ [c])%list |}.

Definition await_getSession : M Sdk SessionResult :=
  fun w => (auth_getSession w, record_call CallGetSession w).

Definition await_refreshSession : M Sdk SessionResult :=
  fun w => (auth_refreshSession w, record_call CallRefreshSession w).

(** [if (error) throw error; session = data.session]. *)
Definition unwrap (r : SessionResult) : M Sdk (option Session) :=
  match error r with
  | Some e => throw e
  | None => ret (data_session r)
  end.

(** [session?.expires_at && session.expires_at * 1000 < Date.now() +
    refreshTokenThreshold * 1000]. *)
Definition about_to_expire (refreshTokenThreshold now : Z)
    (session : option Session) : bool :=
  match session with
  | None => false
  | Some s =>
      match expires_at s with
      | None => false
      | Some e => truthy_num e && (e * 1000 <? now + refreshTokenThreshold * 1000)
      end
  end.

(** [getSession(forceRefresh = false)]; [now] is what [Date.now()] returns. *)
Definition getSession (refreshTokenThreshold now : Z) (forceRefresh : bool)
    : M Sdk (option Session) :=
  try_catch
    (if forceRefresh then
       r <- await_refreshSession ;;
       unwrap r
     else
       r <- await_getSession ;;
       session <- unwrap r ;;
       if about_to_expire refreshTokenThreshold now session then
         r' <- await_refreshSession ;;
         unwrap r'
       else ret session)
    (fun _ => ret None).

(** [getSessionRef]: initialised to [() => Promise.resolve(null)], then kept
    in sync with [getSession]. *)
Definition GetSessionFunction := bool -> M Sdk (option Session).

Definition getSessionRef_initial : GetSessionFunction := fun _ => ret None.

(** [AuthResponse<Session>]. *)
Record AuthResponse := {
  resp_error : option JsError;
  resp_user : option User;
  resp_session : option Session;
  resp_data : option Session
}.

(** [refreshSession()]; [current] is [getSessionRef.current]. *)
Definition refreshSession (current : option GetSessionFunction)
    : M Sdk AuthResponse :=
  try_catch
    (match current with
     | None => throw (new_Error "getSession is not available")
     | Some f =>
         session <- f true ;;
         ret {| resp_error := None;
                resp_user := option_map user session;
                resp_session := session;
                resp_data := session |}
     end)
    (fun e => ret {| resp_error := Some e;
                     resp_user := None;
                     resp_session := None;
                     resp_data := None |}).

(** Provider props, with their defaults. *)
Record AuthProviderProps := {
  requireAuth : bool;
  loginPath : string;
  homePath : string;
  autoRefreshSession : bool;
  refreshTokenThreshold : Z
}.

Definition defaultProps : AuthProviderProps :=
  {| requireAuth := true;
     loginPath := "/login";
     homePath := "/";
     autoRefreshSession := true;
     refreshTokenThreshold := 300 |}.

(** [window.location]. *)
Record Location := { pathname : string; search : string }.

(** [navigate(to)] and [navigate(to, { replace: true })]. *)
Record Navigation := { nav_to : string; nav_replace : bool }.

(** The provider's React state. *)
Record AuthState := { st_user : option User; st_loading : bool }.

Definition setUser (u : option User) (st : AuthState) : AuthState :=
  {| st_user := u; st_loading := st_loading st |}.

Definition setLoading (b : bool) (st : AuthState) : AuthState :=
  {| st_user := st_user st; st_loading := b |}.

Definition is_sign_in_event (event : string) : bool :=
  (event =? "SIGNED_IN")%string || (event =? "TOKEN_REFRESHED")%string
  || (event =? "USER_UPDATED")%string.

(** [handleAuthStateChange(event, session)]: the new state and the
    navigations performed. *)
Definition handleAuthStateChange (p : AuthProviderProps) (loc : Location)
    (event : string) (session : option Session) (st : AuthState)
    : AuthState * list Navigation :=
  let st := setLoading true st in
  let '(st, navs) :=
    if is_sign_in_event event then
      let st := setUser (option_map user session) st in
      if (pathname loc =? loginPath p)%string
         && negb (startsWith (pathname loc) "/signup")
         && negb (includes (search loc) "from=signup")
      then (st, [{| nav_to := homePath p; nav_replace := false |}])
      else (st, [])
    else if (event =? "SIGNED_OUT")%string then
      let st := setUser None st in
      if requireAuth p
         && negb (pathname loc =? loginPath p)%string
         && negb (startsWith (pathname loc) "/signup")
      then (st, [{| nav_to := loginPath p; nav_replace := true |}])
      else (st, [])
    else (st, [])
  in
  (setLoading false st, navs).

(** The continuation of [initializeAuth] after [await getSession()];
    [mounted] is the effect's flag at that moment. *)
Definition initializeAuth_resume (p : AuthProviderProps) (loc : Location)
    (mounted : bool) (session : option Session) (st : AuthState)
    : AuthState * list Navigation :=
  if mounted then
    let st := setLoading false (setUser (option_map user session) st) in
    if match session with None => true | Some _ => false end
       && requireAuth p
       && negb (pathname loc =? loginPath p)%string
       && negb (startsWith (pathname loc) "/signup")
    then (st, [{| nav_to := loginPath p; nav_replace := true |}])
    else (st, [])
  else (st, []).

(** [initializeAuth()]. *)
Definition initializeAuth (p : AuthProviderProps) (now : Z) (loc : Location)
    (mounted : bool) (st : AuthState) : M Sdk (AuthState * list Navigation) :=
  session <- getSession (refreshTokenThreshold p) now false ;;
  ret (initializeAuth_resume p loc mounted session st).

(** What the provider renders inside the context: [{!loading && children}]. *)
Definition provider_renders_children (st : AuthState) : bool :=
  negb (st_loading st).

End AuthContext.

(** ** src/components/ProtectedRoute.tsx *)

Module ProtectedRoute.
Import AuthContext.

(** What the component returns. [children] are opaque. *)
Inductive Element (C : Type) : Type :=
| Spinner
| NavigateEl (to : string) (replace : bool)
| ChildrenEl (children : C)
| OutletEl.
Arguments Spinner {C}.
Arguments NavigateEl {C} to replace.
Arguments ChildrenEl {C} children.
Arguments OutletEl {C}.

Definition ProtectedRoute {C} (auth : AuthState) (children : option C)
    : Element C :=
  if st_loading auth then Spinner
  else
    match st_user auth with
    | None => NavigateEl "/login" true
    | Some _ =>
        match children with
        | Some c => ChildrenEl c
        | None => OutletEl
        end
    end.

(** The element shows the protected content: the children or the nested
    route. *)
Definition shows_protected {C} (e : Element C) : bool :=
  match e with
  | ChildrenEl _ | OutletEl => true
  | _ => false
  end.

End ProtectedRoute.

(** ** src/pages/Categories.tsx *)

Module Categories.
Import Js.

(** [interface Category]. The optional [children] field is overwritten by
    [buildCategoryTree] and lives in the object heap below; the optional
    [level] is never read or written by the functions modelled here. *)
Record Category := {
  id : string;
  name : string;
  parent_id : option string;
  user_id : string;
  created_at : string;
  updated_at : string
}.

(** An object stored in the [Map]: the spread copy of a category with its
    [children] array. The array holds references to other objects of the
    map; every key owns exactly one object, so a reference is its key. *)
Record Node := { cat : Category; children : list string }.

(** [Map<string, Category>], in insertion order. *)
Definition JsMap := list (string * Node).

(** [map.set(k, v)]: an existing key keeps its place. *)
Fixpoint map_set (k : string) (v : Node) (m : JsMap) : JsMap :=
  match m with
  | [] => [(k, v)]
  | (k', v') :: m' =>
      if (k' =? k)%string then (k, v) :: m' else (k', v') :: map_set k v m'
  end.

(** [map.has(k)]. *)
Definition map_has (k : string) (m : JsMap) : bool :=
  existsb (fun e => (fst e =? k)%string) m.

(** [map.get(k)]. *)
Fixpoint map_get (k : string) (m : JsMap) : option Node :=
  match m with
  | [] => None
  | (k', v) :: m' => if (k' =? k)%string then Some v else map_get k m'
  end.

(** [map.get(parent).children.push(child)]: the parent object is mutated in
    place, which every holder of a reference to it observes. *)
Definition push_child (parent child : string) (m : JsMap) : JsMap :=
  map (fun e =>
         if (fst e =? parent)%string
         then (fst e, {| cat := cat (snd e);
                         children := (children (snd e) ++ [child])%list |})
         else e) m.

(** First pass: [map.set(category.id, { ...category, children: [] })]. *)
Definition first_pass (categories : list Category) : JsMap :=
  fold_left (fun m c => map_set (id c) {| cat := c; children := [] |} m)
            categories [].

(** [category.parent_id && map.has(category.parent_id)]: the key of the
    parent the second pass attaches the category to, if any. *)
Definition attach_to (m : JsMap) (c : Category) : option string :=
  match parent_id c with
  | Some p => if truthy_str p && map_has p m then Some p else None
  | None => None
  end.

(** One iteration of the second pass, on the entry with key [k]. *)
Definition link_step (st : JsMap * list string) (e : string * Node)
    : JsMap * list string :=
  let (m, result) := st in
  match attach_to m (cat (snd e)) with
  | Some p => (push_child p (fst e) m, result)
  | None => (m, (result ++ [fst e])%list)
  end.

(** Second pass: [map.forEach(...)], in insertion order. *)
Definition second_pass (m : JsMap) : JsMap * list string :=
  fold_left link_step m (m, []).

(** The object graph [buildCategoryTree] returns: the heap of category
    objects and the [result] array of references into it. *)
Definition buildCategoryGraph (categories : list Category)
    : JsMap * list string :=
  second_pass (first_pass categories).

(** A finite tree of categories. *)
Inductive Tree := TNode (c : Category) (sub : list Tree).

Fixpoint mapM {A B} (f : A -> option B) (l : list A) : option (list B) :=
  match l with
  | [] => Some []
  | a :: l' =>
      match f a, mapM f l' with
      | Some b, Some bs => Some (b :: bs)
      | _, _ => None
      end
  end.

(** Reading the object behind reference [k] as a finite tree; [None] when
    the fuel does not reach the leaves. *)
Fixpoint read_tree (fuel : nat) (m : JsMap) (k : string) : option Tree :=
  match fuel with
  | O => None
  | S fuel' =>
      match map_get k m with
      | None => None
      | Some n =>
          option_map (TNode (cat n)) (mapM (read_tree fuel' m) (children n))
      end
  end.

(** [buildCategoryTree(categories)], read as a forest. A tree over [n]
    objects is at most [n] levels deep. *)
Definition buildCategoryTree (categories : list Category)
    : option (list Tree) :=
  let (m, result) := buildCategoryGraph categories in
  mapM (read_tree (List.length m) m) result.

(** All categories of a tree, parents before children. *)
Fixpoint flatten (t : Tree) : list Category :=
  match t with
  | TNode c sub => c :: flat_map flatten sub
  end.

Definition flatten_forest (f : list Tree) : list Category :=
  flat_map flatten f.

Definition root_of (t : Tree) : Category :=
  match t with TNode c _ => c end.

(** *** The parent links of a list of categories *)

Definition has_id (categories : list Category) (k : string) : bool :=
  existsb (fun c => (id c =? k)%string) categories.

Definition find_cat (categories : list Category) (k : string)
    : option Category :=
  find (fun c => (id c =? k)%string) categories.

(** The parent a category is linked to: a non-empty [parent_id] that is the
    id of an input category. *)
Definition parent_of (categories : list Category) (c : Category)
    : option string :=
  match parent_id c with
  | Some p => if truthy_str p && has_id categories p then Some p else None
  | None => None
  end.

Definition is_root (categories : list Category) (c : Category) : bool :=
  match parent_of categories c with None => true | Some _ => false end.

Definition is_child_of (categories : list Category) (p : string)
    (c : Category) : bool :=
  match parent_of categories c with
  | Some q => (q =? p)%string
  | None => false
  end.

(** The [j]-th ancestor of the category with id [k]. *)
Fixpoint up (categories : list Category) (j : nat) (k : string)
    : option string :=
  match j with
  | O => if has_id categories k then Some k else None
  | S j' =>
      match find_cat categories k with
      | Some c =>
          match parent_of categories c with
          | Some p => up categories j' p
          | None => None
          end
      | None => None
      end
  end.

(** The parent links are acyclic: no category is its own proper ancestor. *)
Definition acyclic (categories : list Category) : Prop :=
  forall k j, up categories (S j) k <> Some k.

(** The ancestors of [k] end in a root within [fuel] links. *)
Fixpoint reaches_root (categories : list Category) (fuel : nat) (k : string)
    : bool :=
  match find_cat categories k with
  | None => false
  | Some c =>
      match parent_of categories c with
      | None => true
      | Some p =>
          match fuel with
          | O => false
          | S fuel' => reaches_root categories fuel' p
          end
      end
  end.

(** A decision procedure for [acyclic]. *)
Definition acyclicb (categories : list Category) : bool :=
  forallb (fun c => reaches_root categories (List.length categories) (id c))
          categories.

End Categories.

(** ** The hosted backend, as EditCategory.tsx uses it

    The tables and their foreign keys are those of the migration that
    creates them ([parent_id] and [category_id] reference [categories(id)]
    [ON DELETE SET NULL]). A statement that succeeds has its SQL meaning; any
    statement may instead fail, which the world scripts in [failures]. *)

Module Backend.
Import Js Eff.
Export Categories.

Record Product := {
  product_id : string;
  product_name : string;
  category_id : option string;
  product_user_id : string
}.

Record Database := {
  categories : list Category;
  products : list Product
}.

(** [.eq(col, val)] and [.neq(col, val)]. *)
Inductive Filter :=
| Eq (col val : string)
| Neq (col val : string).

(** [{ name, parent_id, updated_at }], the payload of [handleSubmit]. *)
Record Updates := {
  upd_name : string;
  upd_parent_id : option string;
  upd_updated_at : string
}.

Inductive Verb :=
| Select                (* [.select('*')] *)
| Count                 (* [.select('*', { count: 'exact', head: true })] *)
| Update (u : Updates)  (* [.update(updates)] *)
| Delete.               (* [.delete()] *)

Record Query := {
  table : string;
  verb : Verb;
  filters : list Filter;
  single : bool           (* [.single()] *)
}.

(** [{ data, count, error }]. *)
Record Response := {
  data : option (list Category);
  count : option nat;
  error : option JsError
}.

(** A column of a row; [None] is SQL NULL. *)
Definition category_col (c : Category) (col : string) : option string :=
  if (col =? "id")%string then Some (id c)
  else if (col =? "name")%string then Some (name c)
  else if (col =? "parent_id")%string then parent_id c
  else if (col =? "user_id")%string then Some (user_id c)
  else if (col =? "created_at")%string then Some (created_at c)
  else if (col =? "updated_at")%string then Some (updated_at c)
  else None.

Definition product_col (p : Product) (col : string) : option string :=
  if (col =? "id")%string then Some (product_id p)
  else if (col =? "name")%string then Some (product_name p)
  else if (col =? "category_id")%string then category_id p
  else if (col =? "user_id")%string then Some (product_user_id p)
  else None.

(** A comparison with NULL is never true. *)
Definition holds {R} (column : R -> string -> option string) (r : R)
    (f : Filter) : bool :=
  match f with
  | Eq col val =>
      match column r col with
      | Some x => (x =? val)%string
      | None => false
      end
  | Neq col val =>
      match column r col with
      | Some x => negb (x =? val)%string
      | None => false
      end
  end.

Definition selected {R} (column : R -> string -> option string)
    (fs : list Filter) (r : R) : bool :=
  forallb (holds column r) fs.

Definition apply_updates (u : Updates) (c : Category) : Category :=
  {| id := id c;
     name := upd_name u;
     parent_id := upd_parent_id u;
     user_id := user_id c;
     created_at := created_at c;
     updated_at := upd_updated_at u |}.

(** [ON DELETE SET NULL] for the rows that referenced a deleted category. *)
Definition orphan (deleted : list string) (ref : option string)
    : option string :=
  match ref with
  | Some k => if existsb (String.eqb k) deleted then None else Some k
  | None => None
  end.

Definition ok_rows (rows : list Category) : Response :=
  {| data := Some rows; count := None; error := None |}.

Definition ok_count (n : nat) : Response :=
  {| data := None; count := Some n; error := None |}.

Definition ok_empty : Response :=
  {| data := None; count := None; error := None |}.

Definition failed (e : JsError) : Response :=
  {| data := None; count := None; error := Some e |}.

(** A statement that is carried out: the new database and the response. *)
Definition execute (q : Query) (db : Database) : Database * Response :=
  if (table q =? "categories")%string then
    let hit := selected category_col (filters q) in
    match verb q with
    | Select =>
        let rows := filter hit (categories db) in
        if single q then
          match rows with
          | [r] => (db, ok_rows [r])
          | _ => (db, failed {| is_Error := false;
                                message := "JSON object requested, multiple (or no) rows returned" |})
          end
        else (db, ok_rows rows)
    | Count => (db, ok_count (List.length (filter hit (categories db))))
    | Update u =>
        ({| categories :=
              map (fun c => if hit c then apply_updates u c else c)
                  (categories db);
            products := products db |}, ok_empty)
    | Delete =>
        let gone := map id (filter hit (categories db)) in
        ({| categories :=
              map (fun c => {| id := id c; name := name c;
                               parent_id := orphan gone (parent_id c);
                               user_id := user_id c;
                               created_at := created_at c;
                               updated_at := updated_at c |})
                  (filter (fun c => negb (hit c)) (categories db));
            products :=
              map (fun p => {| product_id := product_id p;
                               product_name := product_name p;
                               category_id := orphan gone (category_id p);
                               product_user_id := product_user_id p |})
                  (products db) |}, ok_empty)
    end
  else if (table q =? "products")%string then
    let hit := selected product_col (filters q) in
    match verb q with
    | Count => (db, ok_count (List.length (filter hit (products db))))
    | _ => (db, failed {| is_Error := false;
                          message := "statement not used by this page" |})
    end
  else (db, failed {| is_Error := false; message := "relation does not exist" |}).

End Backend.

(** ** src/pages/EditCategory.tsx *)

Module EditCategory.
Import Js Eff.
Export Backend.
Local Open Scope eff_scope.

(** The SDK's [User]: its [id]. *)
Record User := { uid : string }.

Record FormData := { form_name : string; form_parent_id : string }.

Record Navigation := { nav_to : string; nav_replace : bool }.

(** The component's React state and the navigations it performed. *)
Record Ui := {
  category : option Category;
  dropdown : list Category;       (* the [categories] state *)
  loading : bool;
  error_text : string;            (* the [error] state *)
  formData : FormData;
  navigations : list Navigation
}.

Definition initial_ui : Ui :=
  {| category := None; dropdown := []; loading := true; error_text := "";
     formData := {| form_name := ""; form_parent_id := "" |};
     navigations := [] |}.

(** The world the handlers run in. *)
Record World := {
  db : Database;
  auth_getUser : Outcome (option User * option JsError);
  failures : list (option JsError);  (* one entry per query, in order *)
  issued : list Query;               (* the queries sent so far *)
  ui : Ui
}.

Definition with_ui (f : Ui -> Ui) (w : World) : World :=
  {| db := db w; auth_getUser := auth_getUser w; failures := failures w;
     issued := issued w; ui := f (ui w) |}.

Definition setCategory (c : option Category) : M World unit :=
  modify (with_ui (fun u =>
    {| category := c; dropdown := dropdown u; loading := loading u;
       error_text := error_text u; formData := formData u;
       navigations := navigations u |})).

Definition setCategories (cs : list Category) : M World unit :=
  modify (with_ui (fun u =>
    {| category := category u; dropdown := cs; loading := loading u;
       error_text := error_text u; formData := formData u;
       navigations := navigations u |})).

Definition set_loading (b : bool) (u : Ui) : Ui :=
  {| category := category u; dropdown := dropdown u; loading := b;
     error_text := error_text u; formData := formData u;
     navigations := navigations u |}.

Definition setLoading (b : bool) : M World unit :=
  modify (with_ui (set_loading b)).

Definition setError (e : string) : M World unit :=
  modify (with_ui (fun u =>
    {| category := category u; dropdown := dropdown u; loading := loading u;
       error_text := e; formData := formData u;
       navigations := navigations u |})).

Definition setFormData (f : FormData) : M World unit :=
  modify (with_ui (fun u =>
    {| category := category u; dropdown := dropdown u; loading := loading u;
       error_text := error_text u; formData := f;
       navigations := navigations u |})).

Definition navigate (to : string) (replace : bool) : M World unit :=
  modify (with_ui (fun u =>
    {| category := category u; dropdown := dropdown u; loading := loading u;
       error_text := error_text u; formData := formData u;
       navigations :=
         (navigations u ++ [{| nav_to := to; nav_replace := replace |}])%list |})).

(** [await supabase.auth.getUser()]. *)
Definition await_getUser : M World (option User * option JsError) :=
  fun w => (auth_getUser w, w).

(** [await supabase.from(...)...]: the query is sent; the backend carries
    it out unless this one is scripted to fail. *)
Definition await_query (q : Query) : M World Response :=
  fun w =>
    let sent := (issued w ++ [q])%list in
    match failures w with
    | Some e :: rest =>
        (Returned (failed e),
         {| db := db w; auth_getUser := auth_getUser w; failures := rest;
            issued := sent; ui := ui w |})
    | None :: rest =>
        let (db', r) := execute q (db w) in
        (Returned r,
         {| db := db'; auth_getUser := auth_getUser w; failures := rest;
            issued := sent; ui := ui w |})
    | [] =>
        let (db', r) := execute q (db w) in
        (Returned r,
         {| db := db'; auth_getUser := auth_getUser w; failures := [];
            issued := sent; ui := ui w |})
    end.

(** [if (error) throw error]. *)
Definition throw_if (e : option JsError) : M World unit :=
  match e with
  | Some err => throw err
  | None => ret tt
  end.

(** [err instanceof Error ? err.message : fallback]. *)
Definition error_message (err : JsError) (fallback : string) : string :=
  if is_Error err then message err else fallback.

(** [!id], for [id: string | undefined]. *)
Definition missing (id : option string) : bool :=
  match id with
  | Some s => negb (truthy_str s)
  | None => true
  end.

(** The filter of [fetchData]: the categories offered as parents. *)
Definition validParentCategories (allCategories : list Category)
    (categoryData : Category) : list Category :=
  filter (fun cat =>
            negb (id cat =? id categoryData)%string
            && negb match parent_id cat with
                    | Some p => (p =? id categoryData)%string
                    | None => false
                    end)
         allCategories.

(** [fetchData()], the effect run for the route parameter [id]. *)
Definition fetchData (id : option string) : M World unit :=
  match id with
  | None => ret tt
  | Some id_ =>
      if negb (truthy_str id_) then ret tt
      else
        try_finally
          (try_catch
             (setLoading true ;;;
              r <- await_getUser ;;
              throw_if (snd r) ;;;
              match fst r with
              | None => navigate "/login" true
              | Some user =>
                  r1 <- await_query {| table := "categories"; verb := Select;
                                       filters := [Eq "id" id_];
                                       single := true |} ;;
                  throw_if (error r1) ;;;
                  match data r1 with
                  | Some (categoryData :: _) =>
                      if negb (user_id categoryData =? uid user)%string then
                        throw (new_Error "You do not have permission to edit this category")
                      else
                        setCategory (Some categoryData) ;;;
                        setFormData
                          {| form_name := name categoryData;
                             form_parent_id :=
                               match parent_id categoryData with
                               | Some p => p
                               | None => ""
                               end |} ;;;
                        r2 <- await_query
                                {| table := "categories"; verb := Select;
                                   filters := [Eq "user_id" (uid user);
                                               Neq "id" id_];
                                   single := false |} ;;
                        throw_if (error r2) ;;;
                        setCategories
                          (validParentCategories
                             (match data r2 with Some l => l | None => [] end)
                             categoryData)
                  | _ => throw (new_Error "Category not found")
                  end
              end)
             (fun err => setError (error_message err "Error loading category")))
          (with_ui (set_loading false))
  end.

(** [handleSubmit(e)]; [now] is [new Date().toISOString()]. *)
Definition handleSubmit (id : option string) (now : string) : M World unit :=
  match id with
  | None => ret tt
  | Some id_ =>
      if negb (truthy_str id_) then ret tt
      else
        try_catch
          (setError "" ;;;
           setLoading true ;;;
           r <- await_getUser ;;
           throw_if (snd r) ;;;
           match fst r with
           | None => throw (new_Error "User not authenticated")
           | Some _ =>
               w <- get ;;
               let updates :=
                 {| upd_name := form_name (formData (ui w));
                    upd_parent_id :=
                      if truthy_str (form_parent_id (formData (ui w)))
                      then Some (form_parent_id (formData (ui w)))
                      else None;
                    upd_updated_at := now |} in
               r1 <- await_query {| table := "categories";
                                    verb := Update updates;
                                    filters := [Eq "id" id_];
                                    single := false |} ;;
               throw_if (error r1) ;;;
               navigate "/categories" false
           end)
          (fun err =>
             setError (error_message err "Error updating category") ;;;
             setLoading false)
  end.

(** [count && count > 0]. *)
Definition positive (count : option nat) : bool :=
  match count with
  | Some n => negb (n =? 0)%nat && (0 <? n)%nat
  | None => false
  end.

(** [handleDelete()]; [confirmed] is the answer to [window.confirm]. *)
Definition handleDelete (id : option string) (confirmed : bool)
    : M World unit :=
  match id with
  | None => ret tt
  | Some id_ =>
      if negb (truthy_str id_) || negb confirmed then ret tt
      else
        try_catch
          (setLoading true ;;;
           r1 <- await_query {| table := "products"; verb := Count;
                                filters := [Eq "category_id" id_];
                                single := false |} ;;
           throw_if (error r1) ;;;
           (if positive (count r1)
            then throw (new_Error "Cannot delete category with associated products")
            else ret tt) ;;;
           r2 <- await_query {| table := "categories"; verb := Count;
                                filters := [Eq "parent_id" id_];
                                single := false |} ;;
           throw_if (error r2) ;;;
           (if positive (count r2)
            then throw (new_Error "Cannot delete category with subcategories")
            else ret tt) ;;;
           r3 <- await_query {| table := "categories"; verb := Delete;
                                filters := [Eq "id" id_];
                                single := false |} ;;
           throw_if (error r3) ;;;
           navigate "/categories" false)
          (fun err =>
             setError (error_message err "Error deleting category") ;;;
             setLoading false)
  end.

(** The user picks an entry of the parent dropdown: [handleChange] on the
    [parent_id] select. The options are [""] and the ids of [dropdown]. *)
Definition selectable (u : Ui) (value : string) : bool :=
  (value =? "")%string || existsb (fun c => (id c =? value)%string) (dropdown u).

Definition handleChange_parent (value : string) : M World unit :=
  w <- get ;;
  setFormData {| form_name := form_name (formData (ui w));
                 form_parent_id := value |}.

(** Whether a query deletes categories. *)
Definition is_delete (q : Query) : bool :=
  match verb q with
  | Delete => (table q =? "categories")%string
  | _ => false
  end.

End EditCategory.

(** ** src/lib/supabase/utils.ts *)

Module SupabaseUtils.
Import Js Eff.
Local Open Scope eff_scope.

(** *** [useTable] *)

(** JSON values, for rows whose shape the hook does not know. *)
Inductive Json :=
| JNull
| JBool (b : bool)
| JNum (z : Z)
| JStr (s : string)
| JArr (items : list Json)
| JObj (fields : list (string * Json)).

(** An object literal: its own properties, in order. *)
Definition Obj := list (string * Json).

Fixpoint obj_get (k : string) (o : Obj) : option Json :=
  match o with
  | [] => None
  | (k', v) :: o' => if (k' =? k)%string then Some v else obj_get k o'
  end.

(** Defining property [k]: an existing property keeps its place. *)
Fixpoint obj_set (k : string) (v : Json) (o : Obj) : Obj :=
  match o with
  | [] => [(k, v)]
  | (k', v') :: o' =>
      if (k' =? k)%string then (k, v) :: o' else (k', v') :: obj_set k v o'
  end.

(** The SDK's [User]: its [id]. *)
Record User := { uid : string }.

Inductive Verb :=
| Select (columns : string)
| Insert (row : Obj)
| Update (values : Obj)
| Delete.

(** A query as built by the chain of calls on [supabase.from(table)];
    [filters] are the [.eq(column, value)] calls, in order. *)
Record Query := {
  table : string;
  verb : Verb;
  filters : list (string * string);
  returning : bool;       (* [.select()] after a write *)
  single : bool           (* [.single()] *)
}.

Record Response := { data : Json; error : option JsError }.

(** The hook's world: the backend's answer to each query, the queries
    issued, and the hook's [loading] and [error] state. *)
Record World := {
  respond : Query -> Outcome Response;
  issued : list Query;
  loading : bool;
  hook_error : option JsError
}.

Definition setLoading (b : bool) : World -> World :=
  fun w => {| respond := respond w; issued := issued w; loading := b;
              hook_error := hook_error w |}.

Definition setError (e : option JsError) : World -> World :=
  fun w => {| respond := respond w; issued := issued w; loading := loading w;
              hook_error := e |}.

Definition await_query (q : Query) : M World Response :=
  fun w => (respond w q,
            {| respond := respond w; issued := (issued w ++ [q])%list;
               loading := loading w; hook_error := hook_error w |}).

(** [if (error) throw error; return data]. *)
Definition data_or_throw (r : Response) : M World Json :=
  match error r with
  | Some e => throw e
  | None => ret (data r)
  end.

(** The common frame of the five operations:
    [setLoading(true); setError(null); try { body } catch (err)
     { setError(err); return fallback } finally { setLoading(false) }]. *)
Definition guarded {A} (body : M World A) (fallback : A) : M World A :=
  modify (setLoading true) ;;;
  modify (setError None) ;;;
  try_finally
    (try_catch body
       (fun err => modify (setError (Some err)) ;;; ret fallback))
    (setLoading false).

Definition fetchAll (tableName : string) (user : option User)
    : M World Json :=
  match user with
  | None => ret JNull
  | Some u =>
      guarded
        (r <- await_query {| table := tableName; verb := Select "*";
                             filters := [("user_id", uid u)];
                             returning := false; single := false |} ;;
         data_or_throw r)
        JNull
  end.

Definition fetchById (tableName : string) (user : option User) (id : string)
    : M World Json :=
  match user with
  | None => ret JNull
  | Some u =>
      guarded
        (r <- await_query {| table := tableName; verb := Select "*";
                             filters := [("id", id); ("user_id", uid u)];
                             returning := false; single := true |} ;;
         data_or_throw r)
        JNull
  end.

Definition insert (tableName : string) (user : option User) (values : Obj)
    : M World Json :=
  match user with
  | None => ret JNull
  | Some u =>
      guarded
        (r <- await_query
                {| table := tableName;
                   verb := Insert (obj_set "user_id" (JStr (uid u)) values);
                   filters := [];
                   returning := true; single := true |} ;;
         data_or_throw r)
        JNull
  end.

Definition update (tableName : string) (user : option User) (id : string)
    (values : Obj) : M World Json :=
  match user with
  | None => ret JNull
  | Some u =>
      guarded
        (r <- await_query {| table := tableName; verb := Update values;
                             filters := [("id", id); ("user_id", uid u)];
                             returning := true; single := true |} ;;
         data_or_throw r)
        JNull
  end.

Definition remove (tableName : string) (user : option User) (id : string)
    : M World bool :=
  match user with
  | None => ret false
  | Some u =>
      guarded
        (r <- await_query {| table := tableName; verb := Delete;
                             filters := [("id", id); ("user_id", uid u)];
                             returning := false; single := false |} ;;
         match error r with
         | Some e => throw e
         | None => ret true
         end)
        false
  end.

(** A row passes the [.eq] filters of a query: every filtered column holds
    the given string. *)
Definition passes (fs : list (string * string)) (row : Obj) : bool :=
  forallb (fun f =>
             match obj_get (fst f) row with
             | Some (JStr s) => (s =? snd f)%string
             | _ => false
             end) fs.

(** The row a query writes, if it inserts one. *)
Definition inserted_row (q : Query) : option Obj :=
  match verb q with
  | Insert row => Some row
  | _ => None
  end.

(** *** [generateSlug]

    A JavaScript string is a sequence of UTF-16 code units. *)

Local Open Scope N_scope.

Definition JsString := list N.

Definition hyphen : N := 45.
Definition underscore : N := 95.

Definition is_digit (c : N) : bool := (48 <=? c) && (c <=? 57).
Definition is_upper (c : N) : bool := (65 <=? c) && (c <=? 90).
Definition is_lower (c : N) : bool := (97 <=? c) && (c <=? 122).

(** [\w]: without the [u] and [i] flags, [[A-Za-z0-9_]]. *)
Definition is_word (c : N) : bool :=
  is_upper c || is_lower c || is_digit c || (c =? underscore).

(** [\s], which is also what [trim] strips: the white space and line
    terminator code points. *)
Definition is_space (c : N) : bool :=
  (9 <=? c) && (c <=? 13) || (c =? 32) || (c =? 160) || (c =? 5760)
  || (8192 <=? c) && (c <=? 8202) || (c =? 8232) || (c =? 8233)
  || (c =? 8239) || (c =? 8287) || (c =? 12288) || (c =? 65279).

Fixpoint drop_while (p : N -> bool) (s : JsString) : JsString :=
  match s with
  | [] => []
  | c :: s' => if p c then drop_while p s' else s
  end.

(** Dropping from the end. *)
Definition drop_while_end (p : N -> bool) (s : JsString) : JsString :=
  rev (drop_while p (rev s)).

(** [s.trim()]. *)
Definition trim (s : JsString) : JsString :=
  drop_while_end is_space (drop_while is_space s).

(** [.replace(/[^\w\s-]/g, '')]. *)
Definition remove_other (s : JsString) : JsString :=
  filter (fun c => is_word c || is_space c || (c =? hyphen)) s.

(** [[\s_-]]. *)
Definition is_sep (c : N) : bool :=
  is_space c || (c =? underscore) || (c =? hyphen).

(** [.replace(/[\s_-]+/g, '-')]: every maximal run of separators becomes
    one hyphen. [in_run] tells that the previous code unit was part of the
    run being replaced. *)
Fixpoint collapse_from (in_run : bool) (s : JsString) : JsString :=
  match s with
  | [] => []
  | c :: s' =>
      if is_sep c then
        if in_run then collapse_from true s'
        else hyphen :: collapse_from true s'
      else c :: collapse_from false s'
  end.

Definition collapse (s : JsString) : JsString := collapse_from false s.

(** [.replace(/^-+|-+$/g, '')]: the leading and the trailing run of
    hyphens are removed. *)
Definition strip_hyphens (s : JsString) : JsString :=
  drop_while_end (N.eqb hyphen) (drop_while (N.eqb hyphen) s).

(** [generateSlug(str)]. [String.prototype.toLowerCase] follows the Unicode
    case tables, which are not part of this repository: it is a parameter. *)
Definition generateSlug (toLowerCase : JsString -> JsString)
    (str : JsString) : JsString :=
  strip_hyphens (collapse (remove_other (trim (toLowerCase str)))).

(** [toLowerCase] restricted to the ASCII letters; other code units are
    kept. *)
Definition ascii_toLowerCase (s : JsString) : JsString :=
  map (fun c => if is_upper c then c + 32 else c) s.

(** What the slug alphabet is: lowercase word characters and hyphens. *)
Definition is_slug_char (c : N) : bool :=
  (is_word c && negb (is_upper c)) || (c =? hyphen).

(** No two hyphens in a row. *)
Fixpoint single_hyphens (s : JsString) : bool :=
  match s with
  | c :: ((d :: _) as s') =>
      negb ((c =? hyphen) && (d =? hyphen)) && single_hyphens s'
  | _ => true
  end.

Definition starts_with_hyphen (s : JsString) : bool :=
  match s with
  | c :: _ => c =? hyphen
  | [] => false
  end.

Definition ends_with_hyphen (s : JsString) : bool :=
  starts_with_hyphen (rev s).

End SupabaseUtils.

(** ** src/lib/utils/index.ts: [debounce] and [throttle] *)

Module Utils.
Local Open Scope Z_scope.

Section Timers.

(** The arguments the wrapped function [func] is called with. *)
Variable Args : Type.

(** What a timer does when it fires. *)
Inductive Callback :=
| CallFunc (args : Args)        (* [() => func(...args)] *)
| LeaveThrottle.                (* [() => { inThrottle = false }] *)

Record Timer := { handle : nat; due : Z; callback : Callback }.

(** The host's timers, the closure variables of one debounced and one
    throttled function, and the calls [func] has received. *)
Record Runtime := {
  clock : Z;                    (* milliseconds *)
  next_handle : nat;
  timers : list Timer;          (* pending, in the order they were set *)
  timeout : option nat;         (* [debounce]'s [timeout] *)
  inThrottle : bool;            (* [throttle]'s [inThrottle] *)
  invoked : list (Z * Args)     (* when [func] ran, and with what *)
}.

(** Timer handles are positive integers. *)
Definition initial_runtime : Runtime :=
  {| clock := 0; next_handle := 1; timers := []; timeout := None;
     inThrottle := false; invoked := [] |}.

(** [setTimeout(cb, delay)]: the handle and the new runtime. *)
Definition setTimeout (cb : Callback) (delay : Z) (rt : Runtime)
    : nat * Runtime :=
  (next_handle rt,
   {| clock := clock rt;
      next_handle := S (next_handle rt);
      timers := (timers rt ++
                 [{| handle := next_handle rt;
                     due := clock rt + Z.max 0 delay;
                     callback := cb |}])%list;
      timeout := timeout rt;
      inThrottle := inThrottle rt;
      invoked := invoked rt |}).

(** [clearTimeout(h)]. *)
Definition clearTimeout (h : nat) (rt : Runtime) : Runtime :=
  {| clock := clock rt;
     next_handle := next_handle rt;
     timers := filter (fun t => negb (handle t =? h)%nat) (timers rt);
     timeout := timeout rt;
     inThrottle := inThrottle rt;
     invoked := invoked rt |}.

(** [func(...args)]. *)
Definition call_func (args : Args) (rt : Runtime) : Runtime :=
  {| clock := clock rt;
     next_handle := next_handle rt;
     timers := timers rt;
     timeout := timeout rt;
     inThrottle := inThrottle rt;
     invoked := (invoked rt ++ [(clock rt, args)])%list |}.

Definition set_timeout_var (h : option nat) (rt : Runtime) : Runtime :=
  {| clock := clock rt;
     next_handle := next_handle rt;
     timers := timers rt;
     timeout := h;
     inThrottle := inThrottle rt;
     invoked := invoked rt |}.

Definition set_inThrottle (b : bool) (rt : Runtime) : Runtime :=
  {| clock := clock rt;
     next_handle := next_handle rt;
     timers := timers rt;
     timeout := timeout rt;
     inThrottle := b;
     invoked := invoked rt |}.

(** The function [debounce(func, wait)] returns, called with [args]:
    [if (timeout) clearTimeout(timeout);
     timeout = setTimeout(() => func(...args), wait)]. *)
Definition debounced (wait : Z) (args : Args) (rt : Runtime) : Runtime :=
  let rt1 :=
    match timeout rt with
    | Some h => if negb (h =? 0)%nat then clearTimeout h rt else rt
    | None => rt
    end in
  let (h, rt2) := setTimeout (CallFunc args) wait rt1 in
  set_timeout_var (Some h) rt2.

(** The function [throttle(func, limit)] returns, called with [args]. *)
Definition throttled (limit : Z) (args : Args) (rt : Runtime) : Runtime :=
  if negb (inThrottle rt) then
    let rt1 := call_func args rt in
    let rt2 := set_inThrottle true rt1 in
    snd (setTimeout LeaveThrottle limit rt2)
  else rt.

(** Running a callback. *)
Definition run_callback (cb : Callback) (rt : Runtime) : Runtime :=
  match cb with
  | CallFunc args => call_func args rt
  | LeaveThrottle => set_inThrottle false rt
  end.

(** The pending timer that fires first: the earliest due, the oldest
    among equals. *)
Fixpoint earliest (ts : list Timer) : option Timer :=
  match ts with
  | [] => None
  | t :: ts' =>
      match earliest ts' with
      | Some t' => if due t' <? due t then Some t' else Some t
      | None => Some t
      end
  end.

(** The host fires the next timer: time passes until it is due, it
    leaves the pending list, and its callback runs. *)
Definition fire_next (rt : Runtime) : Runtime :=
  match earliest (timers rt) with
  | None => rt
  | Some t =>
      run_callback (callback t)
        {| clock := Z.max (clock rt) (due t);
           next_handle := next_handle rt;
           timers := filter (fun t' => negb (handle t' =? handle t)%nat)
                            (timers rt);
           timeout := timeout rt;
           inThrottle := inThrottle rt;
           invoked := invoked rt |}
  end.

(** Time passes with no timer firing. *)
Definition elapse (ms : Z) (rt : Runtime) : Runtime :=
  {| clock := clock rt + Z.max 0 ms;
     next_handle := next_handle rt;
     timers := timers rt;
     timeout := timeout rt;
     inThrottle := inThrottle rt;
     invoked := invoked rt |}.

End Timers.

Arguments CallFunc {Args} args.
Arguments LeaveThrottle {Args}.
Arguments initial_runtime {Args}.
Arguments clock {Args} r.
Arguments next_handle {Args} r.
Arguments timers {Args} r.
Arguments timeout {Args} r.
Arguments inThrottle {Args} r.
Arguments invoked {Args} r.
Arguments handle {Args} t.
Arguments due {Args} t.
Arguments callback {Args} t.
Arguments debounced {Args} wait args rt.
Arguments throttled {Args} limit args rt.
Arguments fire_next {Args} rt.
Arguments elapse {Args} ms rt.
Arguments Build_Timer {Args} handle due callback.

End Utils.

(** ** supabase/migrations: the products table *)

Module Migrations.

Inductive SqlType := TEXT | TEXT_ARRAY | TIMESTAMPTZ | UUID.

(** A cell. *)
Inductive SqlValue :=
| Null
| Text (s : string)
| TextArray (items : list string)
| Timestamp (t : Z)
| Uuid (u : string).

(** A column definition: [name type [NOT NULL] [DEFAULT d]
    [CHECK (name IN (...))]]. *)
Record Column := {
  col_name : string;
  col_type : SqlType;
  not_null : bool;
  default : option SqlValue;
  check_in : option (list string)
}.

Definition Row := list (string * SqlValue).

Record Table := { columns : list Column; rows : list Row }.

(** [20240628090200_add_gpsr_fields_to_products.sql]: the columns of its
    [ALTER TABLE public.products ADD COLUMN IF NOT EXISTS ...]. *)
Definition moderation_statuses : list string :=
  ["pending"; "approved"; "rejected"].

Definition plain (n : string) (t : SqlType) : Column :=
  {| col_name := n; col_type := t; not_null := false; default := None;
     check_in := None |}.

Definition gpsr_moderation_status : Column :=
  {| col_name := "gpsr_moderation_status";
     col_type := TEXT;
     not_null := true;
     default := Some (Text "pending");
     check_in := Some moderation_statuses |}.

Definition add_gpsr_fields_to_products : list Column :=
  [ plain "gpsr_identification_details" TEXT;
    {| col_name := "gpsr_pictograms"; col_type := TEXT_ARRAY;
       not_null := false; default := Some (TextArray []);
       check_in := None |};
    plain "gpsr_declarations_of_conformity" TEXT;
    {| col_name := "gpsr_certificates"; col_type := TEXT_ARRAY;
       not_null := false; default := Some (TextArray []);
       check_in := None |};
    gpsr_moderation_status;
    plain "gpsr_moderation_comment" TEXT;
    plain "gpsr_last_submission_date" TIMESTAMPTZ;
    plain "gpsr_last_moderation_date" TIMESTAMPTZ;
    plain "gpsr_submitted_by_supplier_user" TEXT ].

(** The products table as first created: [CREATE TABLE public.products]. *)
Definition products_created : Table :=
  {| columns :=
       [ {| col_name := "id"; col_type := UUID; not_null := true;
            default := None; check_in := None |};
         {| col_name := "name"; col_type := TEXT; not_null := true;
            default := None; check_in := None |};
         plain "description" TEXT;
         plain "category_id" UUID;
         {| col_name := "created_at"; col_type := TIMESTAMPTZ;
            not_null := true; default := None; check_in := None |};
         {| col_name := "updated_at"; col_type := TIMESTAMPTZ;
            not_null := true; default := None; check_in := None |} ];
     rows := [] |}.

(** *** What the statements mean *)

Definition has_type (v : SqlValue) (t : SqlType) : bool :=
  match v, t with
  | Null, _ => true
  | Text _, TEXT => true
  | TextArray _, TEXT_ARRAY => true
  | Timestamp _, TIMESTAMPTZ => true
  | Uuid _, UUID => true
  | _, _ => false
  end.

(** [CHECK (c IN (...))] is violated only when it evaluates to false; on
    NULL it evaluates to NULL. *)
Definition check_ok (allowed : option (list string)) (v : SqlValue) : bool :=
  match allowed, v with
  | None, _ => true
  | Some _, Null => true
  | Some l, Text s => existsb (String.eqb s) l
  | Some _, _ => false
  end.

Definition is_null (v : SqlValue) : bool :=
  match v with Null => true | _ => false end.

(** A cell the column accepts. *)
Definition cell_ok (c : Column) (v : SqlValue) : bool :=
  has_type v (col_type c)
  && negb (not_null c && is_null v)
  && check_ok (check_in c) v.

Fixpoint row_get (n : string) (r : Row) : option SqlValue :=
  match r with
  | [] => None
  | (n', v) :: r' => if (n' =? n)%string then Some v else row_get n r'
  end.

(** A stored row: one accepted cell per column, in column order. *)
Fixpoint row_ok (cs : list Column) (r : Row) : bool :=
  match cs, r with
  | [], [] => true
  | c :: cs', (n, v) :: r' =>
      (n =? col_name c)%string && cell_ok c v && row_ok cs' r'
  | _, _ => false
  end.

Definition has_column (n : string) (cs : list Column) : bool :=
  existsb (fun c => (col_name c =? n)%string) cs.

Definition default_value (c : Column) : SqlValue :=
  match default c with Some v => v | None => Null end.

(** [ADD COLUMN IF NOT EXISTS c]: nothing when a column of that name
    exists; otherwise the column is added and the existing rows get its
    default, which must be accepted when there are rows. *)
Definition add_column_if_not_exists (c : Column) (t : Table)
    : option Table :=
  if has_column (col_name c) (columns t) then Some t
  else
    match rows t with
    | [] => Some {| columns := (columns t ++ [c])%list; rows := [] |}
    | _ :: _ =>
        if cell_ok c (default_value c) then
          Some {| columns := (columns t ++ [c])%list;
                  rows := map (fun r => (r ++ [(col_name c, default_value c)])%list)
                              (rows t) |}
        else None
    end.

(** [ALTER TABLE ... ADD COLUMN IF NOT EXISTS c1, ADD COLUMN IF NOT EXISTS
    c2, ...]: all or nothing. *)
Fixpoint alter_table_add (cs : list Column) (t : Table) : option Table :=
  match cs with
  | [] => Some t
  | c :: cs' =>
      match add_column_if_not_exists c t with
      | Some t' => alter_table_add cs' t'
      | None => None
      end
  end.

(** The stored row an [INSERT] of the given cells makes: a column the
    statement does not name gets its default. *)
Definition complete (cs : list Column) (given : Row) : Row :=
  map (fun c =>
         (col_name c,
          match row_get (col_name c) given with
          | Some v => v
          | None => default_value c
          end)) cs.

(** [SET n1 = v1, ...] on a row. *)
Definition assign (assignments : Row) (r : Row) : Row :=
  map (fun cell =>
         (fst cell,
          match row_get (fst cell) assignments with
          | Some v => v
          | None => snd cell
          end)) r.

Definition names_known (cs : list Column) (given : Row) : bool :=
  forallb (fun cell => has_column (fst cell) cs) given.

Inductive Statement :=
| INSERT (given : Row)
| UPDATE (cond : Row -> bool) (assignments : Row)
| DELETE (cond : Row -> bool)
| ADD_COLUMNS (cs : list Column).

(** A statement either takes effect or is rejected ([None]). *)
Definition execute (s : Statement) (t : Table) : option Table :=
  match s with
  | INSERT given =>
      let r := complete (columns t) given in
      if names_known (columns t) given && row_ok (columns t) r
      then Some {| columns := columns t; rows := (rows t ++ [r])%list |}
      else None
  | UPDATE cond assignments =>
      let rs := map (fun r => if cond r then assign assignments r else r)
                    (rows t) in
      if names_known (columns t) assignments
         && forallb (row_ok (columns t)) rs
      then Some {| columns := columns t; rows := rs |}
      else None
  | DELETE cond =>
      Some {| columns := columns t;
              rows := filter (fun r => negb (cond r)) (rows t) |}
  | ADD_COLUMNS cs => alter_table_add cs t
  end.

(** A rejected statement leaves the table as it was. *)
Definition step (t : Table) (s : Statement) : Table :=
  match execute s t with
  | Some t' => t'
  | None => t
  end.

Definition run (t : Table) (history : list Statement) : Table :=
  fold_left step history t.

(** A table whose column names are distinct and whose rows are all stored
    rows. *)
Definition well_formed (t : Table) : Prop :=
  NoDup (map col_name (columns t))
  /\ forallb (row_ok (columns t)) (rows t) = true.

End Migrations.

(** ** src/types/product.ts *)

Module ProductTypes.

(** ['draft' | 'published' | 'archived']. *)
Inductive Status := draft | published | archived.

(** ['pending' | 'approved' | 'rejected']. *)
Inductive ModerationStatus := pending | approved | rejected.

(** [interface Product]; a field marked [?] may be absent. [price] is a
    number whose value plays no part here. *)
Record Product := {
  id : string;
  name : string;
  description : string;
  price : Z;
  category_id : option string;
  user_id : string;
  created_at : string;
  updated_at : string;
  status : Status;
  images : option (list string);
  documents : option (list string);
  gpsr_category : option string;
  gpsr_compliance : option bool;
  gpsr_notes : option string;
  moderation_status : option ModerationStatus;
  moderation_notes : option string;
  moderation_date : option (option string);
  moderation_by : option (option string)
}.

(** The string a value of the union type is at run time. *)
Definition literal (m : ModerationStatus) : string :=
  match m with
  | pending => "pending"
  | approved => "approved"
  | rejected => "rejected"
  end.

End ProductTypes.

(** ** src/lib/utils/index.ts: string, array, object and validation helpers *)

Module UtilsHelpers.
Import Js.

(** *** Arrays *)

Section Arrays.
Context {T : Type}.
Local Open Scope Z_scope.

(** [array.slice(start, end)], for integer arguments: a negative index
    counts from the end, and both are clamped to the array. *)
Definition slice (array : list T) (start final : Z) : list T :=
  let len := Z.of_nat (List.length array) in
  let k := if start <? 0 then Z.max (len + start) 0 else Z.min start len in
  let e := if final <? 0 then Z.max (len + final) 0 else Z.min final len in
  firstn (Z.to_nat (e - k)) (skipn (Z.to_nat k) array).

(** The loop of [chunkArray]:
    [for (let i = 0; i < array.length; i += size)
       chunks.push(array.slice(i, i + size))].
    [fuel] bounds the number of times the condition is tested; [None] when
    it runs out. *)
Fixpoint chunk_loop (fuel : nat) (array : list T) (size i : Z)
    (chunks : list (list T)) : option (list (list T)) :=
  match fuel with
  | O => None
  | S fuel' =>
      if i <? Z.of_nat (List.length array) then
        chunk_loop fuel' array size (i + size)
                   (chunks ++ [slice array i (i + size)])%list
      else Some chunks
  end.

(** [chunkArray(array, size)], for an integer [size]. *)
Definition chunkArray (fuel : nat) (array : list T) (size : Z)
    : option (list (list T)) :=
  chunk_loop fuel array size 0 [].

End Arrays.

Section UniqueBy.
Context {T V : Type}.

(** The equality of [Set.prototype.has]. *)
Variable sameValueZero : V -> V -> bool.

(** [seen.has(value)]; [seen] lists the values added so far. *)
Definition seen_has (seen : list V) (value : V) : bool :=
  existsb (sameValueZero value) seen.

(** [array.filter(item => { ... })] with the set [seen] the callback
    updates; [key] is [item => item[key]]. *)
Fixpoint filter_unseen (key : T -> V) (seen : list V) (array : list T)
    : list T :=
  match array with
  | [] => []
  | item :: rest =>
      let value := key item in
      if seen_has seen value then filter_unseen key seen rest
      else item :: filter_unseen key (seen ++ [value])%list rest
  end.

(** [uniqueBy(array, key)]. *)
Definition uniqueBy (array : list T) (key : T -> V) : list T :=
  filter_unseen key [] array.

End UniqueBy.

(** *** Objects *)

Section Objects.
Context {V : Type}.

(** An object: its own enumerable properties. Only lookups are observed
    below, so the order of the properties plays no part. *)
Definition Props := list (string * V).

(** [Object.prototype.hasOwnProperty.call(o, k)] and [o[k]] for an own
    property. *)
Fixpoint prop_get (k : string) (o : Props) : option V :=
  match o with
  | [] => None
  | (k', v) :: o' => if (k' =? k)%string then Some v else prop_get k o'
  end.

(** [o[k] = v]. *)
Fixpoint prop_set (k : string) (v : V) (o : Props) : Props :=
  match o with
  | [] => [(k, v)]
  | (k', v') :: o' =>
      if (k' =? k)%string then (k, v) :: o' else (k', v') :: prop_set k v o'
  end.

(** [delete o[k]]. *)
Definition prop_delete (k : string) (o : Props) : Props :=
  filter (fun e => negb (fst e =? k)%string) o.

(** [pick(obj, keys)]; [obj] may be null at run time, which the test
    [obj && ...] allows for. *)
Definition pick (obj : option Props) (keys : list string) : Props :=
  fold_left (fun acc key =>
               match obj with
               | Some o =>
                   match prop_get key o with
                   | Some v => prop_set key v acc
                   | None => acc
                   end
               | None => acc
               end)
            keys [].

(** [omit(obj, keys)]: [{ ...obj }] is the empty object for a null [obj]. *)
Definition omit (obj : option Props) (keys : list string) : Props :=
  fold_left (fun result key => prop_delete key result) keys
            (match obj with Some o => o | None => [] end).

End Objects.

(** *** Strings, as sequences of UTF-16 code units *)

Definition JsString := SupabaseUtils.JsString.

Definition dot : N := 46.
Definition at_sign : N := 64.
Definition plus_sign : N := 43.

(** [s.substring(start, end)], for integer arguments: both are clamped to
    the string and swapped when [start > end]. *)
Definition substring (s : JsString) (start final : Z) : JsString :=
  let len := Z.of_nat (List.length s) in
  let a := Z.min (Z.max start 0) len in
  let b := Z.min (Z.max final 0) len in
  firstn (Z.to_nat (Z.max a b - Z.min a b)) (skipn (Z.to_nat (Z.min a b)) s).

(** The default [suffix = '...']. *)
Definition default_suffix : JsString := [dot; dot; dot].

(** [truncate(str, length, suffix)], for an integer [length]. *)
Definition truncate (str : JsString) (length : Z) (suffix : JsString)
    : JsString :=
  if (Z.of_nat (List.length str) >? length)%Z
  then (substring str 0 length ++ suffix)%list
  else str.

(** [s.split(sep)] for a separator of one code unit: the pieces between
    the separators; never empty. *)
Fixpoint split (sep : N) (s : JsString) : list JsString :=
  match s with
  | [] => [[]]
  | c :: s' =>
      if (c =? sep)%N then [] :: split sep s'
      else
        match split sep s' with
        | piece :: pieces => (c :: piece) :: pieces
        | [] => [[c]]
        end
  end.

(** [array.pop()]: the last element, [undefined] for an empty array. *)
Fixpoint pop {A} (l : list A) : option A :=
  match l with
  | [] => None
  | [a] => Some a
  | _ :: l' => pop l'
  end.

(** [getFileExtension(filename)]:
    [filename.split('.').pop()?.toLowerCase() || '']. [toLowerCase] follows
    the Unicode case tables: it is a parameter. *)
Definition getFileExtension (toLowerCase : JsString -> JsString)
    (filename : JsString) : JsString :=
  match pop (split dot filename) with
  | Some piece =>
      match toLowerCase piece with
      | [] => []
      | lowered => lowered
      end
  | None => []
  end.

(** *** Validation: regular expressions

    The two patterns below use no flag, no group reference and no
    look-around, and are anchored at both ends: [test] tells whether the
    whole string belongs to the language of the pattern. *)

Inductive Regex :=
| Never                              (* matches nothing *)
| Empty                              (* the empty pattern *)
| Class (p : N -> bool)              (* a character class *)
| Seq (r1 r2 : Regex)                (* [r1 r2] *)
| Alt (r1 r2 : Regex)                (* [r1|r2] *)
| Star (r : Regex).                  (* [r*] *)

(** [r+], [r?] and [r{n,}]. *)
Definition plus (r : Regex) : Regex := Seq r (Star r).

Definition opt (r : Regex) : Regex := Alt r Empty.

Fixpoint at_least (n : nat) (r : Regex) : Regex :=
  match n with
  | O => Star r
  | S n' => Seq r (at_least n' r)
  end.

(** Matching by derivatives. *)
Fixpoint nullable (r : Regex) : bool :=
  match r with
  | Never => false
  | Empty => true
  | Class _ => false
  | Seq r1 r2 => nullable r1 && nullable r2
  | Alt r1 r2 => nullable r1 || nullable r2
  | Star _ => true
  end.

Fixpoint derive (c : N) (r : Regex) : Regex :=
  match r with
  | Never => Never
  | Empty => Never
  | Class p => if p c then Empty else Never
  | Seq r1 r2 =>
      if nullable r1 then Alt (Seq (derive c r1) r2) (derive c r2)
      else Seq (derive c r1) r2
  | Alt r1 r2 => Alt (derive c r1) (derive c r2)
  | Star r1 => Seq (derive c r1) (Star r1)
  end.

(** [/^r$/.test(s)]. *)
Fixpoint test (r : Regex) (s : JsString) : bool :=
  match s with
  | [] => nullable r
  | c :: s' => test (derive c r) s'
  end.

(** [[^\s@]]. *)
Definition not_space_or_at (c : N) : bool :=
  negb (SupabaseUtils.is_space c || (c =? at_sign)%N).

(** [/^[^\s@]+@[^\s@]+\.[^\s@]+$/]. *)
Definition email_pattern : Regex :=
  Seq (plus (Class not_space_or_at))
      (Seq (Class (N.eqb at_sign))
           (Seq (plus (Class not_space_or_at))
                (Seq (Class (N.eqb dot))
                     (plus (Class not_space_or_at))))).

Definition validateEmail (email : JsString) : bool :=
  test email_pattern email.

(** [[\d\s-]]. *)
Definition phone_char (c : N) : bool :=
  SupabaseUtils.is_digit c || SupabaseUtils.is_space c
  || (c =? SupabaseUtils.hyphen)%N.

(** [/^\+?[\d\s-]{10,}$/]. *)
Definition phone_pattern : Regex :=
  Seq (opt (Class (N.eqb plus_sign))) (at_least 10 (Class phone_char)).

Definition validatePhone (phone : JsString) : bool :=
  test phone_pattern phone.

End UtilsHelpers.

(** ** src/context/AuthContext.tsx: the status checks *)

Module AuthChecks.
Import Js Eff AuthContext.
Local Open Scope eff_scope.

(** [!!user?.email_confirmed_at]. *)
Definition confirmed (u : option User) : bool :=
  match u with
  | Some u' =>
      match email_confirmed_at u' with
      | Some t => truthy_str t
      | None => false
      end
  | None => false
  end.

(** [isEmailConfirmed()], on the provider's [user] state. *)
Definition isEmailConfirmed (st : AuthState) : bool := confirmed (st_user st).

(** [checkEmailConfirmed()]; [current] is [getSessionRef.current], called
    without an argument: [forceRefresh] takes its default. *)
Definition checkEmailConfirmed (current : option GetSessionFunction)
    : M Sdk bool :=
  match current with
  | None => ret false
  | Some f =>
      session <- f false ;;
      ret (confirmed (option_map user session))
  end.

(** [isSessionValid()]: [!!session?.user]. *)
Definition isSessionValid (current : option GetSessionFunction)
    : M Sdk bool :=
  match current with
  | None => ret false
  | Some f =>
      session <- f false ;;
      ret (match option_map user session with
           | Some _ => true
           | None => false
           end)
  end.

End AuthChecks.

(** ** src/context/AuthContext.tsx: the sign-in, sign-up and account methods *)

Module AuthMethods.
Import Js Eff AuthContext.
Local Open Scope eff_scope.

(** [UserMetadata]. *)
Definition UserMetadata := SupabaseUtils.Obj.

(** The SDK calls these methods make, with the arguments they pass. *)
Inductive AuthCall :=
| SignUp (email password : string) (data : option UserMetadata)
| SignInWithPassword (email password : string)
| SignInWithOAuth (provider redirectTo : string)
| SignOut
| ResetPasswordForEmail (email redirectTo : string)
| UpdateUser (email password : option string) (data : option UserMetadata)
| Resend (type email emailRedirectTo : string)
| VerifyOtp (token_hash type : string).

(** What the SDK resolves to: [{ data: { user, session }, error }]. *)
Record AuthResult := {
  data_user : option User;
  data_session : option Session;
  error : option JsError
}.

(** The SDK, [window.location.origin], and the provider's state. *)
Record World := {
  respond : AuthCall -> Outcome AuthResult;
  made : list AuthCall;
  origin : string;
  state : AuthState
}.

Definition await_auth (c : AuthCall) : M World AuthResult :=
  fun w => (respond w c,
            {| respond := respond w; made := (made w ++ [c])%list;
               origin := origin w; state := state w |}).

Definition set_user (u : User) : M World unit :=
  modify (fun w => {| respond := respond w; made := made w;
                      origin := origin w;
                      state := setUser (Some u) (state w) |}).

(** The [data] of an [AuthResponse<User>] or [AuthResponse<Session>]. *)
Inductive Payload :=
| OfUser (u : User)
| OfSession (s : Session).

(** [AuthResponse<T>]; an absent field is [None]. *)
Record Response := {
  r_error : option JsError;
  r_user : option User;
  r_session : option Session;
  r_data : option Payload;
  r_message : option string
}.

(** What every [catch] block returns. *)
Definition caught (e : JsError) : Response :=
  {| r_error := Some e; r_user := None; r_session := None; r_data := None;
     r_message := None |}.

(** [signUp(email, password, userData)]. *)
Definition signUp (email password : string) (userData : option UserMetadata)
    : M World Response :=
  try_catch
    (r <- await_auth (SignUp email password userData) ;;
     ret {| r_error := error r; r_user := data_user r;
            r_session := data_session r;
            r_data := option_map OfUser (data_user r);
            r_message := None |})
    (fun e => ret (caught e)).

(** [signIn(email, password)]. *)
Definition signIn (email password : string) : M World Response :=
  try_catch
    (r <- await_auth (SignInWithPassword email password) ;;
     ret {| r_error := error r; r_user := data_user r;
            r_session := data_session r;
            r_data := option_map OfSession (data_session r);
            r_message := None |})
    (fun e => ret (caught e)).

(** [signInWithProvider(provider)]; [homePath] is the provider's prop. *)
Definition signInWithProvider (homePath provider : string)
    : M World Response :=
  try_catch
    (w <- get ;;
     r <- await_auth (SignInWithOAuth provider (origin w ++ homePath)) ;;
     match error r with
     | Some e => ret (caught e)
     | None =>
         ret {| r_error := None; r_user := None; r_session := None;
                r_data := None;
                r_message := Some "Redirecting to provider..." |}
     end)
    (fun e => ret (caught e)).

(** The methods that return [{ error }] alone. *)
Definition error_only (c : AuthCall) : M World (option JsError) :=
  try_catch
    (r <- await_auth c ;; ret (error r))
    (fun e => ret (Some e)).

Definition signOut : M World (option JsError) := error_only SignOut.

Definition resetPassword (email : string) : M World (option JsError) :=
  w <- get ;;
  error_only (ResetPasswordForEmail email (origin w ++ "/update-password")).

Definition updatePassword (newPassword : string) : M World (option JsError) :=
  error_only (UpdateUser None (Some newPassword) None).

Definition sendVerificationEmail (email : string)
    : M World (option JsError) :=
  w <- get ;;
  error_only (Resend "signup" email (origin w ++ "/verify-email")).

(** [updateUser(data)]: the context's user follows only when the SDK
    hands one back. *)
Definition updateUser (email password : option string)
    (data : option UserMetadata) : M World Response :=
  try_catch
    (r <- await_auth (UpdateUser email password data) ;;
     match data_user r with
     | Some u => set_user u
     | None => ret tt
     end ;;;
     ret {| r_error := error r; r_user := data_user r; r_session := None;
            r_data := option_map OfUser (data_user r);
            r_message := None |})
    (fun e => ret (caught e)).

(** [verifyEmail(token)]. *)
Definition verifyEmail (token : string) : M World Response :=
  try_catch
    (r <- await_auth (VerifyOtp token "email") ;;
     ret {| r_error := error r; r_user := data_user r;
            r_session := data_session r;
            r_data := option_map OfSession (data_session r);
            r_message := None |})
    (fun e => ret (caught e)).

End AuthMethods.

(** ** src/pages/Categories.tsx: the list page *)

Module CategoriesPage.
Import Js Eff.
Export Backend.
Local Open Scope eff_scope.

(** The SDK's [User]: its [id]. *)
Record User := { uid : string }.

(** [type NewCategory]. *)
Record NewCategory := { new_name : string; new_parent_id : string }.

(** [Record<string, boolean>]: the ids toggled so far. Category ids are
    the keys; a key that is absent reads as [undefined]. *)
Definition Expanded := list (string * bool).

Fixpoint expanded_get (k : string) (e : Expanded) : option bool :=
  match e with
  | [] => None
  | (k', b) :: e' => if (k' =? k)%string then Some b else expanded_get k e'
  end.

Fixpoint expanded_set (k : string) (b : bool) (e : Expanded) : Expanded :=
  match e with
  | [] => [(k, b)]
  | (k', b') :: e' =>
      if (k' =? k)%string then (k, b) :: e' else (k', b') :: expanded_set k b e'
  end.

(** The truthiness of [expandedCategories[id]]. *)
Definition is_expanded (e : Expanded) (k : string) : bool :=
  match expanded_get k e with
  | Some b => b
  | None => false
  end.

(** The component's React state. [categories] holds the array
    [buildCategoryTree] returned: references into the heap of category
    objects. *)
Record Ui := {
  ui_categories : JsMap * list string;
  newCategory : NewCategory;
  loading : bool;
  error_text : string;
  expandedCategories : Expanded
}.

Definition initial_ui : Ui :=
  {| ui_categories := ([], []);
     newCategory := {| new_name := ""; new_parent_id := "" |};
     loading := true; error_text := ""; expandedCategories := [] |}.

(** [{ name, parent_id, user_id }], the row [handleAddCategory] inserts. *)
Record NewRow := {
  row_name : string;
  row_parent_id : option string;
  row_user_id : string
}.

Inductive Request :=
| Sent (q : Query)               (* a select or a delete *)
| Insert (row : NewRow).         (* [.insert([row])] *)

(** The world the handlers run in. [generated] is what the table's
    defaults give the next inserted row: [gen_random_uuid()] and [NOW()]. *)
Record World := {
  db : Database;
  auth_getUser : Outcome (option User * option JsError);
  failures : list (option JsError);  (* one entry per request, in order *)
  generated : string * string;
  issued : list Request;
  ui : Ui
}.

Definition with_ui (f : Ui -> Ui) (w : World) : World :=
  {| db := db w; auth_getUser := auth_getUser w; failures := failures w;
     generated := generated w; issued := issued w; ui := f (ui w) |}.

Definition setCategories (g : JsMap * list string) : M World unit :=
  modify (with_ui (fun u =>
    {| ui_categories := g; newCategory := newCategory u;
       loading := loading u; error_text := error_text u;
       expandedCategories := expandedCategories u |})).

Definition setNewCategory (n : NewCategory) : M World unit :=
  modify (with_ui (fun u =>
    {| ui_categories := ui_categories u; newCategory := n;
       loading := loading u; error_text := error_text u;
       expandedCategories := expandedCategories u |})).

Definition set_loading (b : bool) (u : Ui) : Ui :=
  {| ui_categories := ui_categories u; newCategory := newCategory u;
     loading := b; error_text := error_text u;
     expandedCategories := expandedCategories u |}.

Definition setLoading (b : bool) : M World unit :=
  modify (with_ui (set_loading b)).

Definition setError (e : string) : M World unit :=
  modify (with_ui (fun u =>
    {| ui_categories := ui_categories u; newCategory := newCategory u;
       loading := loading u; error_text := e;
       expandedCategories := expandedCategories u |})).

Definition setExpandedCategories (f : Expanded -> Expanded) : M World unit :=
  modify (with_ui (fun u =>
    {| ui_categories := ui_categories u; newCategory := newCategory u;
       loading := loading u; error_text := error_text u;
       expandedCategories := f (expandedCategories u) |})).

(** [await supabase.auth.getUser()]. *)
Definition await_getUser : M World (option User * option JsError) :=
  fun w => (auth_getUser w, w).

(** The row the table stores for an insert: [id] and the two timestamps
    take their defaults. The primary key and the foreign key on
    [parent_id] are enforced. *)
Definition stored (row : NewRow) (gen : string * string) : Category :=
  {| id := fst gen; name := row_name row; parent_id := row_parent_id row;
     user_id := row_user_id row; created_at := snd gen;
     updated_at := snd gen |}.

Definition insert_category (row : NewRow) (gen : string * string)
    (d : Database) : Database * Response :=
  if has_id (categories d) (fst gen) then
    (d, failed {| is_Error := false;
                  message := "duplicate key value violates unique constraint" |})
  else if match row_parent_id row with
          | Some p => negb (has_id (categories d) p)
          | None => false
          end then
    (d, failed {| is_Error := false;
                  message := "insert or update violates foreign key constraint" |})
  else
    ({| categories := (categories d ++ [stored row gen])%list;
        products := products d |}, ok_empty).

Definition carry_out (r : Request) (w : World) : Database * Response :=
  match r with
  | Sent q => execute q (db w)
  | Insert row => insert_category row (generated w) (db w)
  end.

(** [await supabase.from(...)...]: the request is sent; the backend
    carries it out unless this one is scripted to fail. *)
Definition await_request (r : Request) : M World Response :=
  fun w =>
    let sent := (issued w ++ [r])%list in
    match nth 0 (failures w) None with
    | Some e =>
        (Returned (failed e),
         {| db := db w; auth_getUser := auth_getUser w;
            failures := tl (failures w); generated := generated w;
            issued := sent; ui := ui w |})
    | None =>
        (Returned (snd (carry_out r w)),
         {| db := fst (carry_out r w); auth_getUser := auth_getUser w;
            failures := tl (failures w); generated := generated w;
            issued := sent; ui := ui w |})
    end.

(** [if (error) throw error]. *)
Definition throw_if (e : option JsError) : M World unit :=
  match e with
  | Some err => throw err
  | None => ret tt
  end.

(** [err instanceof Error ? err.message : fallback]. *)
Definition error_message (err : JsError) (fallback : string) : string :=
  if is_Error err then message err else fallback.

(** [fetchCategories()]. *)
Definition fetchCategories : M World unit :=
  try_finally
    (try_catch
       (setLoading true ;;;
        r <- await_getUser ;;
        throw_if (snd r) ;;;
        match fst r with
        | None => throw (new_Error "User not authenticated")
        | Some user =>
            r1 <- await_request
                    (Sent {| table := "categories"; verb := Select;
                             filters := [Eq "user_id" (uid user)];
                             single := false |}) ;;
            throw_if (error r1) ;;;
            setCategories
              (buildCategoryGraph
                 (match data r1 with Some l => l | None => [] end))
        end)
       (fun err => setError (error_message err "Error fetching categories")))
    (with_ui (set_loading false)).

(** [handleAddCategory(e)]. The call of [fetchCategories] that ends it is
    not awaited; nothing follows it in the handler, and it catches its own
    errors. *)
Definition handleAddCategory : M World unit :=
  try_catch
    (setError "" ;;;
     r <- await_getUser ;;
     throw_if (snd r) ;;;
     match fst r with
     | None => throw (new_Error "User not authenticated")
     | Some user =>
         w <- get ;;
         let categoryData :=
           {| row_name := new_name (newCategory (ui w));
              row_parent_id :=
                if truthy_str (new_parent_id (newCategory (ui w)))
                then Some (new_parent_id (newCategory (ui w)))
                else None;
              row_user_id := uid user |} in
         r1 <- await_request (Insert categoryData) ;;
         throw_if (error r1) ;;;
         setNewCategory {| new_name := ""; new_parent_id := "" |} ;;;
         fetchCategories
     end)
    (fun err => setError (error_message err "Error adding category")).

(** [handleDeleteCategory(id)]; [confirmed] is the answer to
    [window.confirm]. *)
Definition handleDeleteCategory (id : string) (confirmed : bool)
    : M World unit :=
  if confirmed then
    try_catch
      (r <- await_request
              (Sent {| table := "categories"; verb := Delete;
                       filters := [Eq "id" id]; single := false |}) ;;
       throw_if (error r) ;;;
       fetchCategories)
      (fun err => setError (error_message err "Error deleting category"))
  else ret tt.

(** [toggleCategory(id)]: [{ ...prev, [id]: !prev[id] }]. *)
Definition toggle (id : string) (prev : Expanded) : Expanded :=
  expanded_set id (negb (is_expanded prev id)) prev.

Definition toggleCategory (id : string) : M World unit :=
  setExpandedCategories (toggle id).

(** The [onChange] of the parent select: [{ ...newCategory, parent_id }]. *)
Definition handleChange_parent (value : string) : M World unit :=
  w <- get ;;
  setNewCategory {| new_name := new_name (newCategory (ui w));
                    new_parent_id := value |}.

(** The values of the options of the parent select: the empty one and
    [categories.map(category => category.id)]. *)
Definition parent_options (u : Ui) : list string :=
  "" :: snd (ui_categories u).

(** A row of the category list: the category, its level, and its toggle
    button, if it has one, with the sign it shows ([true] for [−]). *)
Record Row := {
  row_category : Category;
  row_level : nat;
  row_button : option bool
}.

(** [renderCategory(category, level)], on the category object read as a
    finite tree: the rows it renders, from top to bottom. *)
Fixpoint renderCategory (expanded : Expanded) (level : nat) (category : Tree)
    : list Row :=
  match category with
  | TNode c sub =>
      let hasChildren := match sub with [] => false | _ :: _ => true end in
      let isExpanded := is_expanded expanded (id c) in
      {| row_category := c; row_level := level;
         row_button := if hasChildren then Some isExpanded else None |}
      :: (if hasChildren && isExpanded
          then flat_map (renderCategory expanded (S level)) sub
          else [])
  end.

(** [categories.map(category => renderCategory(category))]. *)
Definition render_list (expanded : Expanded) (forest : list Tree)
    : list Row :=
  flat_map (renderCategory expanded 0) forest.

End CategoriesPage.

(** ** src/lib/supabase/utils.ts: [useProducts().fetchPaginated] *)

Module ProductPages.
Import Js Eff.
Local Open Scope eff_scope.
Local Open Scope Z_scope.

(** The SDK's [User]: its [id]. *)
Record User := { uid : string }.

(** The query [fetchPaginated] builds. *)
Record PageQuery := {
  pq_table : string;
  pq_columns : string;                 (* [.select('*', ...)] *)
  pq_count : string;                   (* [{ count: 'exact' }] *)
  pq_filters : list (string * string); (* [.eq(column, value)] *)
  pq_order : string * bool;            (* column, [ascending] *)
  pq_range : Z * Z                     (* [.range(from, to)], inclusive *)
}.

(** [{ data, count, error }]; [count] is a number or null. *)
Record PageResponse := {
  rows : SupabaseUtils.Json;
  count : option nat;
  error : option JsError
}.

Record World := {
  respond : PageQuery -> Outcome PageResponse;
  issued : list PageQuery
}.

Definition await_page (q : PageQuery) : M World PageResponse :=
  fun w => (respond w q,
            {| respond := respond w; issued := (issued w ++ [q])%list |}).

(** [Pagination<T>]. [pageCount] is [None] when the division gives no
    finite number. *)
Record Pagination := {
  p_data : SupabaseUtils.Json;
  total : Z;
  page : Z;
  pageSize : Z;
  pageCount : option Z
}.

(** [count || 0]. *)
Definition count_or_zero (count : option nat) : Z :=
  match count with
  | Some n => if truthy_num (Z.of_nat n) then Z.of_nat n else 0
  | None => 0
  end.

(** [Math.ceil(a / b)] for integers: [Infinity] or [NaN] when [b] is 0. *)
Definition ceil_div (a b : Z) : option Z :=
  if b =? 0 then None else Some (- ((- a) / b)).

(** [fetchPaginated(page = 1, pageSize = 10)], for integer arguments. *)
Definition fetchPaginated (user : option User) (page pageSize : Z)
    : M World (option Pagination) :=
  match user with
  | None => ret None
  | Some u =>
      try_catch
        (let from := (page - 1) * pageSize in
         let to := from + pageSize - 1 in
         r <- await_page {| pq_table := "products"; pq_columns := "*";
                            pq_count := "exact";
                            pq_filters := [("user_id", uid u)];
                            pq_order := ("created_at", false);
                            pq_range := (from, to) |} ;;
         match error r with
         | Some e => throw e
         | None =>
             ret (Some {| p_data := rows r;
                          total := count_or_zero (count r);
                          page := page;
                          pageSize := pageSize;
                          pageCount := ceil_div (count_or_zero (count r))
                                                pageSize |})
         end)
        (fun _ => ret None)
  end.

End ProductPages.

(** ** src/lib/supabase/utils.ts: [useProductImages] *)

Module ProductImages.
Import Js Eff.
Local Open Scope eff_scope.

Definition Json := SupabaseUtils.Json.
Definition Obj := SupabaseUtils.Obj.

Inductive Verb :=
| Select (columns : string)
| Insert (row : Obj)
| Update (values : Obj)
| Delete.

(** A query on [product_images]; [order] is [.order(column, { ascending })]. *)
Record Query := {
  table : string;
  verb : Verb;
  filters : list (string * string);
  order : option (string * bool);
  returning : bool;       (* [.select()] after a write *)
  single : bool           (* [.single()] *)
}.

Record Response := { data : Json; error : option JsError }.

(** The hook's world: the backend's answers, the queries issued, and the
    hook's [images], [loading] and [error] state. A handler runs with the
    state of the render it was created in; the calls below are made one
    after the other, each from the render that follows the previous one. *)
Record World := {
  respond : Query -> Outcome Response;
  issued : list Query;
  images : list Obj;
  loading : bool;
  hook_error : option JsError
}.

Definition setImages (f : list Obj -> list Obj) : M World unit :=
  modify (fun w => {| respond := respond w; issued := issued w;
                      images := f (images w); loading := loading w;
                      hook_error := hook_error w |}).

Definition set_loading (b : bool) (w : World) : World :=
  {| respond := respond w; issued := issued w; images := images w;
     loading := b; hook_error := hook_error w |}.

Definition setError (e : option JsError) : M World unit :=
  modify (fun w => {| respond := respond w; issued := issued w;
                      images := images w; loading := loading w;
                      hook_error := e |}).

Definition await_query (q : Query) : M World Response :=
  fun w => (respond w q,
            {| respond := respond w; issued := (issued w ++ [q])%list;
               images := images w; loading := loading w;
               hook_error := hook_error w |}).

(** [if (error) throw error]. *)
Definition throw_if (e : option JsError) : M World unit :=
  match e with
  | Some err => throw err
  | None => ret tt
  end.

(** The rows of [data || []], for a [data] that is an array of rows or
    null. *)
Definition rows_of (d : Json) : list Obj :=
  match d with
  | SupabaseUtils.JArr items =>
      map (fun i => match i with
                    | SupabaseUtils.JObj fields => fields
                    | _ => []
                    end) items
  | _ => []
  end.

(** The row [data] is, for the answer to [.single()]. *)
Definition row_of (d : Json) : Obj :=
  match d with
  | SupabaseUtils.JObj fields => fields
  | _ => []
  end.

(** [fetchImages(id)]. *)
Definition fetchImages (id : string) : M World (list Obj) :=
  modify (set_loading true) ;;;
  setError None ;;;
  try_finally
    (try_catch
       (r <- await_query {| table := "product_images"; verb := Select "*";
                            filters := [("product_id", id)];
                            order := Some ("position", true);
                            returning := false; single := false |} ;;
        throw_if (error r) ;;;
        setImages (fun _ => rows_of (data r)) ;;;
        ret (rows_of (data r)))
       (fun err => setError (Some err) ;;; ret []))
    (set_loading false).

(** [!productId], for [productId?: string]. *)
Definition no_product (productId : option string) : bool :=
  match productId with
  | Some s => negb (truthy_str s)
  | None => true
  end.

(** The row [addImage] inserts when the hook holds [n] images. *)
Definition new_image (productId url : string) (altText : option string)
    (n : nat) : Obj :=
  [ ("product_id", SupabaseUtils.JStr productId);
    ("url", SupabaseUtils.JStr url);
    ("alt_text", SupabaseUtils.JStr
                   match altText with
                   | Some a => if truthy_str a then a else ""
                   | None => ""
                   end);
    ("position", SupabaseUtils.JNum (Z.of_nat n));
    ("is_primary", SupabaseUtils.JBool (n =? 0)%nat) ].

(** [addImage(url, altText)]. *)
Definition addImage (productId : option string) (url : string)
    (altText : option string) : M World (option Obj) :=
  match productId with
  | None => ret None
  | Some pid =>
      if negb (truthy_str pid) then ret None
      else
        modify (set_loading true) ;;;
        setError None ;;;
        try_finally
          (try_catch
             (w <- get ;;
              r <- await_query
                     {| table := "product_images";
                        verb := Insert (new_image pid url altText
                                                  (List.length (images w)));
                        filters := []; order := None;
                        returning := true; single := true |} ;;
              throw_if (error r) ;;;
              setImages (fun prev => (prev ++ [row_of (data r)])%list) ;;;
              ret (Some (row_of (data r))))
             (fun err => setError (Some err) ;;; ret None))
          (set_loading false)
  end.

(** [img.id === imageId]. *)
Definition has_image_id (imageId : string) (img : Obj) : bool :=
  match SupabaseUtils.obj_get "id" img with
  | Some (SupabaseUtils.JStr s) => (s =? imageId)%string
  | _ => false
  end.

(** [{ ...img, ...updates }]. *)
Definition merge (img updates : Obj) : Obj :=
  fold_left (fun acc kv => SupabaseUtils.obj_set (fst kv) (snd kv) acc)
            updates img.

(** [updateImage(imageId, updates)]. *)
Definition updateImage (imageId : string) (updates : Obj) : M World bool :=
  try_catch
    (r <- await_query {| table := "product_images"; verb := Update updates;
                         filters := [("id", imageId)]; order := None;
                         returning := false; single := false |} ;;
     throw_if (error r) ;;;
     setImages (map (fun img => if has_image_id imageId img
                                then merge img updates else img)) ;;;
     ret true)
    (fun err => setError (Some err) ;;; ret false).

(** [removeImage(imageId)]. *)
Definition removeImage (imageId : string) : M World bool :=
  try_catch
    (r <- await_query {| table := "product_images"; verb := Delete;
                         filters := [("id", imageId)]; order := None;
                         returning := false; single := false |} ;;
     throw_if (error r) ;;;
     setImages (filter (fun img => negb (has_image_id imageId img))) ;;;
     ret true)
    (fun err => setError (Some err) ;;; ret false).

End ProductImages.

(** * The vocabulary of the properties

    Observations on runs of the models, the predicates the statements use,
    and the sample data of the worked examples. *)

Section AuthContextPropertiesVocabulary.
Import Js Eff AuthContext.
Local Open Scope Z_scope.

(** What a refresh hands back: the session of a successful
    [refreshSession()], nothing when it reports or raises an error. *)
Definition refreshed (w : Sdk) : option Session :=
  match auth_refreshSession w with
  | Returned r =>
      match error r with
      | None => data_session r
      | Some _ => None
      end
  | Thrown _ => None
  end.

(** The SDK's answer to a call. *)
Definition answer (w : Sdk) (c : SdkCall) : Outcome SessionResult :=
  match c with
  | CallGetSession => auth_getSession w
  | CallRefreshSession => auth_refreshSession w
  end.

(** An SDK call raised an error: it rejected, or resolved with [error]. *)
Definition raised (o : Outcome SessionResult) : bool :=
  match o with
  | Thrown _ => true
  | Returned r =>
      match error r with
      | Some _ => true
      | None => false
      end
  end.

(** The SDK calls one run of [getSession] makes. *)
Definition made (thr now : Z) (force : bool) (w : Sdk) : list SdkCall :=
  skipn (List.length (calls w)) (calls (snd (getSession thr now force w))).

(** The refresh condition in the words of the claim. *)
Definition expiring_as_stated (thr now : Z) (s : Session) : Prop :=
  exists e, expires_at s = Some e /\ e * 1000 < now + thr * 1000.

(** The refresh condition of the code: [expires_at] is also non-zero. *)
Definition expiring (thr now : Z) (session : option Session) : Prop :=
  exists s e, session = Some s /\ expires_at s = Some e /\ e <> 0
              /\ e * 1000 < now + thr * 1000.

(** A session that expired at the epoch, another one the refresh would
    return, and an SDK that answers both calls without error. *)
Definition epoch_session : Session :=
  {| access_token := "old"; expires_at := Some 0;
     user := {| user_id := "u1"; email_confirmed_at := None |} |}.

Definition fresh_session : Session :=
  {| access_token := "new"; expires_at := Some 2000000000;
     user := {| user_id := "u1"; email_confirmed_at := None |} |}.

Definition sdk_with (s : Session) : Sdk :=
  {| auth_getSession :=
       Returned {| data_session := Some s; error := None |};
     auth_refreshSession :=
       Returned {| data_session := Some fresh_session; error := None |};
     calls := [] |}.

Definition stale_session : Session :=
  {| access_token := "old"; expires_at := Some 1700000100;
     user := {| user_id := "u1"; email_confirmed_at := None |} |}.

Definition failing_sdk : Sdk :=
  {| auth_getSession :=
       Returned {| data_session := Some stale_session; error := None |};
     auth_refreshSession :=
       Returned {| data_session := None;
                   error := Some {| is_Error := true;
                                    message := "Invalid Refresh Token" |} |};
     calls := [] |}.

End AuthContextPropertiesVocabulary.

Section RedirectPolicyVocabulary.
Import Js Eff AuthContext ProtectedRoute.

Definition to_login (p : AuthProviderProps) : Navigation :=
  {| nav_to := loginPath p; nav_replace := true |}.

Definition to_home (p : AuthProviderProps) : Navigation :=
  {| nav_to := homePath p; nav_replace := false |}.

(** The path is neither the login path nor under [/signup]. *)
Definition outside_public (p : AuthProviderProps) (loc : Location) : Prop :=
  pathname loc <> loginPath p /\ startsWith (pathname loc) "/signup" = false.

Definition no_session_sdk : Sdk :=
  {| auth_getSession := Returned {| data_session := None; error := None |};
     auth_refreshSession :=
       Returned {| data_session := None; error := None |};
     calls := [] |}.

End RedirectPolicyVocabulary.

Section RowScopingVocabulary.
Import Js Eff.

(** The queries a computation of the hook issues. *)
Definition new_queries {A} (m : M SupabaseUtils.World A)
    (w : SupabaseUtils.World) : list SupabaseUtils.Query :=
  skipn (List.length (SupabaseUtils.issued w))
        (SupabaseUtils.issued (snd (m w))).

(** A query reaches only rows whose [user_id] is the user's id. *)
Definition scoped (u : SupabaseUtils.User) (q : SupabaseUtils.Query) : Prop :=
  forall row,
    SupabaseUtils.passes (SupabaseUtils.filters q) row = true ->
    SupabaseUtils.obj_get "user_id" row
    = Some (SupabaseUtils.JStr (SupabaseUtils.uid u)).

End RowScopingVocabulary.

Section RowScopingWitnessVocabulary.
Import Js Eff.

Definition quiet_backend : SupabaseUtils.World :=
  {| SupabaseUtils.respond :=
       fun _ => Returned {| SupabaseUtils.data := SupabaseUtils.JNull;
                            SupabaseUtils.error := None |};
     SupabaseUtils.issued := [];
     SupabaseUtils.loading := false;
     SupabaseUtils.hook_error := None |}.

Definition category_of (i : string) (parent : option string) (owner : string)
    : Categories.Category :=
  {| Categories.id := i; Categories.name := i;
     Categories.parent_id := parent; Categories.user_id := owner;
     Categories.created_at := "2024-06-28T09:00:00Z";
     Categories.updated_at := "2024-06-28T09:00:00Z" |}.

Definition world_of (cs : list Categories.Category)
    (ps : list Backend.Product) (user : string) : EditCategory.World :=
  {| EditCategory.db := {| Backend.categories := cs; Backend.products := ps |};
     EditCategory.auth_getUser :=
       Returned (Some {| EditCategory.uid := user |}, None);
     EditCategory.failures := [];
     EditCategory.issued := [];
     EditCategory.ui := EditCategory.initial_ui |}.

Definition foreign_world : EditCategory.World :=
  world_of [category_of "c1" None "u2"] [] "u1".

End RowScopingWitnessVocabulary.

Section DeleteCategoryVocabulary.
Import Js Eff EditCategory.

(** The products filed under category [k], and its subcategories. *)
Definition products_of (d : Database) (k : string) : list Product :=
  filter (fun p => match category_id p with
                   | Some c => (c =? k)%string
                   | None => false
                   end) (products d).

Definition subcategories_of (d : Database) (k : string) : list Category :=
  filter (fun c => match parent_id c with
                   | Some p => (p =? k)%string
                   | None => false
                   end) (categories d).

(** What a handler adds to the queries sent and to the navigations. *)
Definition sent (m : M World unit) (w : World) : list Query :=
  skipn (List.length (issued w)) (issued (snd (m w))).

Definition navigated (m : M World unit) (w : World) : list Navigation :=
  skipn (List.length (navigations (ui w))) (navigations (ui (snd (m w)))).

Definition count_products (k : string) : Query :=
  {| table := "products"; verb := Count; filters := [Eq "category_id" k];
     single := false |}.

Definition count_subcategories (k : string) : Query :=
  {| table := "categories"; verb := Count; filters := [Eq "parent_id" k];
     single := false |}.

Definition delete_category (k : string) : Query :=
  {| table := "categories"; verb := Delete; filters := [Eq "id" k];
     single := false |}.

Definition to_categories : Navigation :=
  {| nav_to := "/categories"; nav_replace := false |}.

Definition without (k : string) (d : Database) : Database :=
  {| categories := filter (fun c => negb (id c =? k)%string) (categories d);
     products := products d |}.

Record Observed := {
  o_sent : list Query;
  o_db : Database;
  o_error : string;
  o_navigated : list Navigation
}.

Definition observe (m : M World unit) (w : World) : Observed :=
  {| o_sent := sent m w; o_db := db (snd (m w));
     o_error := error_text (ui (snd (m w)));
     o_navigated := navigated m w |}.

Definition failure_of (e : JsError) : string :=
  error_message e "Error deleting category".

Definition expected_delete (k : string) (w : World) : Observed :=
  let f i := nth i (failures w) None in
  let stopped qs msg :=
    {| o_sent := qs; o_db := db w; o_error := msg; o_navigated := [] |} in
  match f 0%nat with
  | Some e => stopped [count_products k] (failure_of e)
  | None =>
      if (0 <? List.length (products_of (db w) k))%nat then
        stopped [count_products k]
                "Cannot delete category with associated products"
      else
        match f 1%nat with
        | Some e =>
            stopped [count_products k; count_subcategories k] (failure_of e)
        | None =>
            if (0 <? List.length (subcategories_of (db w) k))%nat then
              stopped [count_products k; count_subcategories k]
                      "Cannot delete category with subcategories"
            else
              match f 2%nat with
              | Some e =>
                  stopped [count_products k; count_subcategories k;
                           delete_category k] (failure_of e)
              | None =>
                  {| o_sent := [count_products k; count_subcategories k;
                                delete_category k];
                     o_db := without k (db w);
                     o_error := error_text (ui w);
                     o_navigated := [to_categories] |}
              end
        end
  end.

Definition shop : World :=
  world_of [category_of "a" None "u1"; category_of "b" (Some "a") "u1"]
           [{| product_id := "p1"; product_name := "lamp";
               category_id := Some "b"; product_user_id := "u1" |}] "u1".

End DeleteCategoryVocabulary.

Section SlugPropertiesVocabulary.
Import SupabaseUtils.
Local Open Scope N_scope.
Local Open Scope list_scope.

(** Lowercase letters and digits: what a slug is made of besides hyphens. *)
Definition is_core (c : N) : bool := is_lower c || is_digit c.

Definition core_or_hyphen (c : N) : Prop := is_core c = true \/ c = hyphen.

(** The shape of a slug: lowercase letters, digits and hyphens, no two
    hyphens in a row, no hyphen at either end. *)
Definition slug_form (s : JsString) : Prop :=
  Forall core_or_hyphen s
  /\ single_hyphens s = true
  /\ starts_with_hyphen s = false
  /\ ends_with_hyphen s = false.

End SlugPropertiesVocabulary.

Section SlugWitnessVocabulary.
Import SupabaseUtils.
Local Open Scope N_scope.

(** The code units of an ASCII string literal. *)
Definition code_units (s : string) : JsString :=
  map N_of_ascii (list_ascii_of_string s).

End SlugWitnessVocabulary.

Section GpsrColumnsVocabulary.
Import Migrations.
Local Open Scope list_scope.

(** The table has the migration's columns, the status column with its
    constraints among them. *)
Definition migrated (t : Table) : Prop :=
  well_formed t
  /\ In gpsr_moderation_status (columns t)
  /\ forall c, In c add_gpsr_fields_to_products ->
               has_column (col_name c) (columns t) = true.

End GpsrColumnsVocabulary.

Section GpsrWitnessVocabulary.
Import Migrations.

Definition one_product : Table :=
  {| columns := columns products_created;
     rows := [[("id", Uuid "p1"); ("name", Text "lamp"); ("description", Null);
               ("category_id", Null); ("created_at", Timestamp 0);
               ("updated_at", Timestamp 0)]] |}.

Definition some_history : list Statement :=
  [ INSERT [("id", Uuid "p2"); ("name", Text "kettle");
            ("created_at", Timestamp 1); ("updated_at", Timestamp 1);
            ("gpsr_moderation_status", Text "approved")];
    INSERT [("id", Uuid "p3"); ("name", Text "toaster");
            ("created_at", Timestamp 2); ("updated_at", Timestamp 2);
            ("gpsr_moderation_status", Text "unknown")];
    UPDATE (fun _ => true) [("gpsr_moderation_status", Null)];
    UPDATE (fun _ => true) [("gpsr_moderation_status", Text "rejected")] ].

End GpsrWitnessVocabulary.

Section SchedulingVocabulary.
Import Js Eff AuthContext Utils.
Local Open Scope Z_scope.
Local Open Scope list_scope.

(** A function of the runtime that sets no timer. *)
Definition schedules_nothing {A} (f : Runtime A -> Runtime A) : Prop :=
  forall rt, timers (f rt) = timers rt.

(** The timer a call sets. *)
Definition new_timer {A} (cb : Callback A) (delay : Z) (rt : Runtime A)
    : Timer A :=
  {| handle := next_handle rt; due := clock rt + Z.max 0 delay;
     callback := cb |}.

(** The pending timers [debounce] keeps: all but the one its [timeout]
    variable names. *)
Definition kept_by_debounce {A} (rt : Runtime A) : list (Timer A) :=
  match timeout rt with
  | Some h =>
      if negb (h =? 0)%nat
      then filter (fun t => negb (handle t =? h)%nat) (timers rt)
      else timers rt
  | None => timers rt
  end.

End SchedulingVocabulary.

Section CategoryTreeVocabulary.
Import Js Categories.
Local Open Scope list_scope.

(** A root in the words of the claim: its [parent_id] is null or matches no
    input id. *)
Definition is_root_as_stated (categories : list Category) (c : Category)
    : bool :=
  match parent_id c with
  | None => true
  | Some p => negb (has_id categories p)
  end.

(** The entry the first pass stores for a category. *)
Definition entry (c : Category) : string * Node :=
  (id c, {| cat := c; children := [] |}).

(** The heap once the second pass has gone through [done]: every object
    has collected, in order, the categories of [done] attached to it. *)
Definition heap_after (categories done : list Category) : JsMap :=
  map (fun c => (id c,
                 {| cat := c;
                    children := map id (filter (is_child_of categories (id c))
                                               done) |}))
      categories.

Definition roots (categories : list Category) : list Category :=
  filter (is_root categories) categories.

Definition children_of (categories : list Category) (k : string)
    : list Category :=
  filter (is_child_of categories k) categories.

(** [x] is the category with id [k] or one of its descendants. *)
Definition below (categories : list Category) (k : string) (x : Category)
    : Prop :=
  In x categories /\ exists j, up categories j (id x) = Some k.

Definition catalog : list Category :=
  [ category_of "lamps" (Some "home") "u1";
    category_of "home" None "u1";
    category_of "desk-lamps" (Some "lamps") "u1";
    category_of "stray" (Some "gone") "u1" ].

End CategoryTreeVocabulary.

Section EditParentVocabulary.
Import Js Eff EditCategory.
Local Open Scope list_scope.

(** The user's categories other than the one with id [k]: what the second
    query of [fetchData] asks for. *)
Definition others_of (u k : string) (cs : list Category) : list Category :=
  filter (fun x => (user_id x =? u)%string && negb (id x =? k)%string) cs.

Definition select_category (k : string) : Query :=
  {| table := "categories"; verb := Select; filters := [Eq "id" k];
     single := true |}.

Definition select_others (u k : string) : Query :=
  {| table := "categories"; verb := Select;
     filters := [Eq "user_id" u; Neq "id" k]; single := false |}.

Definition update_category (k : string) (u : Updates) : Query :=
  {| table := "categories"; verb := Update u; filters := [Eq "id" k];
     single := false |}.

Definition chain_world : World :=
  world_of [category_of "a" None "u1"; category_of "b" (Some "a") "u1";
            category_of "c" (Some "b") "u1"] [] "u1".

End EditParentVocabulary.

Section ValidationVocabulary.
Import UtilsHelpers.
Local Open Scope list_scope.

(** The language of a pattern. *)
Inductive Lang : Regex -> JsString -> Prop :=
| LEmpty : Lang Empty []
| LClass p c : p c = true -> Lang (Class p) [c]
| LSeq r1 r2 s1 s2 : Lang r1 s1 -> Lang r2 s2 -> Lang (Seq r1 r2) (s1 ++ s2)
| LAltL r1 r2 s : Lang r1 s -> Lang (Alt r1 r2) s
| LAltR r1 r2 s : Lang r2 s -> Lang (Alt r1 r2) s
| LStarNil r : Lang (Star r) []
| LStarCons r s1 s2 : Lang r s1 -> Lang (Star r) s2 -> Lang (Star r) (s1 ++ s2).

(** Rows with repeated keys. *)
Definition sample_rows : list (string * nat) :=
  [("a", 1); ("b", 2); ("a", 3); ("b", 4); ("c", 5)]%nat.

(** The own properties of [obj], none for a null [obj]. *)
Definition own_props {V} (obj : option (@Props V)) : @Props V :=
  match obj with Some o => o | None => [] end.

End ValidationVocabulary.

Section TimerRunsVocabulary.
Import Utils.
Local Open Scope Z_scope.
Local Open Scope list_scope.

(** What happens to a debounced or throttled function between two
    firings of the host's timers: it is called, or time passes. *)
Inductive Moment (A : Type) : Type :=
| Call (args : A)
| Pause (ms : Z).
Arguments Call {A} args.
Arguments Pause {A} ms.

Definition debounce_moment {A} (wait : Z) (rt : Runtime A) (m : Moment A)
    : Runtime A :=
  match m with
  | Call args => debounced wait args rt
  | Pause ms => elapse ms rt
  end.

Definition throttle_moment {A} (limit : Z) (rt : Runtime A) (m : Moment A)
    : Runtime A :=
  match m with
  | Call args => throttled limit args rt
  | Pause ms => elapse ms rt
  end.

(** The time that passes during a run. *)
Definition duration {A} (run : list (Moment A)) : Z :=
  fold_left (fun t m => match m with
                        | Pause ms => t + Z.max 0 ms
                        | Call _ => t
                        end) run 0.

Definition pauses {A} (gaps : list Z) : list (Moment A) :=
  map (fun ms => Pause ms) gaps.

(** The state of a debounced function that has the host's timers to
    itself: nothing pending, or the one timer its [timeout] names. *)
Definition debounce_owns_timers {A} (rt : Runtime A) : Prop :=
  (1 <= next_handle rt)%nat
  /\ ((timers rt = [] /\ timeout rt = None)
      \/ exists t, timers rt = [t] /\ timeout rt = Some (handle t)
                   /\ (1 <= handle t)%nat).

End TimerRunsVocabulary.

Arguments Call {A} args.
Arguments Pause {A} ms.

Section SessionChecksVocabulary.
Import Js Eff AuthContext.

(** The session a call of [getSession()] ends up with, read off the
    SDK's answers: the looked-up session, or the refreshed one when the
    looked-up session is about to expire; none when a call fails. *)
Definition session_in_force (thr now : Z) (w : Sdk) : option Session :=
  match auth_getSession w with
  | Returned r =>
      match error r with
      | Some _ => None
      | None =>
          if about_to_expire thr now (data_session r) then refreshed w
          else data_session r
      end
  | Thrown _ => None
  end.

End SessionChecksVocabulary.

Section AuthMethodsVocabulary.
Import Js Eff AuthContext AuthMethods.
Local Open Scope list_scope.

(** A method resolves, makes the one SDK call [c], and hands on the
    error of that call: the one the SDK reported, or the one it rejected
    with. *)
Definition hands_on_error {R} (err : R -> option JsError) (m : M World R)
    (c : AuthCall) (w : World) : Prop :=
  made (snd (m w)) = made w ++ [c]
  /\ exists r, fst (m w) = Returned r
               /\ err r = match respond w c with
                          | Returned a => error a
                          | Thrown e => Some e
                          end.

(** When the SDK call [c] rejects, the method resolves to the error with
    user and session null. *)
Definition rejection_caught (m : M World Response) (c : AuthCall) (w : World)
    : Prop :=
  forall e, respond w c = Thrown e -> fst (m w) = Returned (caught e).

End AuthMethodsVocabulary.

Section CategoriesPageVocabulary.
Import Js Eff CategoriesPage.
Local Open Scope list_scope.

(** The categories of user [u]. *)
Definition owned_by (u : string) (cs : list Category) : list Category :=
  filter (fun c => (user_id c =? u)%string) cs.

Definition select_owned (u : string) : Query :=
  {| table := "categories"; verb := Select; filters := [Eq "user_id" u];
     single := false |}.

Definition delete_by_id (k : string) : Query :=
  {| table := "categories"; verb := Delete; filters := [Eq "id" k];
     single := false |}.

(** What [ON DELETE SET NULL] leaves of a reference when category [k]
    goes. *)
Definition detach (k : string) (ref : option string) : option string :=
  match ref with
  | Some p => if (p =? k)%string then None else Some p
  | None => None
  end.

Definition detach_category (k : string) (c : Category) : Category :=
  {| id := id c; name := name c; parent_id := detach k (parent_id c);
     user_id := user_id c; created_at := created_at c;
     updated_at := updated_at c |}.

Definition detach_product (k : string) (p : Product) : Product :=
  {| product_id := product_id p; product_name := product_name p;
     category_id := detach k (category_id p);
     product_user_id := product_user_id p |}.

(** The database once category [k] is deleted. *)
Definition deleted (k : string) (d : Database) : Database :=
  {| categories := map (detach_category k)
                       (filter (fun c => negb (id c =? k)%string)
                               (categories d));
     products := map (detach_product k) (products d) |}.

(** Every [parent_id] names a category of the table: the foreign key. *)
Definition references_hold (cs : list Category) : Prop :=
  forall c p, In c cs -> parent_id c = Some p -> In p (map id cs).

(** The requests a handler sends. *)
Definition requested (m : M World unit) (w : World) : list Request :=
  skipn (List.length (issued w)) (issued (snd (m w))).

(** The row [handleAddCategory] builds from the form for [user]. *)
Definition form_row (w : World) (user : User) : NewRow :=
  {| row_name := new_name (newCategory (ui w));
     row_parent_id :=
       if truthy_str (new_parent_id (newCategory (ui w)))
       then Some (new_parent_id (newCategory (ui w)))
       else None;
     row_user_id := uid user |}.

Definition page_of (cs : list Category) (ps : list Product) (user : string)
    (gen : string * string) : World :=
  {| db := {| categories := cs; products := ps |};
     auth_getUser := Returned (Some {| uid := user |}, None);
     failures := []; generated := gen; issued := [];
     ui := initial_ui |}.

(** A page on which the form asks for a category under ["home"]. *)
Definition adding_page : World :=
  {| db := {| categories := [category_of "home" None "u1";
                             category_of "lamps" (Some "home") "u1"];
              products := [] |};
     auth_getUser := Returned (Some {| uid := "u1" |}, None);
     failures := []; generated := ("desks", "2024-07-01T10:00:00Z");
     issued := [];
     ui := {| ui_categories := ([], []);
              newCategory := {| new_name := "Desks";
                                new_parent_id := "home" |};
              loading := false; error_text := "";
              expandedCategories := [] |} |}.

(** Induction on category trees. *)
Fixpoint Tree_nested_ind (P : Tree -> Prop)
    (step : forall c sub, Forall P sub -> P (TNode c sub)) (t : Tree) : P t :=
  match t with
  | TNode c sub =>
      step c sub
           ((fix all (l : list Tree) : Forall P l :=
               match l with
               | [] => Forall_nil P
               | x :: l' => Forall_cons x (Tree_nested_ind P step x) (all l')
               end) sub)
  end.

End CategoriesPageVocabulary.

Section EditPageVocabulary.
Import Js Eff EditCategory.
Local Open Scope list_scope.

(** [getUser] resolved with a user and no error. *)
Definition signed_in (w : World) : bool :=
  match auth_getUser w with
  | Returned (Some _, None) => true
  | _ => false
  end.

Definition login_redirect : Navigation :=
  {| nav_to := "/login"; nav_replace := true |}.

(** The payload [handleSubmit] builds from the form. *)
Definition form_updates (w : World) (now : string) : Updates :=
  {| upd_name := form_name (formData (ui w));
     upd_parent_id :=
       if truthy_str (form_parent_id (formData (ui w)))
       then Some (form_parent_id (formData (ui w)))
       else None;
     upd_updated_at := now |}.

(** A page on which nobody is signed in. *)
Definition signed_out_world : World :=
  {| db := {| categories := [category_of "a" None "u1"]; products := [] |};
     auth_getUser := Returned (None, None);
     failures := []; issued := []; ui := initial_ui |}.

End EditPageVocabulary.

Section ProductPagesVocabulary.
Import Js Eff ProductPages.
Local Open Scope Z_scope.

(** The range of rows [fetchPaginated] asks for. *)
Definition asked (u : User) (page pageSize : Z) (w : World) : list (Z * Z) :=
  map pq_range
      (skipn (List.length (issued w))
             (issued (snd (fetchPaginated (Some u) page pageSize w)))).

(** A backend holding [n] products of the user, that answers. *)
Definition backend_with (n : nat) : World :=
  {| respond := fun _ => Returned {| rows := SupabaseUtils.JArr [];
                                     count := Some n; error := None |};
     issued := [] |}.

End ProductPagesVocabulary.

Section ProductImagesVocabulary.
Import Js Eff ProductImages.
Local Open Scope list_scope.

(** The backend stores an inserted image as sent: the row it hands back
    has the [position] and [is_primary] of the row inserted. *)
Definition stores_as_sent (w : World) : Prop :=
  forall q row d,
    verb q = Insert row ->
    respond w q = Returned {| data := d; error := None |} ->
    SupabaseUtils.obj_get "position" (row_of d)
    = SupabaseUtils.obj_get "position" row
    /\ SupabaseUtils.obj_get "is_primary" (row_of d)
       = SupabaseUtils.obj_get "is_primary" row.

(** The images are numbered from 0 in the order held, and only the first
    is primary. *)
Definition numbered (imgs : list Obj) : Prop :=
  forall i img,
    nth_error imgs i = Some img ->
    SupabaseUtils.obj_get "position" img
    = Some (SupabaseUtils.JNum (Z.of_nat i))
    /\ SupabaseUtils.obj_get "is_primary" img
       = Some (SupabaseUtils.JBool (i =? 0)%nat).

(** A run of [addImage] calls for one product. *)
Definition add_all (productId : option string)
    (calls : list (string * option string)) (w : World) : World :=
  fold_left (fun w c => snd (addImage productId (fst c) (snd c) w)) calls w.

Definition delete_image (imageId : string) : Query :=
  {| table := "product_images"; verb := Delete;
     filters := [("id", imageId)]; order := None;
     returning := false; single := false |}.

Definition update_image (imageId : string) (updates : Obj) : Query :=
  {| table := "product_images"; verb := Update updates;
     filters := [("id", imageId)]; order := None;
     returning := false; single := false |}.

(** A backend that hands back the inserted row with an id. *)
Definition echoing : World :=
  {| respond := fun q =>
       match verb q with
       | Insert row =>
           Returned {| data := SupabaseUtils.JObj
                                 (("id", SupabaseUtils.JStr "img") :: row);
                       error := None |}
       | _ => Returned {| data := SupabaseUtils.JNull; error := None |}
       end;
     issued := []; images := []; loading := false; hook_error := None |}.

End ProductImagesVocabulary.

Section TableOutcomesVocabulary.
Import Js Eff SupabaseUtils.

(** How an operation of the hook ends, given the query [q] it sends: it
    resolves, with [loading] switched off; when the backend answers [q]
    without error the result is [ok] of the answer and the hook's error is
    null; when the backend reports an error or the request rejects, the
    result is [fallback] and the hook's error is that error. *)
Definition settles {A} (m : M World A) (q : Query) (ok : Response -> A)
    (fallback : A) (w : World) : Prop :=
  loading (snd (m w)) = false
  /\ match respond w q with
     | Returned r =>
         match error r with
         | None =>
             fst (m w) = Returned (ok r) /\ hook_error (snd (m w)) = None
         | Some e =>
             fst (m w) = Returned fallback
             /\ hook_error (snd (m w)) = Some e
         end
     | Thrown e =>
         fst (m w) = Returned fallback /\ hook_error (snd (m w)) = Some e
     end.

End TableOutcomesVocabulary.

(** * Properties *)

(** ** The session wrapper of AuthContext.tsx *)

Section AuthContextProperties.
Import Js Eff AuthContext.
Local Open Scope Z_scope.

Lemma skipn_length_app {A} (l r : list A) : skipn (List.length l) (l ++ r) = r.
Proof.
  induction l as [|a l IH]; simpl; auto.
Qed.

Lemma about_to_expire_iff thr now session :
  about_to_expire thr now session = true <-> expiring thr now session.
Proof.
  unfold about_to_expire, expiring, truthy_num. split.
  - destruct session as [s|]; [|discriminate].
    destruct (expires_at s) as [e|] eqn:He; [|discriminate].
    intros H. apply andb_true_iff in H. destruct H as [H1 H2].
    exists s, e. repeat split; auto.
    + intros ->. discriminate.
    + now apply Z.ltb_lt.
  - intros (s & e & -> & He & Hz & Hlt). rewrite He.
    apply andb_true_iff. split.
    + apply negb_true_iff. now apply Z.eqb_neq.
    + now apply Z.ltb_lt.
Qed.

Lemma getSession_forced thr now w :
  getSession thr now true w
  = (Returned (refreshed w), record_call CallRefreshSession w).
Proof.
  unfold getSession, try_catch, bind, await_refreshSession, unwrap, refreshed,
    throw, ret.
  destruct (auth_refreshSession w) as [r|e]; [|reflexivity].
  destruct (error r); reflexivity.
Qed.

Lemma getSession_failed_lookup thr now w :
  raised (auth_getSession w) = true ->
  getSession thr now false w = (Returned None, record_call CallGetSession w).
Proof.
  unfold getSession, try_catch, bind, await_getSession, unwrap, raised,
    throw, ret.
  destruct (auth_getSession w) as [r|e]; [|reflexivity].
  destruct (error r); [reflexivity | discriminate].
Qed.

Lemma getSession_unforced thr now w session :
  auth_getSession w = Returned {| data_session := session; error := None |} ->
  getSession thr now false w
  = if about_to_expire thr now session
    then (Returned (refreshed w),
          record_call CallRefreshSession (record_call CallGetSession w))
    else (Returned session, record_call CallGetSession w).
Proof.
  intros Hget.
  unfold getSession, try_catch, bind, await_getSession, unwrap. rewrite Hget.
  simpl. destruct (about_to_expire thr now session); [|reflexivity].
  unfold await_refreshSession, refreshed, throw, ret. simpl.
  destruct (auth_refreshSession w) as [r|e]; [|reflexivity].
  destruct (error r); reflexivity.
Qed.

Lemma getSession_returns thr now force w :
  exists r, fst (getSession thr now force w) = Returned r.
Proof.
  destruct force.
  - rewrite getSession_forced. eexists; reflexivity.
  - destruct (raised (auth_getSession w)) eqn:Hr.
    + rewrite (getSession_failed_lookup _ _ _ Hr). eexists; reflexivity.
    + unfold raised in Hr.
      destruct (auth_getSession w) as [[s err]|e] eqn:Hg; [|discriminate].
      simpl in Hr. destruct err; [discriminate|].
      rewrite (getSession_unforced _ _ _ _ Hg).
      destruct (about_to_expire thr now s); eexists; reflexivity.
Qed.

(** C1, as amended. [getSession] never throws. With [forceRefresh = true]
    it makes one SDK call, a refresh, and returns what the refresh hands
    back. With [forceRefresh = false], once the session lookup has succeeded:
    if the session has an [expires_at] that is non-zero and
    [expires_at * 1000 < now + refreshTokenThreshold * 1000], it refreshes
    through the SDK and returns the refreshed session; otherwise it makes no
    further call and returns the session it obtained. Whenever an SDK call
    it made raised an error, it returns [null]. *)
Theorem getSession_refresh_policy (thr now : Z) (w : Sdk) :
  (forall force, exists r, fst (getSession thr now force w) = Returned r)
  /\ (fst (getSession thr now true w) = Returned (refreshed w)
      /\ made thr now true w = [CallRefreshSession])
  /\ (forall session,
        auth_getSession w
        = Returned {| data_session := session; error := None |} ->
        (expiring thr now session ->
         fst (getSession thr now false w) = Returned (refreshed w)
         /\ made thr now false w = [CallGetSession; CallRefreshSession])
        /\ (~ expiring thr now session ->
            fst (getSession thr now false w) = Returned session
            /\ made thr now false w = [CallGetSession]))
  /\ (forall force c,
        In c (made thr now force w) -> raised (answer w c) = true ->
        fst (getSession thr now force w) = Returned None).
Proof.
  split; [|split; [|split]].
  - intros force. apply getSession_returns.
  - unfold made. rewrite getSession_forced. simpl.
    split; [reflexivity | apply skipn_length_app].
  - intros session Hg. unfold made. rewrite (getSession_unforced _ _ _ _ Hg).
    split; intros He.
    + apply about_to_expire_iff in He. rewrite He. simpl.
      split; [reflexivity|]. rewrite <- app_assoc. apply skipn_length_app.
    + destruct (about_to_expire thr now session) eqn:Hb.
      * exfalso. apply He. now apply about_to_expire_iff.
      * simpl. split; [reflexivity | apply skipn_length_app].
  - intros force c. unfold made. destruct force.
    + rewrite getSession_forced. simpl. rewrite skipn_length_app.
      intros [<-|[]]. simpl. unfold refreshed, raised.
      destruct (auth_refreshSession w) as [r|e]; [|reflexivity].
      destruct (error r); [reflexivity | discriminate].
    + destruct (raised (auth_getSession w)) eqn:Hr.
      * rewrite (getSession_failed_lookup _ _ _ Hr). reflexivity.
      * unfold raised in Hr.
        destruct (auth_getSession w) as [[s err]|e] eqn:Hg; [|discriminate].
        simpl in Hr. destruct err; [discriminate|].
        rewrite (getSession_unforced _ _ _ _ Hg).
        destruct (about_to_expire thr now s); simpl.
        -- rewrite <- app_assoc, skipn_length_app.
           intros [<-|[<-|[]]]; simpl.
           ++ rewrite Hg. discriminate.
           ++ unfold refreshed, raised.
              destruct (auth_refreshSession w) as [r|e]; [|reflexivity].
              destruct (error r); [reflexivity | discriminate].
        -- rewrite skipn_length_app. intros [<-|[]]. simpl. rewrite Hg.
           discriminate.
Qed.

(** C1 as stated fails: the session's [expires_at] times 1000 is less than
    the current time plus the threshold times 1000, and yet [getSession]
    makes no refresh and returns the session it obtained, because an
    [expires_at] of 0 is falsy. *)
Lemma getSession_zero_expires_at_not_refreshed :
  expiring_as_stated 300 1700000000000 epoch_session
  /\ fst (getSession 300 1700000000000 false (sdk_with epoch_session))
     = Returned (Some epoch_session)
  /\ made 300 1700000000000 false (sdk_with epoch_session) = [CallGetSession]
  /\ Some epoch_session <> refreshed (sdk_with epoch_session).
Proof.
  split; [|split; [|split]].
  - exists 0. split; [reflexivity | reflexivity].
  - reflexivity.
  - reflexivity.
  - discriminate.
Qed.

Lemma getSession_refresh_policy_witness :
  fst (getSession 300 1700000000000 false (sdk_with stale_session))
  = Returned (Some fresh_session)
  /\ made 300 1700000000000 false (sdk_with stale_session)
     = [CallGetSession; CallRefreshSession].
Proof.
  destruct (getSession_refresh_policy 300 1700000000000 (sdk_with stale_session))
    as (_ & _ & H & _).
  destruct (H (Some stale_session) eq_refl) as [Hyes _].
  apply Hyes. exists stale_session, 1700000100.
  split; [reflexivity|]. split; [reflexivity|].
  split; [discriminate | reflexivity].
Defined.

(** C8. Whatever [getSessionRef.current] holds, the initial stub or
    [getSession], the result of [refreshSession] has [error = null]; and
    when the SDK's token refresh raised an error the result is
    [{ error: null, user: null, session: null }], with no [data]. *)
Theorem refreshSession_never_reports_error (thr now : Z) (w : Sdk)
    (current : GetSessionFunction) :
  current = getSessionRef_initial \/ current = getSession thr now ->
  exists r,
    fst (refreshSession (Some current) w) = Returned r
    /\ resp_error r = None
    /\ (current = getSession thr now ->
        raised (auth_refreshSession w) = true ->
        r = {| resp_error := None; resp_user := None;
               resp_session := None; resp_data := None |}).
Proof.
  intros [-> | ->].
  - eexists. split; [reflexivity|]. split; [reflexivity|].
    intros _ _. reflexivity.
  - unfold refreshSession, try_catch, bind. rewrite getSession_forced.
    eexists. split; [reflexivity|]. split; [reflexivity|].
    intros _ Hr. unfold refreshed, raised in *.
    destruct (auth_refreshSession w) as [r|e]; [|reflexivity].
    destruct (error r); [reflexivity | discriminate].
Qed.

Lemma refreshSession_never_reports_error_witness :
  exists r,
    fst (refreshSession (Some (getSession 300 0)) failing_sdk) = Returned r
    /\ resp_error r = None
    /\ (getSession 300 0 = getSession 300 0 ->
        raised (auth_refreshSession failing_sdk) = true ->
        r = {| resp_error := None; resp_user := None;
               resp_session := None; resp_data := None |}).
Proof.
  apply (refreshSession_never_reports_error 300 0 failing_sdk).
  right. reflexivity.
Defined.

End AuthContextProperties.

(** ** The redirect policy: AuthContext.tsx and ProtectedRoute.tsx *)

Section RedirectPolicy.
Import Js Eff AuthContext ProtectedRoute.

Lemma outside_public_test p loc :
  outside_public p loc ->
  negb (pathname loc =? loginPath p)%string
  && negb (startsWith (pathname loc) "/signup") = true.
Proof.
  intros [Hne Hs]. rewrite Hs.
  apply String.eqb_neq in Hne. rewrite Hne. reflexivity.
Qed.

Lemma initializeAuth_runs p now loc mounted st w :
  exists session,
    fst (getSession (refreshTokenThreshold p) now false w) = Returned session
    /\ fst (initializeAuth p now loc mounted st w)
       = Returned (initializeAuth_resume p loc mounted session st).
Proof.
  destruct (getSession_returns (refreshTokenThreshold p) now false w)
    as [session Hs].
  exists session. split; [exact Hs|].
  unfold initializeAuth, bind.
  destruct (getSession (refreshTokenThreshold p) now false w) as [o w'].
  simpl in Hs. subst o. reflexivity.
Qed.




End RedirectPolicy.

(** ** Per-user row scoping: [useTable] and the EditCategory ownership check *)

Section RowScoping.
Import Js Eff.

Lemma passes_In fs row col val :
  In (col, val) fs -> SupabaseUtils.passes fs row = true ->
  SupabaseUtils.obj_get col row = Some (SupabaseUtils.JStr val).
Proof.
  unfold SupabaseUtils.passes. intros Hin Hall.
  rewrite forallb_forall in Hall. specialize (Hall _ Hin). simpl in Hall.
  destruct (SupabaseUtils.obj_get col row) as [[| | |s| |]|]; try discriminate.
  apply String.eqb_eq in Hall. now subst.
Qed.

Lemma obj_get_set k v o :
  SupabaseUtils.obj_get k (SupabaseUtils.obj_set k v o) = Some v.
Proof.
  induction o as [|[k' v'] o IH]; simpl.
  - now rewrite String.eqb_refl.
  - destruct (k' =? k)%string eqn:E; simpl.
    + now rewrite String.eqb_refl.
    + now rewrite E.
Qed.

(** The queries issued by the guarded frame are those of its body. *)
Lemma guarded_one_query {A} (q : SupabaseUtils.Query)
    (k : SupabaseUtils.Response -> M SupabaseUtils.World A)
    (fallback : A) w :
  (forall r w', SupabaseUtils.issued (snd (k r w')) = SupabaseUtils.issued w') ->
  new_queries
    (SupabaseUtils.guarded (bind (SupabaseUtils.await_query q) k) fallback) w
  = [q].
Proof.
  intros Hk. unfold new_queries, SupabaseUtils.guarded, bind, modify,
    try_finally, try_catch, SupabaseUtils.await_query, ret. simpl.
  destruct (SupabaseUtils.respond w q) as [r|e]; simpl.
  - match goal with
    | |- context [k r ?w0] =>
        specialize (Hk r w0); destruct (k r w0) as [[a|e] w1]; simpl in *;
        rewrite Hk; apply skipn_length_app
    end.
  - apply skipn_length_app.
Qed.

Lemma data_or_throw_pure r w :
  SupabaseUtils.issued (snd (SupabaseUtils.data_or_throw r w))
  = SupabaseUtils.issued w.
Proof.
  unfold SupabaseUtils.data_or_throw. destruct (SupabaseUtils.error r);
    reflexivity.
Qed.

(** C4. Every query [fetchAll], [fetchById], [update] and [remove] issue
    for an authenticated user is one query on the hook's table that reaches
    only rows whose [user_id] is that user's id; [insert] issues one query
    whose row carries the user's id as [user_id], whatever the values
    passed; with no user each operation returns [null] ([false] for
    [remove]) and leaves the world as it was, so no query is issued. And
    [fetchData] of EditCategory, given a category whose [user_id] is not
    the current user's id, sets the permission error, loads nothing into
    the form and sends no further query. *)
Theorem useTable_row_scoping (tableName id : string)
    (values : SupabaseUtils.Obj) (w : SupabaseUtils.World) :
  (forall u,
      (exists q, new_queries (SupabaseUtils.fetchAll tableName (Some u)) w = [q]
                 /\ SupabaseUtils.table q = tableName /\ scoped u q)
      /\ (exists q, new_queries (SupabaseUtils.fetchById tableName (Some u) id) w = [q]
                    /\ SupabaseUtils.table q = tableName /\ scoped u q)
      /\ (exists q, new_queries (SupabaseUtils.update tableName (Some u) id values) w = [q]
                    /\ SupabaseUtils.table q = tableName /\ scoped u q)
      /\ (exists q, new_queries (SupabaseUtils.remove tableName (Some u) id) w = [q]
                    /\ SupabaseUtils.table q = tableName /\ scoped u q)
      /\ (exists q row,
             new_queries (SupabaseUtils.insert tableName (Some u) values) w = [q]
             /\ SupabaseUtils.table q = tableName
             /\ SupabaseUtils.inserted_row q = Some row
             /\ SupabaseUtils.obj_get "user_id" row
                = Some (SupabaseUtils.JStr (SupabaseUtils.uid u))))
  /\ (SupabaseUtils.fetchAll tableName None w = (Returned SupabaseUtils.JNull, w)
      /\ SupabaseUtils.fetchById tableName None id w = (Returned SupabaseUtils.JNull, w)
      /\ SupabaseUtils.insert tableName None values w = (Returned SupabaseUtils.JNull, w)
      /\ SupabaseUtils.update tableName None id values w = (Returned SupabaseUtils.JNull, w)
      /\ SupabaseUtils.remove tableName None id w = (Returned false, w))
  /\ (forall (ew : EditCategory.World) cid user c,
        truthy_str cid = true ->
        EditCategory.auth_getUser ew = Returned (Some user, None) ->
        hd None (EditCategory.failures ew) = None ->
        filter (Backend.selected Backend.category_col [Backend.Eq "id" cid])
               (Backend.categories (EditCategory.db ew)) = [c] ->
        Categories.user_id c <> EditCategory.uid user ->
        let ew' := snd (EditCategory.fetchData (Some cid) ew) in
        EditCategory.error_text (EditCategory.ui ew')
        = "You do not have permission to edit this category"
        /\ EditCategory.category (EditCategory.ui ew')
           = EditCategory.category (EditCategory.ui ew)
        /\ EditCategory.dropdown (EditCategory.ui ew')
           = EditCategory.dropdown (EditCategory.ui ew)
        /\ EditCategory.issued ew'
           = (EditCategory.issued ew
              ++ [{| Backend.table := "categories"; Backend.verb := Backend.Select;
                     Backend.filters := [Backend.Eq "id" cid];
                     Backend.single := true |}])%list
        /\ EditCategory.db ew' = EditCategory.db ew).
Proof.
  split; [|split].
  - intros u. repeat split.
    + eexists. split; [apply guarded_one_query; apply data_or_throw_pure|].
      split; [reflexivity|]. intros row. apply passes_In. simpl. auto.
    + eexists. split; [apply guarded_one_query; apply data_or_throw_pure|].
      split; [reflexivity|]. intros row. apply passes_In. simpl. auto.
    + eexists. split; [apply guarded_one_query; apply data_or_throw_pure|].
      split; [reflexivity|]. intros row. apply passes_In. simpl. auto.
    + eexists. split.
      * apply guarded_one_query. intros r w'.
        destruct (SupabaseUtils.error r); reflexivity.
      * split; [reflexivity|]. intros row. apply passes_In. simpl. auto.
    + eexists. eexists.
      split; [apply guarded_one_query; apply data_or_throw_pure|].
      split; [reflexivity|]. split; [reflexivity|]. apply obj_get_set.
  - repeat split.
  - intros ew cid user c Hid Hauth Hfail Hsel Hne. simpl.
    unfold EditCategory.fetchData. rewrite Hid. simpl.
    unfold try_finally, try_catch, bind, EditCategory.setLoading, modify,
      EditCategory.await_getUser. simpl. rewrite Hauth. simpl.
    unfold EditCategory.await_query. simpl.
    apply String.eqb_neq in Hne.
    destruct (EditCategory.failures ew) as [|[e|] rest]; simpl in Hfail;
      try discriminate; simpl;
      unfold Backend.execute; simpl; rewrite Hsel; simpl; rewrite Hne; simpl;
      repeat split; reflexivity.
Qed.

End RowScoping.

Section RowScopingWitness.
Import Js Eff.

Lemma useTable_row_scoping_witness :
  EditCategory.error_text
    (EditCategory.ui (snd (EditCategory.fetchData (Some "c1") foreign_world)))
  = "You do not have permission to edit this category"
  /\ EditCategory.category
       (EditCategory.ui (snd (EditCategory.fetchData (Some "c1") foreign_world)))
     = None.
Proof.
  destruct (useTable_row_scoping "categories" "c1" [] quiet_backend)
    as (_ & _ & H).
  destruct (H foreign_world "c1" {| EditCategory.uid := "u1" |}
              (category_of "c1" None "u2")
              eq_refl eq_refl eq_refl eq_refl) as (He & Hc & _).
  - discriminate.
  - split; [exact He | exact Hc].
Defined.

End RowScopingWitness.

(** ** EditCategory.tsx: deleting a category *)

Section DeleteCategory.
Import Js Eff EditCategory.

Lemma selected_category_id k p :
  selected product_col [Eq "category_id" k] p
  = match category_id p with Some c => (c =? k)%string | None => false end.
Proof.
  unfold selected, holds, product_col. simpl.
  destruct (category_id p); [apply andb_true_r | reflexivity].
Qed.

Lemma selected_parent_id k c :
  selected category_col [Eq "parent_id" k] c
  = match parent_id c with Some p => (p =? k)%string | None => false end.
Proof.
  unfold selected, holds, category_col. simpl.
  destruct (parent_id c); [apply andb_true_r | reflexivity].
Qed.

Lemma selected_id k c :
  selected category_col [Eq "id" k] c = (id c =? k)%string.
Proof.
  unfold selected, holds, category_col. simpl. apply andb_true_r.
Qed.

Lemma count_products_is d k :
  List.length (filter (selected product_col [Eq "category_id" k]) (products d))
  = List.length (products_of d k).
Proof.
  unfold products_of. f_equal. apply filter_ext. intros p.
  apply selected_category_id.
Qed.

Lemma count_subcategories_is d k :
  List.length (filter (selected category_col [Eq "parent_id" k]) (categories d))
  = List.length (subcategories_of d k).
Proof.
  unfold subcategories_of. f_equal. apply filter_ext. intros c.
  apply selected_parent_id.
Qed.

Lemma execute_count_products d k :
  execute (count_products k) d = (d, ok_count (List.length (products_of d k))).
Proof.
  unfold execute, count_products. simpl. now rewrite count_products_is.
Qed.

Lemma execute_count_subcategories d k :
  execute (count_subcategories k) d
  = (d, ok_count (List.length (subcategories_of d k))).
Proof.
  unfold execute, count_subcategories. simpl.
  now rewrite count_subcategories_is.
Qed.

Lemma positive_count n : positive (Some n) = (0 <? n)%nat.
Proof. destruct n; reflexivity. Qed.

(** Deleting a category nothing refers to removes its row and touches no
    other. *)
Lemma orphan_untouched gone ref k :
  (forall g, In g gone -> g = k) ->
  match ref with Some r => (r =? k)%string | None => false end = false ->
  orphan gone ref = ref.
Proof.
  intros Hgone Href. destruct ref as [r|]; [|reflexivity]. simpl.
  destruct (existsb (String.eqb r) gone) eqn:E; [|reflexivity].
  apply existsb_exists in E. destruct E as (g & Hg & Heq).
  apply String.eqb_eq in Heq. subst g. rewrite (Hgone _ Hg) in Href.
  now rewrite String.eqb_refl in Href.
Qed.

Lemma filter_nil_forall {A} (f : A -> bool) l :
  List.length (filter f l) = 0%nat -> forall x, In x l -> f x = false.
Proof.
  intros Hlen x Hin. destruct (f x) eqn:E; [|reflexivity].
  assert (Hx : In x (filter f l)) by (apply filter_In; auto).
  destruct (filter f l); [contradiction | discriminate].
Qed.

Lemma execute_delete_unreferenced d k :
  List.length (products_of d k) = 0%nat ->
  List.length (subcategories_of d k) = 0%nat ->
  execute (delete_category k) d
  = ({| categories := filter (fun c => negb (id c =? k)%string) (categories d);
        products := products d |}, ok_empty).
Proof.
  intros Hp Hs. unfold execute, delete_category.
  cbn [table verb filters single]. rewrite String.eqb_refl. cbv iota.
  set (gone := map id (filter (selected category_col [Eq "id" k]) (categories d))).
  assert (Hgone : forall g, In g gone -> g = k).
  { intros g Hg. apply in_map_iff in Hg. destruct Hg as (c & <- & Hc).
    apply filter_In in Hc. destruct Hc as [_ Hc]. rewrite selected_id in Hc.
    now apply String.eqb_eq in Hc. }
  f_equal. f_equal.
  - rewrite (filter_ext (fun c => negb (selected category_col [Eq "id" k] c))
                        (fun c => negb (id c =? k)%string))
      by (intros c; now rewrite selected_id).
    rewrite <- (map_id (filter _ _)) at 2. apply map_ext_in.
    intros c Hc. apply filter_In in Hc. destruct Hc as [Hc _].
    rewrite (orphan_untouched gone (parent_id c) k Hgone).
    + destruct c; reflexivity.
    + apply (filter_nil_forall _ _ Hs c Hc).
  - rewrite <- (map_id (products d)) at 2. apply map_ext_in.
    intros p Hp'.
    rewrite (orphan_untouched gone (category_id p) k Hgone).
    + destruct p; reflexivity.
    + apply (filter_nil_forall _ _ Hp p Hp').
Qed.

Lemma await_query_eq q w :
  await_query q w =
  match nth 0 (failures w) None with
  | Some e =>
      (Returned (failed e),
       {| db := db w; auth_getUser := auth_getUser w;
          failures := tl (failures w); issued := (issued w ++ [q])%list;
          ui := ui w |})
  | None =>
      (Returned (snd (execute q (db w))),
       {| db := fst (execute q (db w)); auth_getUser := auth_getUser w;
          failures := tl (failures w); issued := (issued w ++ [q])%list;
          ui := ui w |})
  end.
Proof.
  unfold await_query. destruct (failures w) as [|[e|] rest]; simpl;
    try reflexivity; destruct (execute q (db w)); reflexivity.
Qed.

Lemma nth_tl {A} (l : list A) i d : nth i (tl l) d = nth (S i) l d.
Proof. destruct l; [destruct i|]; reflexivity. Qed.

Ltac send :=
  rewrite await_query_eq;
  cbn [failures with_ui db issued auth_getUser ui];
  rewrite ?nth_tl.

Ltac settle :=
  cbn [fst snd error count failed ok_count ok_empty throw_if throw ret
       issued db ui with_ui set_loading error_text navigations failures
       auth_getUser];
  cbv beta iota.

Lemma handleDelete_observed k w :
  truthy_str k = true ->
  observe (handleDelete (Some k) true) w = expected_delete k w.
Proof.
  intros Hk. unfold observe, expected_delete, sent, navigated, handleDelete.
  rewrite Hk. cbn [negb orb].
  fold (count_products k). fold (count_subcategories k). fold (delete_category k).
  unfold try_catch, bind, setLoading, setError, navigate, modify.
  send.
  destruct (nth 0 (failures w) None) as [e0|]; settle.
  { now rewrite skipn_length_app, skipn_all. }
  rewrite execute_count_products. settle. rewrite positive_count.
  destruct (List.length (products_of (db w) k)) as [|np] eqn:Hnp;
    cbn [Nat.ltb Nat.leb]; settle.
  2: { now rewrite skipn_length_app, skipn_all. }
  send.
  destruct (nth 1 (failures w) None) as [e1|]; settle.
  { now rewrite <- app_assoc, skipn_length_app, skipn_all. }
  rewrite execute_count_subcategories. settle. rewrite positive_count.
  destruct (List.length (subcategories_of (db w) k)) as [|ns] eqn:Hns;
    cbn [Nat.ltb Nat.leb]; settle.
  2: { now rewrite <- app_assoc, skipn_length_app, skipn_all. }
  send.
  destruct (nth 2 (failures w) None) as [e2|]; settle.
  { now rewrite <- !app_assoc, skipn_length_app, skipn_all. }
  rewrite (execute_delete_unreferenced _ _ Hnp Hns). settle.
  now rewrite <- !app_assoc, !skipn_length_app.
Qed.

Lemma handleDelete_declined k confirmed w :
  truthy_str k = false \/ confirmed = false ->
  handleDelete (Some k) confirmed w = (Returned tt, w).
Proof.
  unfold handleDelete. intros [-> | ->]; [reflexivity|].
  now rewrite orb_true_r.
Qed.

Ltac destruct_nth := simpl in *; discriminate.

(** C9. [handleDelete] on the category with id [k]. When products are filed
    under it or it has subcategories, no delete is issued, the database is
    left as it was and the user is not navigated away; once the user has
    confirmed, an error message is raised: the one for products, the one
    for subcategories, or that of a backend failure met on the way. A delete
    is issued only when both counts are zero, and the user is navigated to
    the category list only after the delete was issued and carried out. When
    both counts are zero, the user confirms and the backend does not fail,
    the delete is issued, the category is gone and the user is navigated to
    [/categories]. *)
Theorem handleDelete_guard (k : string) (confirmed : bool) (w : World) :
  let m := handleDelete (Some k) confirmed in
  let np := List.length (products_of (db w) k) in
  let ns := List.length (subcategories_of (db w) k) in
  (0 < np \/ 0 < ns ->
     (forall q, In q (sent m w) -> is_delete q = false)
     /\ db (snd (m w)) = db w
     /\ navigated m w = []
     /\ (truthy_str k = true -> confirmed = true ->
         (error_text (ui (snd (m w)))
          = "Cannot delete category with associated products"
          \/ error_text (ui (snd (m w)))
             = "Cannot delete category with subcategories"
          \/ exists i e, nth i (failures w) None = Some e
                         /\ error_text (ui (snd (m w))) = failure_of e)
         /\ (failures w = [] -> 0 < np ->
             error_text (ui (snd (m w)))
             = "Cannot delete category with associated products")
         /\ (failures w = [] -> np = 0 ->
             error_text (ui (snd (m w)))
             = "Cannot delete category with subcategories")))
  /\ ((exists q, In q (sent m w) /\ is_delete q = true) ->
      np = 0 /\ ns = 0 /\ confirmed = true)
  /\ (In to_categories (navigated m w) ->
      In (delete_category k) (sent m w)
      /\ db (snd (m w)) = without k (db w))
  /\ (np = 0 -> ns = 0 -> truthy_str k = true -> confirmed = true ->
      (forall i, nth i (failures w) None = None) ->
      sent m w = [count_products k; count_subcategories k; delete_category k]
      /\ db (snd (m w)) = without k (db w)
      /\ navigated m w = [to_categories]).
Proof.
  intros m np ns.
  destruct (truthy_str k && confirmed) eqn:Hgo.
  2: { assert (Hm : m w = (Returned tt, w)).
       { apply handleDelete_declined. apply andb_false_iff in Hgo.
         destruct Hgo; auto. }
       unfold sent, navigated. rewrite Hm. cbn [snd]. rewrite !skipn_all.
       split; [|split; [|split]].
       - intros _. split; [intros q []|]. split; [reflexivity|].
         split; [reflexivity|]. intros Hk Hc. rewrite Hk, Hc in Hgo.
         discriminate.
       - intros (q & [] & _).
       - intros [].
       - intros _ _ Hk Hc. rewrite Hk, Hc in Hgo. discriminate. }
  apply andb_true_iff in Hgo. destruct Hgo as [Hk ->].
  pose proof (handleDelete_observed k w Hk) as Hobs.
  fold m in Hobs.
  assert (Hs := f_equal o_sent Hobs). assert (Hd := f_equal o_db Hobs).
  assert (He := f_equal o_error Hobs). assert (Hn := f_equal o_navigated Hobs).
  clear Hobs. unfold observe in *. cbn [o_sent o_db o_error o_navigated] in *.
  rewrite Hs, Hd, He, Hn. clear Hs Hd He Hn. unfold expected_delete.
  fold np. fold ns.
  destruct (nth 0 (failures w) None) as [e0|] eqn:F0;
    [|destruct (Nat.ltb_spec 0 np) as [Pnp|Pnp];
      [|destruct (nth 1 (failures w) None) as [e1|] eqn:F1;
        [|destruct (Nat.ltb_spec 0 ns) as [Pns|Pns];
          [|destruct (nth 2 (failures w) None) as [e2|] eqn:F2]]]];
    cbn [o_sent o_db o_error o_navigated].
  all: repeat match goal with |- _ /\ _ => split | |- _ -> _ => intro end.
  all: try reflexivity; try lia; try contradiction; try discriminate.
  all: try (simpl in *; intuition (try discriminate; try lia; subst; auto; fail)).
  all: try (exfalso;
            match goal with
            | H : failures _ = [] |- _ => rewrite H in *; destruct_nth
            | H : forall i, nth i _ None = None |- _ =>
                rewrite H in *; discriminate
            | H : exists q, _ |- _ =>
                destruct H as (q & Hq & Hdel); simpl in Hq;
                intuition (subst; discriminate)
            end; fail).
  all: try (right; right;
            match goal with
            | F : nth ?i _ None = Some ?e |- _ => exists i, e; auto
            end; fail).
Qed.

Lemma handleDelete_guard_witness :
  error_text (ui (snd (handleDelete (Some "a") true shop)))
  = "Cannot delete category with subcategories"
  /\ db (snd (handleDelete (Some "a") true shop)) = db shop
  /\ forall q, In q (sent (handleDelete (Some "a") true) shop) ->
               is_delete q = false.
Proof.
  destruct (handleDelete_guard "a" true shop) as [H _].
  destruct H as (Hq & Hd & _ & He).
  - right. simpl. lia.
  - destruct (He eq_refl eq_refl) as (_ & _ & Hsub).
    split; [apply Hsub; reflexivity|]. split; [exact Hd | exact Hq].
Defined.

End DeleteCategory.

(** ** [generateSlug] *)

Section SlugProperties.
Import SupabaseUtils.
Local Open Scope N_scope.
Local Open Scope list_scope.

Ltac numeric :=
  unfold is_core, is_slug_char, is_sep, is_word, is_space, is_lower, is_upper,
    is_digit, hyphen, underscore in *;
  repeat match goal with
         | H : _ /\ _ |- _ => destruct H
         | H : _ \/ _ |- _ => destruct H
         | H : context [(_ && _)%bool = true] |- _ => rewrite andb_true_iff in H
         | H : context [(_ || _)%bool = true] |- _ => rewrite orb_true_iff in H
         | H : context [(_ && _)%bool = false] |- _ => rewrite andb_false_iff in H
         | H : context [(_ || _)%bool = false] |- _ => rewrite orb_false_iff in H
         | H : context [negb _ = true] |- _ => rewrite negb_true_iff in H
         | H : context [negb _ = false] |- _ => rewrite negb_false_iff in H
         | H : context [(_ <=? _) = true] |- _ => rewrite N.leb_le in H
         | H : context [(_ <=? _) = false] |- _ => rewrite N.leb_gt in H
         | H : context [(_ =? _) = true] |- _ => rewrite N.eqb_eq in H
         | H : context [(_ =? _) = false] |- _ => rewrite N.eqb_neq in H
         end.

Lemma core_not_sep c : is_core c = true -> is_sep c = false.
Proof.
  intros H. destruct (is_sep c) eqn:E; [|reflexivity]. exfalso.
  numeric; lia.
Qed.

Lemma kept_not_sep_is_core c :
  (is_word c || is_space c || (c =? hyphen))%bool = true ->
  is_upper c = false -> is_sep c = false -> is_core c = true.
Proof.
  intros Hk Hu Hs. unfold is_sep in Hs. apply orb_false_iff in Hs.
  destruct Hs as [Hs Hh]. apply orb_false_iff in Hs. destruct Hs as [Hsp Hus].
  rewrite Hsp, Hh in Hk. rewrite !orb_false_r in Hk.
  unfold is_word in Hk. rewrite Hu, Hus in Hk. simpl in Hk.
  rewrite orb_false_r in Hk. exact Hk.
Qed.

Lemma core_is_slug_char c : core_or_hyphen c -> is_slug_char c = true.
Proof.
  intros [H | ->]; [|reflexivity].
  unfold is_slug_char. apply orb_true_iff. left.
  apply andb_true_iff. split.
  - unfold is_core in H. unfold is_word.
    destruct (is_upper c), (is_lower c), (is_digit c); simpl in *; congruence.
  - apply negb_true_iff. destruct (is_upper c) eqn:E; [|reflexivity].
    exfalso. numeric; lia.
Qed.

Lemma core_or_hyphen_not_space c : core_or_hyphen c -> is_space c = false.
Proof.
  intros [H | ->]; [|reflexivity].
  apply core_not_sep in H. unfold is_sep in H.
  apply orb_false_iff in H. destruct H as [H _].
  apply orb_false_iff in H. now destruct H.
Qed.

Lemma core_or_hyphen_kept c :
  core_or_hyphen c -> (is_word c || is_space c || (c =? hyphen))%bool = true.
Proof.
  intros [H | ->]; [|reflexivity].
  unfold is_core in H. unfold is_word.
  destruct (is_upper c), (is_lower c), (is_digit c); simpl in *; congruence.
Qed.

Lemma core_not_hyphen c : is_core c = true -> (c =? hyphen) = false.
Proof.
  intros H. apply core_not_sep in H. unfold is_sep in H.
  apply orb_false_iff in H. now destruct H.
Qed.

(** *** Dropping at either end *)

Lemma drop_while_suffix p s : exists pre, s = pre ++ drop_while p s.
Proof.
  induction s as [|c s [pre IH]]; simpl.
  - now exists [].
  - destruct (p c).
    + exists (c :: pre). simpl. now f_equal.
    + now exists [].
Qed.

Lemma drop_while_end_prefix p s : exists suf, s = drop_while_end p s ++ suf.
Proof.
  unfold drop_while_end. destruct (drop_while_suffix p (rev s)) as [pre H].
  exists (rev pre). rewrite <- rev_app_distr, <- H. now rewrite rev_involutive.
Qed.

Lemma drop_while_head p s :
  match drop_while p s with c :: _ => p c = false | [] => True end.
Proof.
  induction s as [|c s IH]; simpl; [exact I|].
  destruct (p c) eqn:E; [exact IH | exact E].
Qed.

Lemma drop_while_id p s :
  match s with c :: _ => p c = false | [] => True end -> drop_while p s = s.
Proof.
  destruct s as [|c s]; simpl; [reflexivity|]. now intros ->.
Qed.

Lemma drop_while_end_id p s :
  match rev s with c :: _ => p c = false | [] => True end ->
  drop_while_end p s = s.
Proof.
  intros H. unfold drop_while_end. rewrite (drop_while_id _ _ H).
  apply rev_involutive.
Qed.

Lemma Forall_drop_while (Q : N -> Prop) p s :
  Forall Q s -> Forall Q (drop_while p s).
Proof.
  intros H. destruct (drop_while_suffix p s) as [pre E].
  rewrite E in H. now apply Forall_app in H.
Qed.

Lemma Forall_drop_while_end (Q : N -> Prop) p s :
  Forall Q s -> Forall Q (drop_while_end p s).
Proof.
  intros H. destruct (drop_while_end_prefix p s) as [suf E].
  rewrite E in H. now apply Forall_app in H.
Qed.

(** *** Single hyphens *)

Lemma single_hyphens_cons c d r :
  single_hyphens (c :: d :: r)
  = (negb ((c =? hyphen) && (d =? hyphen)) && single_hyphens (d :: r))%bool.
Proof. reflexivity. Qed.

Lemma single_hyphens_app_l a b :
  single_hyphens (a ++ b) = true -> single_hyphens a = true.
Proof.
  induction a as [|c a IH]; [reflexivity|].
  destruct a as [|d a]; [reflexivity|].
  change ((c :: d :: a) ++ b) with (c :: d :: (a ++ b)).
  rewrite !single_hyphens_cons. intros H.
  apply andb_true_iff in H. destruct H as [H1 H2].
  apply andb_true_iff. split; [exact H1 | apply IH; exact H2].
Qed.

Lemma single_hyphens_app_r a b :
  single_hyphens (a ++ b) = true -> single_hyphens b = true.
Proof.
  induction a as [|c a IH]; [auto|].
  intros H. apply IH. destruct a as [|d a].
  - destruct b as [|d b]; [reflexivity|].
    change (single_hyphens (c :: d :: b) = true) in H.
    rewrite single_hyphens_cons in H.
    apply andb_true_iff in H. now destruct H.
  - change (single_hyphens (c :: d :: (a ++ b)) = true) in H.
    rewrite single_hyphens_cons in H.
    apply andb_true_iff in H. now destruct H.
Qed.

Lemma collapse_shape b s :
  single_hyphens (collapse_from b s) = true
  /\ (b = true -> starts_with_hyphen (collapse_from b s) = false).
Proof.
  revert b. induction s as [|c s IH]; intros b; simpl.
  - split; [reflexivity | reflexivity].
  - destruct (is_sep c) eqn:Es.
    + destruct b.
      * apply IH.
      * destruct (IH true) as [H1 H2]. split; [|discriminate].
        specialize (H2 eq_refl).
        destruct (collapse_from true s) as [|d r] eqn:E; [reflexivity|].
        rewrite single_hyphens_cons, H1.
        change ((d =? hyphen) = false) in H2. rewrite H2.
        now rewrite andb_false_r.
    + destruct (IH false) as [H1 _].
      assert (Hc : (c =? hyphen) = false).
      { unfold is_sep in Es. apply orb_false_iff in Es. now destruct Es. }
      split.
      * destruct (collapse_from false s) as [|d r] eqn:E; [reflexivity|].
        rewrite single_hyphens_cons, Hc, H1. reflexivity.
      * intros _. simpl. exact Hc.
Qed.

Lemma collapse_chars (Q : N -> Prop) b s :
  Q hyphen -> (forall c, In c s -> is_sep c = false -> Q c) ->
  Forall Q (collapse_from b s).
Proof.
  intros Hh. revert b. induction s as [|c s IH]; intros b Hs; simpl.
  - constructor.
  - destruct (is_sep c) eqn:Es.
    + destruct b; [|constructor; [exact Hh|]]; apply IH; intros; apply Hs;
        simpl; auto.
    + constructor; [apply Hs; simpl; auto|].
      apply IH; intros; apply Hs; simpl; auto.
Qed.

Lemma collapse_id s :
  Forall core_or_hyphen s -> single_hyphens s = true ->
  collapse_from false s = s
  /\ (starts_with_hyphen s = false -> collapse_from true s = s).
Proof.
  induction s as [|c s IH]; intros Hall Hsingle; [split; reflexivity|].
  inversion Hall as [|? ? Hc Hrest]; subst.
  assert (Hs' : single_hyphens s = true).
  { destruct s; [reflexivity|]. rewrite single_hyphens_cons in Hsingle.
    apply andb_true_iff in Hsingle. now destruct Hsingle. }
  destruct (IH Hrest Hs') as [IH1 IH2]. simpl.
  destruct Hc as [Hcore | ->].
  - rewrite (core_not_sep _ Hcore). rewrite IH1. split; reflexivity.
  - change (is_sep hyphen) with true. cbv iota. split; [|discriminate].
    f_equal. apply IH2. destruct s as [|d s]; [reflexivity|].
    rewrite single_hyphens_cons in Hsingle.
    apply andb_true_iff in Hsingle. destruct Hsingle as [H _].
    rewrite N.eqb_refl in H. simpl in H.
    now apply negb_true_iff in H.
Qed.

Lemma filter_all {A} (f : A -> bool) l :
  Forall (fun x => f x = true) l -> filter f l = l.
Proof.
  induction 1 as [|x l Hx _ IH]; simpl; [reflexivity|].
  now rewrite Hx, IH.
Qed.

Lemma head_not {A} (p : A -> bool) (Q : A -> Prop) l :
  (forall c, Q c -> p c = false) -> Forall Q l ->
  match l with c :: _ => p c = false | [] => True end.
Proof.
  intros Hp Hl. destruct l as [|c l]; [exact I|].
  inversion Hl; subst. now apply Hp.
Qed.

Variable toLowerCase : JsString -> JsString.

(** What the proofs need of [toLowerCase]: its result holds no ASCII
    uppercase letter, and it leaves a string of slug characters as it is. *)
Hypothesis toLowerCase_no_upper :
  forall s, Forall (fun c => is_upper c = false) (toLowerCase s).
Hypothesis toLowerCase_slug :
  forall s, Forall (fun c => is_slug_char c = true) s -> toLowerCase s = s.

Lemma strip_hyphens_shape s :
  starts_with_hyphen (strip_hyphens s) = false
  /\ ends_with_hyphen (strip_hyphens s) = false.
Proof.
  unfold strip_hyphens, ends_with_hyphen.
  set (d := drop_while (N.eqb hyphen) s).
  assert (Hd := drop_while_head (N.eqb hyphen) s). fold d in Hd.
  split.
  - destruct (drop_while_end_prefix (N.eqb hyphen) d) as [suf E].
    destruct (drop_while_end (N.eqb hyphen) d) as [|c e]; [reflexivity|].
    rewrite E in Hd. simpl in *. now rewrite N.eqb_sym.
  - unfold drop_while_end. rewrite rev_involutive.
    assert (Hr := drop_while_head (N.eqb hyphen) (rev d)).
    destruct (drop_while (N.eqb hyphen) (rev d)) as [|c e]; [reflexivity|].
    simpl. now rewrite N.eqb_sym.
Qed.

Lemma generateSlug_form s : slug_form (generateSlug toLowerCase s).
Proof.
  unfold generateSlug.
  set (b := trim (toLowerCase s)).
  assert (Hb : Forall (fun c => is_upper c = false) b).
  { unfold b, trim. apply Forall_drop_while_end, Forall_drop_while,
      toLowerCase_no_upper. }
  set (d := collapse (remove_other b)).
  assert (Hd : Forall core_or_hyphen d).
  { unfold d, collapse. apply collapse_chars; [now right|].
    intros c Hc Hsep. left. unfold remove_other in Hc.
    apply filter_In in Hc. destruct Hc as [Hin Hkept].
    rewrite Forall_forall in Hb.
    apply kept_not_sep_is_core; auto. }
  assert (Hs : single_hyphens d = true) by apply (collapse_shape false).
  destruct (strip_hyphens_shape d) as [H1 H2].
  unfold slug_form. split; [|split; [|split]]; auto.
  - unfold strip_hyphens. now apply Forall_drop_while_end, Forall_drop_while.
  - unfold strip_hyphens.
    destruct (drop_while_suffix (N.eqb hyphen) d) as [pre E1].
    destruct (drop_while_end_prefix (N.eqb hyphen) (drop_while (N.eqb hyphen) d))
      as [suf E2].
    rewrite E1 in Hs. apply single_hyphens_app_r in Hs.
    rewrite E2 in Hs. now apply single_hyphens_app_l in Hs.
Qed.

Lemma generateSlug_fixed s : slug_form s -> generateSlug toLowerCase s = s.
Proof.
  intros (Hall & Hsingle & Hstart & Hend). unfold generateSlug.
  rewrite toLowerCase_slug
    by (eapply Forall_impl; [|exact Hall]; apply core_is_slug_char).
  assert (Htrim : trim s = s).
  { unfold trim. rewrite drop_while_id.
    - apply drop_while_end_id.
      apply (head_not _ core_or_hyphen); [apply core_or_hyphen_not_space|].
      now apply Forall_rev.
    - apply (head_not _ core_or_hyphen); [apply core_or_hyphen_not_space|].
      exact Hall. }
  rewrite Htrim.
  assert (Hrem : remove_other s = s).
  { unfold remove_other. apply filter_all.
    eapply Forall_impl; [|exact Hall]. apply core_or_hyphen_kept. }
  rewrite Hrem.
  destruct (collapse_id s Hall Hsingle) as [Hcol _].
  unfold collapse. rewrite Hcol.
  unfold strip_hyphens. rewrite drop_while_id.
  - apply drop_while_end_id. unfold ends_with_hyphen in Hend.
    destruct (rev s) as [|c r]; [exact I|]. simpl in Hend.
    now rewrite N.eqb_sym.
  - destruct s as [|c r]; [exact I|]. simpl in Hstart. now rewrite N.eqb_sym.
Qed.

(** C10. [generateSlug] is idempotent, and its output holds only lowercase
    word characters and hyphens, with no two hyphens in a row and no hyphen
    at either end. *)
Theorem generateSlug_idempotent (s : JsString) :
  generateSlug toLowerCase (generateSlug toLowerCase s)
  = generateSlug toLowerCase s
  /\ Forall (fun c => is_slug_char c = true) (generateSlug toLowerCase s)
  /\ single_hyphens (generateSlug toLowerCase s) = true
  /\ starts_with_hyphen (generateSlug toLowerCase s) = false
  /\ ends_with_hyphen (generateSlug toLowerCase s) = false.
Proof.
  pose proof (generateSlug_form s) as Hform.
  split; [now apply generateSlug_fixed|].
  destruct Hform as (Hall & Hsingle & Hstart & Hend).
  split; [|auto].
  eapply Forall_impl; [|exact Hall]. apply core_is_slug_char.
Qed.

End SlugProperties.

Section SlugWitness.
Import SupabaseUtils.
Local Open Scope N_scope.

Lemma ascii_toLowerCase_no_upper s :
  Forall (fun c => is_upper c = false) (ascii_toLowerCase s).
Proof.
  unfold ascii_toLowerCase. apply Forall_forall. intros c Hc.
  apply in_map_iff in Hc. destruct Hc as (x & <- & _).
  destruct (is_upper x) eqn:E; [|exact E].
  unfold is_upper in *. apply andb_true_iff in E. destruct E as [E1 E2].
  apply N.leb_le in E1, E2. apply andb_false_iff. right.
  apply N.leb_gt. lia.
Qed.

Lemma ascii_toLowerCase_slug s :
  Forall (fun c => is_slug_char c = true) s -> ascii_toLowerCase s = s.
Proof.
  unfold ascii_toLowerCase. induction 1 as [|c s Hc _ IH]; [reflexivity|].
  simpl. rewrite IH. f_equal.
  destruct (is_upper c) eqn:E; [|reflexivity]. exfalso.
  unfold is_slug_char in Hc. rewrite E in Hc. rewrite andb_false_r in Hc.
  simpl in Hc. apply N.eqb_eq in Hc. subst c. discriminate E.
Qed.

Lemma generateSlug_idempotent_witness :
  generateSlug ascii_toLowerCase
    (generateSlug ascii_toLowerCase (code_units "  Hello, World_ -- Foo!  "))
  = generateSlug ascii_toLowerCase (code_units "  Hello, World_ -- Foo!  ")
  /\ generateSlug ascii_toLowerCase (code_units "  Hello, World_ -- Foo!  ")
     = code_units "hello-world-foo".
Proof.
  split.
  - apply (generateSlug_idempotent ascii_toLowerCase
             ascii_toLowerCase_no_upper ascii_toLowerCase_slug).
  - reflexivity.
Defined.

End SlugWitness.

(** ** The GPSR columns of the products table *)

Section GpsrColumns.
Import Migrations.
Local Open Scope list_scope.

Lemma has_column_In n cs :
  has_column n cs = true <-> In n (map col_name cs).
Proof.
  unfold has_column. rewrite existsb_exists. split.
  - intros (c & Hc & E). apply String.eqb_eq in E. subst n. now apply in_map.
  - intros H. apply in_map_iff in H. destruct H as (c & <- & Hc).
    exists c. split; [exact Hc | apply String.eqb_refl].
Qed.

Lemma has_column_app n cs ds :
  has_column n (cs ++ ds) = has_column n cs || has_column n ds.
Proof. apply existsb_app. Qed.

Lemma row_ok_names cs r : row_ok cs r = true -> map fst r = map col_name cs.
Proof.
  revert r. induction cs as [|c cs IH]; intros [|[n v] r]; simpl;
    try discriminate; [reflexivity|].
  intros H. apply andb_true_iff in H. destruct H as [H Hr].
  apply andb_true_iff in H. destruct H as [Hn _].
  apply String.eqb_eq in Hn. subst n. f_equal. now apply IH.
Qed.

Lemma row_get_None n r : row_get n r = None <-> ~ In n (map fst r).
Proof.
  induction r as [|[m v] r IH]; simpl; [tauto|].
  destruct (String.eqb_spec m n) as [->|Hne].
  - split; [discriminate | intros H; exfalso; apply H; now left].
  - rewrite IH. tauto.
Qed.

Lemma row_get_app n r r' :
  row_get n (r ++ r')
  = match row_get n r with Some v => Some v | None => row_get n r' end.
Proof.
  induction r as [|[m v] r IH]; simpl; [reflexivity|].
  destruct (m =? n)%string; [reflexivity | exact IH].
Qed.

Lemma row_ok_app cs r c v :
  row_ok (cs ++ [c]) (r ++ [(col_name c, v)]) = row_ok cs r && cell_ok c v.
Proof.
  revert r. induction cs as [|c0 cs IH]; intros [|[n w] r]; simpl.
  - now rewrite String.eqb_refl, andb_true_r.
  - destruct r; simpl; now rewrite andb_false_r.
  - replace (row_ok (cs ++ [c]) []) with false by (destruct cs; reflexivity).
    now rewrite andb_false_r.
  - rewrite IH. now rewrite !andb_assoc.
Qed.

(** A stored row has an accepted cell in every column. *)
Lemma row_ok_cell cs r c :
  NoDup (map col_name cs) -> In c cs -> row_ok cs r = true ->
  exists v, row_get (col_name c) r = Some v /\ cell_ok c v = true.
Proof.
  revert r. induction cs as [|c0 cs IH]; intros [|[n v] r] Hnd Hin Hok;
    simpl in *; try discriminate; try contradiction.
  apply andb_true_iff in Hok. destruct Hok as [Hok Hr].
  apply andb_true_iff in Hok. destruct Hok as [Hn Hv].
  apply String.eqb_eq in Hn. subst n. inversion Hnd as [|? ? Hnotin Hnd']; subst.
  destruct Hin as [-> | Hin].
  - exists v. now rewrite String.eqb_refl.
  - destruct (String.eqb_spec (col_name c0) (col_name c)) as [E|_].
    + exfalso. apply Hnotin. rewrite E. now apply in_map.
    + now apply IH.
Qed.

Lemma row_ok_has cs r n :
  row_ok cs r = true -> has_column n cs = true ->
  exists v, row_get n r = Some v.
Proof.
  intros Hok Hn. destruct (row_get n r) as [v|] eqn:E; [now exists v|].
  exfalso. apply row_get_None in E. apply E.
  rewrite (row_ok_names _ _ Hok). now apply has_column_In.
Qed.

(** What an accepted cell of the status column is. *)
Lemma status_cell v :
  cell_ok gpsr_moderation_status v = true ->
  exists s, v = Text s /\ In s moderation_statuses.
Proof.
  unfold cell_ok, gpsr_moderation_status, moderation_statuses.
  destruct v as [|s|l|z|u]; cbn -[String.eqb]; try discriminate.
  intros H. exists s. split; [reflexivity|].
  repeat match type of H with
         | (?a || ?b)%bool = true =>
             apply orb_true_iff in H; destruct H as [H|H]
         end; try discriminate; apply String.eqb_eq in H; subst; auto.
Qed.

(** *** Adding columns *)

Lemma add_column_new c t t' :
  has_column (col_name c) (columns t) = false ->
  add_column_if_not_exists c t = Some t' ->
  columns t' = columns t ++ [c]
  /\ rows t' = map (fun r => r ++ [(col_name c, default_value c)]) (rows t)
  /\ (rows t <> [] -> cell_ok c (default_value c) = true).
Proof.
  unfold add_column_if_not_exists. intros ->.
  destruct (rows t) as [|r rs] eqn:E.
  - intros [= <-]. simpl. repeat split. congruence.
  - destruct (cell_ok c (default_value c)); [|discriminate].
    intros [= <-]. simpl. repeat split.
Qed.

Lemma add_column_old c t :
  has_column (col_name c) (columns t) = true ->
  add_column_if_not_exists c t = Some t.
Proof. unfold add_column_if_not_exists. now intros ->. Qed.

Lemma add_column_well_formed c t t' :
  well_formed t -> add_column_if_not_exists c t = Some t' -> well_formed t'.
Proof.
  intros [Hnd Hrows] Hadd.
  destruct (has_column (col_name c) (columns t)) eqn:Hc.
  - rewrite (add_column_old _ _ Hc) in Hadd. injection Hadd as <-. now split.
  - destruct (add_column_new _ _ _ Hc Hadd) as (Hcols & Hrs & Hdef).
    split.
    + rewrite Hcols, map_app. simpl.
      apply NoDup_app; [exact Hnd | repeat constructor; auto |].
      intros n Hn [<-|[]]. apply has_column_In in Hn. congruence.
    + rewrite Hcols, Hrs. apply forallb_forall. intros r' Hr'.
      apply in_map_iff in Hr'. destruct Hr' as (r & <- & Hr).
      rewrite row_ok_app. rewrite forallb_forall in Hrows.
      rewrite (Hrows _ Hr). simpl. apply Hdef.
      intros E. rewrite E in Hr. contradiction.
Qed.

Lemma add_column_keeps c t t' n :
  add_column_if_not_exists c t = Some t' ->
  has_column n (columns t) = true -> has_column n (columns t') = true.
Proof.
  intros Hadd Hn.
  destruct (has_column (col_name c) (columns t)) eqn:Hc.
  - rewrite (add_column_old _ _ Hc) in Hadd. now injection Hadd as <-.
  - destruct (add_column_new _ _ _ Hc Hadd) as (Hcols & _).
    rewrite Hcols, has_column_app, Hn. reflexivity.
Qed.

Lemma add_column_keeps_In c t t' d :
  add_column_if_not_exists c t = Some t' ->
  In d (columns t) -> In d (columns t').
Proof.
  intros Hadd Hd.
  destruct (has_column (col_name c) (columns t)) eqn:Hc.
  - rewrite (add_column_old _ _ Hc) in Hadd. now injection Hadd as <-.
  - destruct (add_column_new _ _ _ Hc Hadd) as (Hcols & _).
    rewrite Hcols. apply in_or_app. now left.
Qed.

Lemma add_column_has c t t' :
  add_column_if_not_exists c t = Some t' ->
  has_column (col_name c) (columns t') = true.
Proof.
  intros Hadd.
  destruct (has_column (col_name c) (columns t)) eqn:Hc.
  - rewrite (add_column_old _ _ Hc) in Hadd. now injection Hadd as <-.
  - destruct (add_column_new _ _ _ Hc Hadd) as (Hcols & _).
    rewrite Hcols, has_column_app. simpl. rewrite String.eqb_refl.
    apply orb_true_r.
Qed.

(** [ALTER TABLE ... ADD COLUMN IF NOT EXISTS ...] keeps a table well formed
    and keeps the columns it had. *)
Lemma alter_table_add_sound cs t t' :
  well_formed t -> alter_table_add cs t = Some t' ->
  well_formed t'
  /\ (forall d, In d (columns t) -> In d (columns t'))
  /\ (forall n, has_column n (columns t) = true ->
                has_column n (columns t') = true)
  /\ (forall c, In c cs -> has_column (col_name c) (columns t') = true).
Proof.
  revert t. induction cs as [|c cs IH]; intros t Hwf Halter; simpl in Halter.
  - injection Halter as <-. split; [exact Hwf|]. split; [auto|].
    split; [auto|]. intros c [].
  - destruct (add_column_if_not_exists c t) as [t0|] eqn:Hadd; [|discriminate].
    destruct (IH t0 (add_column_well_formed _ _ _ Hwf Hadd) Halter)
      as (Hwf' & Hin & Hhas & Hnew).
    split; [exact Hwf'|]. split; [|split].
    + intros d Hd. apply Hin. eapply add_column_keeps_In; eauto.
    + intros n Hn. apply Hhas. eapply add_column_keeps; eauto.
    + intros d [<- | Hd]; [|now apply Hnew].
      apply Hhas. eapply add_column_has; eauto.
Qed.

(** A migration whose defaults are accepted by their own columns always
    applies. *)
Lemma alter_table_add_applies cs t :
  forallb (fun c => cell_ok c (default_value c)) cs = true ->
  exists t', alter_table_add cs t = Some t'.
Proof.
  revert t. induction cs as [|c cs IH]; intros t Hdef; simpl.
  - now exists t.
  - simpl in Hdef. apply andb_true_iff in Hdef. destruct Hdef as [Hc Hcs].
    assert (Hadd : exists t0, add_column_if_not_exists c t = Some t0).
    { unfold add_column_if_not_exists.
      destruct (has_column (col_name c) (columns t)); [eauto|].
      destruct (rows t); [eauto|]. rewrite Hc. eauto. }
    destruct Hadd as [t0 ->]. now apply IH.
Qed.

(** A cell that every row holds is still there after more columns are
    added. *)
Lemma alter_table_add_keeps_cell cs t t' n v :
  well_formed t -> alter_table_add cs t = Some t' ->
  (forall r, In r (rows t) -> row_get n r = Some v) ->
  forall r, In r (rows t') -> row_get n r = Some v.
Proof.
  revert t. induction cs as [|c cs IH]; intros t Hwf Halter Hcell;
    simpl in Halter.
  - now injection Halter as <-.
  - destruct (add_column_if_not_exists c t) as [t0|] eqn:Hadd; [|discriminate].
    apply (IH t0 (add_column_well_formed _ _ _ Hwf Hadd) Halter).
    intros r' Hr'.
    destruct (has_column (col_name c) (columns t)) eqn:Hc.
    + rewrite (add_column_old _ _ Hc) in Hadd. injection Hadd as <-.
      now apply Hcell.
    + destruct (add_column_new _ _ _ Hc Hadd) as (_ & Hrows & _).
      rewrite Hrows in Hr'. apply in_map_iff in Hr'.
      destruct Hr' as (r & <- & Hr). rewrite row_get_app.
      now rewrite (Hcell _ Hr).
Qed.

(** A column the migration adds is in the table afterwards, and the rows
    that were there hold its default. *)
Lemma alter_table_add_adds cs t t' c :
  well_formed t -> NoDup (map col_name cs) -> In c cs ->
  has_column (col_name c) (columns t) = false ->
  alter_table_add cs t = Some t' ->
  In c (columns t')
  /\ forall r, In r (rows t') ->
               row_get (col_name c) r = Some (default_value c).
Proof.
  revert t. induction cs as [|c0 cs IH]; intros t Hwf Hnd Hin Hnew Halter;
    [contradiction|].
  simpl in Halter.
  destruct (add_column_if_not_exists c0 t) as [t0|] eqn:Hadd; [|discriminate].
  pose proof (add_column_well_formed _ _ _ Hwf Hadd) as Hwf0.
  inversion Hnd as [|? ? Hnotin Hnd']; subst.
  destruct Hin as [-> | Hin].
  - destruct (add_column_new _ _ _ Hnew Hadd) as (Hcols & Hrows & _).
    destruct (alter_table_add_sound _ _ _ Hwf0 Halter) as (Hwf' & Hkeep & _).
    split; [apply Hkeep; rewrite Hcols; apply in_or_app; right; now left|].
    apply (alter_table_add_keeps_cell _ _ _ _ _ Hwf0 Halter).
    intros r' Hr'. rewrite Hrows in Hr'. apply in_map_iff in Hr'.
    destruct Hr' as (r & <- & Hr). rewrite row_get_app.
    destruct Hwf as [_ Hok]. rewrite forallb_forall in Hok.
    assert (Hnone : row_get (col_name c) r = None).
    { apply row_get_None. rewrite (row_ok_names _ _ (Hok _ Hr)).
      intros Hn. apply has_column_In in Hn. congruence. }
    rewrite Hnone. simpl. now rewrite String.eqb_refl.
  - apply (IH t0 Hwf0 Hnd' Hin); [|exact Halter].
    destruct (has_column (col_name c0) (columns t)) eqn:Hc0.
    + rewrite (add_column_old _ _ Hc0) in Hadd. now injection Hadd as <-.
    + destruct (add_column_new _ _ _ Hc0 Hadd) as (Hcols & _).
      rewrite Hcols, has_column_app, Hnew. simpl.
      destruct (String.eqb_spec (col_name c0) (col_name c)) as [E|_];
        [|reflexivity].
      exfalso. apply Hnotin. rewrite E. now apply in_map.
Qed.

(** *** The table after the migration *)

Lemma step_migrated t s : migrated t -> migrated (step t s).
Proof.
  intros (Hwf & Hstatus & Hcols). unfold step.
  destruct (execute s t) as [t'|] eqn:Hexec;
    [|split; [exact Hwf | split; [exact Hstatus | exact Hcols]]].
  destruct s as [given | cond assignments | cond | cs]; simpl in Hexec.
  - destruct (names_known (columns t) given
              && row_ok (columns t) (complete (columns t) given)) eqn:Hok;
      [|discriminate].
    injection Hexec as <-. apply andb_true_iff in Hok. destruct Hok as [_ Hok].
    destruct Hwf as [Hnd Hrows].
    split; [split; [exact Hnd|] | split; [exact Hstatus | exact Hcols]].
    simpl. rewrite forallb_app, Hrows. simpl. now rewrite Hok.
  - match type of Hexec with
    | (if ?b then _ else _) = _ => destruct b eqn:Hok; [|discriminate]
    end.
    injection Hexec as <-. apply andb_true_iff in Hok. destruct Hok as [_ Hok].
    destruct Hwf as [Hnd Hrows].
    split; [split; [exact Hnd | exact Hok]
           | split; [exact Hstatus | exact Hcols]].
  - injection Hexec as <-. destruct Hwf as [Hnd Hrows].
    split; [split; [exact Hnd|] | split; [exact Hstatus | exact Hcols]].
    simpl. apply forallb_forall. intros r Hr.
    apply filter_In in Hr. destruct Hr as [Hr _].
    rewrite forallb_forall in Hrows. now apply Hrows.
  - destruct (alter_table_add_sound _ _ _ Hwf Hexec) as (Hwf' & Hin & Hhas & _).
    split; [exact Hwf' | split; [now apply Hin|]].
    intros c Hc. apply Hhas. now apply Hcols.
Qed.

Lemma run_migrated history t : migrated t -> migrated (run t history).
Proof.
  revert t. induction history as [|s history IH]; intros t Hm; simpl; auto.
  apply IH. now apply step_migrated.
Qed.

Lemma migrated_row t r :
  migrated t -> In r (rows t) ->
  (exists s, row_get "gpsr_moderation_status" r = Some (Text s)
             /\ In s moderation_statuses)
  /\ forall c, In c add_gpsr_fields_to_products ->
               exists v, row_get (col_name c) r = Some v.
Proof.
  intros ([Hnd Hrows] & Hstatus & Hcols) Hr.
  rewrite forallb_forall in Hrows. specialize (Hrows _ Hr). split.
  - destruct (row_ok_cell _ _ _ Hnd Hstatus Hrows) as (v & Hget & Hok).
    destruct (status_cell _ Hok) as (s & -> & Hs). now exists s.
  - intros c Hc. apply (row_ok_has _ _ _ Hrows). now apply Hcols.
Qed.

Lemma complete_default cs given c :
  NoDup (map col_name cs) -> In c cs -> row_get (col_name c) given = None ->
  row_get (col_name c) (complete cs given) = Some (default_value c).
Proof.
  unfold complete. induction cs as [|c0 cs IH]; intros Hnd Hin Hnone;
    [contradiction|].
  inversion Hnd as [|? ? Hnotin Hnd']; subst. simpl.
  destruct Hin as [-> | Hin].
  - now rewrite String.eqb_refl, Hnone.
  - destruct (String.eqb_spec (col_name c0) (col_name c)) as [E|_].
    + exfalso. apply Hnotin. rewrite E. now apply in_map.
    + now apply IH.
Qed.

(** C7. Take the products table in any well-formed state that has no
    [gpsr_moderation_status] column yet. The migration applies. The rows that
    were there get the status ['pending']. From then on, whatever statements
    run (inserts, updates, deletes, further [ADD COLUMN IF NOT EXISTS]), every
    row has a cell in each GPSR column, and its [gpsr_moderation_status] is
    non-null and one of ['pending'], ['approved'], ['rejected']; an insert
    that does not name the column stores ['pending']. On the client, a
    [Product]'s [moderation_status], when present, is one of the same three
    strings. *)
Theorem gpsr_moderation_status_constrained (t : Table)
    (history : list Statement) :
  well_formed t ->
  has_column "gpsr_moderation_status" (columns t) = false ->
  exists t1,
    alter_table_add add_gpsr_fields_to_products t = Some t1
    /\ (forall r, In r (rows t1) ->
                  row_get "gpsr_moderation_status" r = Some (Text "pending"))
    /\ (forall r, In r (rows (run t1 history)) ->
          (exists s, row_get "gpsr_moderation_status" r = Some (Text s)
                     /\ In s moderation_statuses)
          /\ forall c, In c add_gpsr_fields_to_products ->
                       exists v, row_get (col_name c) r = Some v)
    /\ (forall given t2,
          execute (INSERT given) (run t1 history) = Some t2 ->
          row_get "gpsr_moderation_status" given = None ->
          exists r, rows t2 = rows (run t1 history) ++ [r]
                    /\ row_get "gpsr_moderation_status" r
                       = Some (Text "pending"))
    /\ (forall p : ProductTypes.Product,
          match ProductTypes.moderation_status p with
          | Some m => In (ProductTypes.literal m) moderation_statuses
          | None => True
          end).
Proof.
  intros Hwf Hnew.
  destruct (alter_table_add_applies add_gpsr_fields_to_products t eq_refl)
    as [t1 Halter].
  exists t1. split; [exact Halter|].
  assert (Hnd : NoDup (map col_name add_gpsr_fields_to_products)).
  { simpl. repeat constructor; simpl; intuition discriminate. }
  assert (Hin : In gpsr_moderation_status add_gpsr_fields_to_products)
    by (simpl; tauto).
  destruct (alter_table_add_adds _ _ _ _ Hwf Hnd Hin Hnew Halter)
    as [Hcol Hrows].
  destruct (alter_table_add_sound _ _ _ Hwf Halter) as (Hwf1 & _ & _ & Hhas).
  assert (Hm : migrated (run t1 history)).
  { apply run_migrated. split; [exact Hwf1 | split; [exact Hcol | exact Hhas]]. }
  split; [exact Hrows|]. split; [|split].
  - intros r Hr. now apply migrated_row with (t := run t1 history).
  - intros given t2 Hexec Hnone. simpl in Hexec.
    match type of Hexec with
    | (if ?b then _ else _) = _ => destruct b eqn:Hok; [|discriminate]
    end.
    injection Hexec as <-. eexists. split; [reflexivity|].
    destruct Hm as ([Hnd' _] & Hstatus & _).
    apply (complete_default _ _ gpsr_moderation_status Hnd' Hstatus Hnone).
  - intros p. destruct (ProductTypes.moderation_status p) as [[| |]|]; simpl;
      tauto.
Qed.

End GpsrColumns.

Section GpsrWitness.
Import Migrations.

Lemma gpsr_moderation_status_constrained_witness :
  exists t1,
    alter_table_add add_gpsr_fields_to_products one_product = Some t1
    /\ forall r, In r (rows (run t1 some_history)) ->
         exists s, row_get "gpsr_moderation_status" r = Some (Text s)
                   /\ In s moderation_statuses.
Proof.
  destruct (gpsr_moderation_status_constrained one_product some_history)
    as (t1 & Halter & _ & Hrows & _).
  - split; [|reflexivity].
    simpl. repeat constructor; simpl; intuition discriminate.
  - reflexivity.
  - exists t1. split; [exact Halter|]. intros r Hr. now apply Hrows.
Defined.

End GpsrWitness.

(** ** Scheduling: what is delegated and what the utilities do themselves *)

Section Scheduling.
Import Js Eff AuthContext Utils.
Local Open Scope Z_scope.
Local Open Scope list_scope.

Lemma getSession_calls thr now force w :
  made thr now force w = [CallRefreshSession]
  \/ made thr now force w = [CallGetSession]
  \/ made thr now force w = [CallGetSession; CallRefreshSession].
Proof.
  unfold made. destruct force.
  - left. rewrite getSession_forced. simpl. apply skipn_length_app.
  - right. destruct (raised (auth_getSession w)) eqn:Hr.
    + left. rewrite (getSession_failed_lookup _ _ _ Hr). simpl.
      apply skipn_length_app.
    + unfold raised in Hr.
      destruct (auth_getSession w) as [[s err]|e] eqn:Hg; [|discriminate].
      simpl in Hr. destruct err; [discriminate|].
      rewrite (getSession_unforced _ _ _ _ Hg).
      destruct (about_to_expire thr now s); simpl.
      * right. rewrite <- app_assoc. apply skipn_length_app.
      * left. apply skipn_length_app.
Qed.

Lemma debounced_effect {A} (wait : Z) (args : A) (rt : Runtime A) :
  timers (debounced wait args rt)
  = kept_by_debounce rt ++ [new_timer (CallFunc args) wait rt]
  /\ timeout (debounced wait args rt) = Some (next_handle rt)
  /\ invoked (debounced wait args rt) = invoked rt
  /\ clock (debounced wait args rt) = clock rt.
Proof.
  unfold debounced, kept_by_debounce, new_timer.
  destruct (timeout rt) as [h|]; [destruct (negb (h =? 0)%nat)|];
    repeat split.
Qed.

Lemma throttled_effect {A} (limit : Z) (args : A) (rt : Runtime A) :
  (inThrottle rt = false ->
   invoked (throttled limit args rt) = invoked rt ++ [(clock rt, args)]
   /\ inThrottle (throttled limit args rt) = true
   /\ timers (throttled limit args rt)
      = timers rt ++ [new_timer LeaveThrottle limit rt])
  /\ (inThrottle rt = true -> throttled limit args rt = rt).
Proof.
  unfold throttled, new_timer. split; intros ->; simpl; repeat split.
Qed.

Lemma earliest_single {A} (t : Timer A) : earliest A [t] = Some t.
Proof. reflexivity. Qed.

(** A timer set by [debounce] calls [func] when it fires, not before. *)
Lemma debounced_then_fired {A} (wait : Z) (args : A) (rt : Runtime A) :
  kept_by_debounce rt = [] ->
  invoked (fire_next (debounced wait args rt))
  = invoked rt ++ [(clock rt + Z.max 0 wait, args)]
  /\ timers (fire_next (debounced wait args rt)) = [].
Proof.
  intros Hkept. destruct (debounced_effect wait args rt) as (Ht & _ & Hi & Hc).
  unfold fire_next. rewrite Ht, Hkept.
  cbn [app earliest new_timer callback handle due run_callback call_func
       filter negb invoked clock timers].
  rewrite Nat.eqb_refl. cbn [negb]. rewrite Hi, Hc. split; [|reflexivity].
  replace (Z.max (clock rt) (clock rt + Z.max 0 wait))
    with (clock rt + Z.max 0 wait) by lia.
  reflexivity.
Qed.




End Scheduling.

(** ** The category tree of Categories.tsx *)

Section CategoryTree.
Import Js Categories.
Local Open Scope list_scope.

(** *** The first pass *)

Lemma map_set_fresh k v m :
  ~ In k (map fst m) -> map_set k v m = m ++ [(k, v)].
Proof.
  induction m as [|[k' v'] m IH]; simpl; intros Hk; [reflexivity|].
  destruct (String.eqb_spec k' k) as [->|_]; [exfalso; auto|].
  rewrite IH; auto.
Qed.

Lemma first_pass_from acc categories :
  NoDup (map fst acc ++ map id categories) ->
  fold_left (fun m c => map_set (id c) {| cat := c; children := [] |} m)
            categories acc
  = acc ++ map entry categories.
Proof.
  revert acc. induction categories as [|c cs IH]; intros acc Hnd; simpl.
  - now rewrite app_nil_r.
  - rewrite map_set_fresh.
    + rewrite IH.
      * now rewrite <- app_assoc.
      * rewrite map_app. simpl. rewrite <- app_assoc. exact Hnd.
    + intros Hin. apply NoDup_remove_2 in Hnd. apply Hnd.
      apply in_or_app. now left.
Qed.

Lemma first_pass_distinct categories :
  NoDup (map id categories) -> first_pass categories = map entry categories.
Proof.
  intros Hnd. unfold first_pass. now rewrite first_pass_from.
Qed.

(** *** The second pass *)

Lemma map_has_keyed (g : Category -> Node) categories k :
  map_has k (map (fun c => (id c, g c)) categories) = has_id categories k.
Proof.
  unfold map_has, has_id.
  induction categories as [|c cs IH]; simpl; [reflexivity|].
  now rewrite IH.
Qed.

Lemma map_get_keyed (g : Category -> Node) categories k :
  map_get k (map (fun c => (id c, g c)) categories)
  = option_map g (find_cat categories k).
Proof.
  unfold find_cat.
  induction categories as [|c cs IH]; simpl; [reflexivity|].
  destruct (id c =? k)%string; [reflexivity | exact IH].
Qed.

Lemma map_has_heap categories done k :
  map_has k (heap_after categories done) = has_id categories k.
Proof. apply map_has_keyed. Qed.

Lemma attach_to_heap categories done c :
  attach_to (heap_after categories done) c = parent_of categories c.
Proof.
  unfold attach_to, parent_of. destruct (parent_id c); [|reflexivity].
  now rewrite map_has_heap.
Qed.

Lemma link_step_heap categories done x :
  link_step (heap_after categories done, map id (filter (is_root categories) done))
            (entry x)
  = (heap_after categories (done ++ [x]),
     map id (filter (is_root categories) (done ++ [x]))).
Proof.
  unfold link_step, entry. cbn [fst snd cat]. rewrite attach_to_heap.
  rewrite !filter_app, map_app. cbn [filter].
  destruct (parent_of categories x) as [p|] eqn:Hp.
  - replace (is_root categories x) with false
      by (unfold is_root; now rewrite Hp).
    rewrite app_nil_r. f_equal.
    unfold push_child, heap_after. rewrite map_map. apply map_ext.
    intros c. cbn [fst snd cat children].
    rewrite filter_app, map_app. cbn [filter].
    replace (is_child_of categories (id c) x) with (id c =? p)%string
      by (unfold is_child_of; rewrite Hp; apply String.eqb_sym).
    destruct (id c =? p)%string; [reflexivity|].
    cbn [map]. now rewrite app_nil_r.
  - replace (is_root categories x) with true
      by (unfold is_root; now rewrite Hp).
    f_equal. unfold heap_after. apply map_ext. intros c.
    rewrite filter_app, map_app. cbn [filter].
    replace (is_child_of categories (id c) x) with false
      by (unfold is_child_of; now rewrite Hp).
    cbn [map]. now rewrite app_nil_r.
Qed.

Lemma second_pass_from categories done todo :
  fold_left link_step (map entry todo)
            (heap_after categories done,
             map id (filter (is_root categories) done))
  = (heap_after categories (done ++ todo),
     map id (filter (is_root categories) (done ++ todo))).
Proof.
  revert done. induction todo as [|x todo IH]; intros done;
    cbn [map fold_left].
  - now rewrite app_nil_r.
  - rewrite link_step_heap, IH. now rewrite <- app_assoc.
Qed.

Lemma heap_after_nil categories :
  heap_after categories [] = map entry categories.
Proof. reflexivity. Qed.

(** The object graph [buildCategoryTree] returns for distinct ids. *)
Lemma buildCategoryGraph_distinct categories :
  NoDup (map id categories) ->
  buildCategoryGraph categories
  = (heap_after categories categories, map id (roots categories)).
Proof.
  intros Hnd. unfold buildCategoryGraph, second_pass.
  rewrite (first_pass_distinct _ Hnd).
  rewrite <- heap_after_nil at 2.
  apply (second_pass_from categories [] categories).
Qed.

Lemma map_get_heap categories done k :
  map_get k (heap_after categories done)
  = option_map (fun c => {| cat := c;
                            children := map id (filter (is_child_of categories (id c)) done) |})
               (find_cat categories k).
Proof. apply map_get_keyed. Qed.

(** *** Ancestors *)

Lemma find_cat_Some categories k c :
  find_cat categories k = Some c -> In c categories /\ id c = k.
Proof.
  unfold find_cat. intros H. apply find_some in H. destruct H as [Hin Heq].
  split; [exact Hin | now apply String.eqb_eq].
Qed.

Lemma find_cat_In categories c :
  NoDup (map id categories) -> In c categories ->
  find_cat categories (id c) = Some c.
Proof.
  unfold find_cat. induction categories as [|d cs IH]; intros Hnd Hin;
    [contradiction|].
  inversion Hnd as [|? ? Hnotin Hnd']; subst. simpl.
  destruct Hin as [-> | Hin]; [now rewrite String.eqb_refl|].
  destruct (String.eqb_spec (id d) (id c)) as [E|_]; [|now apply IH].
  exfalso. apply Hnotin. rewrite E. now apply in_map.
Qed.

Lemma has_id_find categories k :
  has_id categories k = true <-> exists c, find_cat categories k = Some c.
Proof.
  unfold has_id, find_cat. induction categories as [|d cs IH]; simpl.
  - split; [discriminate | intros [c Hc]; discriminate].
  - destruct (id d =? k)%string; simpl; [|exact IH].
    split; [eauto | reflexivity].
Qed.

Lemma has_id_In categories c : In c categories -> has_id categories (id c) = true.
Proof.
  intros Hin. unfold has_id. apply existsb_exists. exists c.
  split; [exact Hin | apply String.eqb_refl].
Qed.

Lemma parent_of_has categories c p :
  parent_of categories c = Some p -> has_id categories p = true.
Proof.
  unfold parent_of. destruct (parent_id c) as [q|]; [|discriminate].
  destruct (truthy_str q && has_id categories q) eqn:E; [|discriminate].
  intros [= <-]. apply andb_true_iff in E. now destruct E.
Qed.

Lemma up_0 categories k a : up categories 0 k = Some a -> a = k.
Proof. simpl. destruct (has_id categories k); congruence. Qed.

Lemma up_has categories j k a :
  up categories j k = Some a ->
  has_id categories k = true /\ has_id categories a = true.
Proof.
  revert k. induction j as [|j IH]; intros k; simpl.
  - destruct (has_id categories k) eqn:E; [|discriminate].
    intros [= <-]. now split.
  - destruct (find_cat categories k) as [c|] eqn:Hc; [|discriminate].
    destruct (parent_of categories c) as [p|]; [|discriminate].
    intros H. split; [|now apply (IH p)].
    apply has_id_find. eauto.
Qed.

Lemma up_add categories a b k :
  up categories (a + b) k
  = match up categories a k with
    | Some y => up categories b y
    | None => None
    end.
Proof.
  revert k. induction a as [|a IH]; intros k.
  - cbn [Nat.add up]. destruct (has_id categories k) eqn:E; [reflexivity|].
    destruct b; simpl; [now rewrite E|].
    destruct (find_cat categories k) eqn:F; [|reflexivity].
    assert (has_id categories k = true) by (apply has_id_find; eauto).
    congruence.
  - cbn [Nat.add up]. destruct (find_cat categories k) as [c|]; [|reflexivity].
    destruct (parent_of categories c) as [p|]; [apply IH | reflexivity].
Qed.

(** One link up from a category of the list. *)
Lemma up_1 categories c :
  NoDup (map id categories) -> In c categories ->
  up categories 1 (id c) = parent_of categories c.
Proof.
  intros Hnd Hin. cbn [up]. rewrite (find_cat_In _ _ Hnd Hin).
  destruct (parent_of categories c) as [p|] eqn:Hp; [|reflexivity].
  now rewrite (parent_of_has _ _ _ Hp).
Qed.

(** In an acyclic list an ancestor sits at one level only. *)
Lemma level_unique categories x k a b :
  acyclic categories ->
  up categories a x = Some k -> up categories b x = Some k -> a = b.
Proof.
  intros Hac. revert a b.
  assert (Hlt : forall a b, a < b -> up categories a x = Some k ->
                            up categories b x = Some k -> False).
  { intros a b Hab Ha Hb. replace b with (a + S (b - a - 1)) in Hb by lia.
    rewrite up_add, Ha in Hb. exact (Hac _ _ Hb). }
  intros a b Ha Hb. destruct (Nat.lt_trichotomy a b) as [H|[H|H]]; auto;
    exfalso; eauto.
Qed.

(** Ancestors are defined up to a level and undefined beyond it. *)
Lemma up_prefix categories a b x :
  a <= b -> up categories b x <> None -> up categories a x <> None.
Proof.
  intros Hab Hb Ha. apply Hb. replace b with (a + (b - a)) by lia.
  now rewrite up_add, Ha.
Qed.

Lemma has_id_ids categories k :
  has_id categories k = true <-> In k (map id categories).
Proof.
  unfold has_id. rewrite existsb_exists, in_map_iff. split.
  - intros (c & Hc & E). apply String.eqb_eq in E. eauto.
  - intros (c & <- & Hc). exists c. split; [exact Hc | apply String.eqb_refl].
Qed.

(** A chain of ancestors in an acyclic list is shorter than the list. *)
Lemma level_bound categories j x k :
  acyclic categories ->
  up categories j x = Some k -> j < List.length categories.
Proof.
  intros Hac Hj.
  set (chain := map (fun i => up categories i x) (seq 0 (S j))).
  assert (Hnd : NoDup chain).
  { apply NoDup_map_NoDup_ForallPairs; [|apply seq_NoDup].
    intros a b Ha Hb E. apply in_seq in Ha, Hb.
    assert (Hsome : up categories a x <> None).
    { apply (up_prefix categories a j); [lia | congruence]. }
    destruct (up categories a x) as [y|] eqn:Ey; [|congruence].
    symmetry in E. exact (level_unique _ _ _ _ _ Hac Ey E). }
  assert (Hincl : incl chain (map Some (map id categories))).
  { intros o Ho. apply in_map_iff in Ho. destruct Ho as (i & <- & Hi).
    apply in_seq in Hi.
    assert (Hsome : up categories i x <> None).
    { apply (up_prefix categories i j); [lia | congruence]. }
    destruct (up categories i x) as [y|] eqn:Ey; [|congruence].
    apply in_map. apply has_id_ids. now apply (up_has _ _ _ _ Ey). }
  pose proof (NoDup_incl_length Hnd Hincl) as Hlen.
  unfold chain in Hlen. rewrite !length_map, length_seq in Hlen. lia.
Qed.

(** In an acyclic list every category has a root among its ancestors. *)
Lemma reaches_a_root categories x :
  NoDup (map id categories) -> acyclic categories -> In x categories ->
  exists j r, up categories j (id x) = Some (id r)
              /\ In r categories /\ is_root categories r = true.
Proof.
  intros Hnd Hac Hx.
  assert (Hend : forall n,
             up categories n (id x) = None ->
             exists j y, up categories j (id x) = Some y
                         /\ up categories (S j) (id x) = None).
  { induction n as [|n IH]; intros Hn.
    - simpl in Hn. rewrite (has_id_In _ _ Hx) in Hn. discriminate.
    - destruct (up categories n (id x)) as [y|] eqn:Ey; [eauto | auto]. }
  destruct (Hend (List.length categories)) as (j & y & Hj & HSj).
  { destruct (up categories (List.length categories) (id x)) as [k|] eqn:E;
      [|reflexivity].
    apply (level_bound _ _ _ _ Hac) in E. lia. }
  destruct (proj1 (has_id_find categories y)) as [r Hr].
  { now apply (up_has _ _ _ _ Hj). }
  destruct (find_cat_Some _ _ _ Hr) as [Hin <-].
  exists j, r. split; [exact Hj|]. split; [exact Hin|].
  replace (S j) with (j + 1) in HSj by lia.
  rewrite up_add, Hj, (up_1 _ _ Hnd Hin) in HSj.
  unfold is_root. now rewrite HSj.
Qed.

(** *** Reading the object graph as trees *)

Lemma mapM_all {A B C} (f : B -> option C) (g : A -> B) (l : list A) :
  (forall a, In a l -> exists t, f (g a) = Some t) ->
  exists ts, mapM f (map g l) = Some ts
             /\ Forall2 (fun a t => f (g a) = Some t) l ts.
Proof.
  induction l as [|a l IH]; intros Hall; simpl.
  - exists []. split; [reflexivity | constructor].
  - destruct (Hall a (or_introl eq_refl)) as [t Ht].
    destruct IH as (ts & Hts & HF); [intros; apply Hall; now right|].
    exists (t :: ts). rewrite Ht, Hts. split; [reflexivity|].
    now constructor.
Qed.

Lemma Forall2_In_r {A B} (R : A -> B -> Prop) l ts t :
  Forall2 R l ts -> In t ts -> exists a, In a l /\ R a t.
Proof.
  induction 1 as [|a u l ts Hau _ IH]; intros Hin; [contradiction|].
  destruct Hin as [<- | Hin].
  - exists a. split; [now left | exact Hau].
  - destruct (IH Hin) as (b & Hb & Hbt). exists b. split; [now right | exact Hbt].
Qed.

Lemma Forall2_In_l {A B} (R : A -> B -> Prop) l ts a :
  Forall2 R l ts -> In a l -> exists t, In t ts /\ R a t.
Proof.
  induction 1 as [|b u l ts Hbu _ IH]; intros Hin; [contradiction|].
  destruct Hin as [<- | Hin].
  - exists u. split; [now left | exact Hbu].
  - destruct (IH Hin) as (t & Ht & Hat). exists t. split; [now right | exact Hat].
Qed.

(** Trees read from distinct keys, each without repetition and each
    holding only what belongs to its key, hold no category twice. *)
Lemma NoDup_flat_map_keys {A B C} (R : A -> B -> Prop) (g : B -> list C)
    (P : A -> C -> Prop) l ts :
  Forall2 R l ts -> NoDup l ->
  (forall a t, In a l -> R a t -> NoDup (g t) /\ forall x, In x (g t) -> P a x) ->
  (forall a b x, In a l -> In b l -> P a x -> P b x -> a = b) ->
  NoDup (flat_map g ts).
Proof.
  induction 1 as [|a t l ts Hat HF IH]; intros Hnd Hspec Hdisj; simpl;
    [constructor|].
  inversion Hnd as [|? ? Hnotin Hnd']; subst.
  destruct (Hspec a t (or_introl eq_refl) Hat) as [Hnt HPt].
  apply NoDup_app.
  - exact Hnt.
  - apply IH; auto.
    + intros b u Hb. apply Hspec. now right.
    + intros b c x Hb Hc. apply Hdisj; now right.
  - intros x Hx Hx'. apply in_flat_map in Hx'. destruct Hx' as (u & Hu & Hxu).
    destruct (Forall2_In_r _ _ _ _ HF Hu) as (b & Hb & Hbu).
    destruct (Hspec b u (or_intror Hb) Hbu) as [_ HPu].
    assert (a = b) by (apply (Hdisj a b x); auto; [now left | now right]).
    subst b. contradiction.
Qed.

Lemma id_inj categories c d :
  NoDup (map id categories) -> In c categories -> In d categories ->
  id c = id d -> c = d.
Proof.
  intros Hnd Hc Hd E. pose proof (find_cat_In _ _ Hnd Hc) as Fc.
  pose proof (find_cat_In _ _ Hnd Hd) as Fd. rewrite E in Fc. congruence.
Qed.

Lemma children_of_In categories k d :
  In d (children_of categories k)
  <-> In d categories /\ parent_of categories d = Some k.
Proof.
  unfold children_of, is_child_of. rewrite filter_In. split.
  - intros [Hd Hp]. split; [exact Hd|].
    destruct (parent_of categories d) as [q|]; [|discriminate].
    apply String.eqb_eq in Hp. now subst.
  - intros [Hd ->]. split; [exact Hd | apply String.eqb_refl].
Qed.

Lemma up_child categories d k j x :
  NoDup (map id categories) -> In d categories ->
  parent_of categories d = Some k ->
  up categories j x = Some (id d) -> up categories (S j) x = Some k.
Proof.
  intros Hnd Hd Hp Hj. replace (S j) with (j + 1) by lia.
  now rewrite up_add, Hj, (up_1 _ _ Hnd Hd).
Qed.

Lemma read_tree_spec categories :
  NoDup (map id categories) -> acyclic categories ->
  forall fuel c,
    In c categories ->
    (forall x j, up categories j x = Some (id c) -> j < fuel) ->
    exists t,
      read_tree fuel (heap_after categories categories) (id c) = Some t
      /\ root_of t = c
      /\ NoDup (flatten t)
      /\ forall x, In x (flatten t) <-> below categories (id c) x.
Proof.
  intros Hnd Hac. induction fuel as [|fuel IH]; intros c Hc Hbound.
  - exfalso. specialize (Hbound (id c) 0). simpl in Hbound.
    rewrite (has_id_In _ _ Hc) in Hbound. specialize (Hbound eq_refl). lia.
  - assert (Hkids : forall d, In d (children_of categories (id c)) ->
               exists t,
                 read_tree fuel (heap_after categories categories) (id d) = Some t
                 /\ root_of t = d /\ NoDup (flatten t)
                 /\ forall x, In x (flatten t) <-> below categories (id d) x).
    { intros d Hd. apply children_of_In in Hd. destruct Hd as [Hd Hp].
      apply IH; [exact Hd|]. intros x j Hj.
      pose proof (up_child _ _ _ _ _ Hnd Hd Hp Hj) as HS.
      apply Hbound in HS. lia. }
    destruct (mapM_all (read_tree fuel (heap_after categories categories)) id
                (children_of categories (id c))) as (ts & Hts & HF).
    { intros d Hd. destruct (Hkids d Hd) as (t & Ht & _). eauto. }
    exists (TNode c ts). cbn [read_tree].
    rewrite map_get_heap, (find_cat_In _ _ Hnd Hc). cbn [option_map children cat].
    fold (children_of categories (id c)). rewrite Hts. cbn [option_map].
    split; [reflexivity|]. split; [reflexivity|].
    assert (Hsub : forall d t, In d (children_of categories (id c)) ->
               read_tree fuel (heap_after categories categories) (id d) = Some t ->
               NoDup (flatten t)
               /\ forall x, In x (flatten t) -> below categories (id d) x).
    { intros d t Hd Ht. destruct (Hkids d Hd) as (t' & Ht' & _ & Hn & Hm).
      assert (t' = t) by congruence. subst t'. split; [exact Hn|].
      intros x. apply Hm. }
    assert (Hin : forall x, In x (flat_map flatten ts) <->
               exists d, In d (children_of categories (id c))
                         /\ below categories (id d) x).
    { intros x. rewrite in_flat_map. split.
      - intros (t & Ht & Hx).
        destruct (Forall2_In_r _ _ _ _ HF Ht) as (d & Hd & Hdt).
        exists d. split; [exact Hd|]. now apply (Hsub d t).
      - intros (d & Hd & Hx).
        destruct (Forall2_In_l _ _ _ _ HF Hd) as (t & Ht & Hdt).
        exists t. split; [exact Ht|].
        destruct (Hkids d Hd) as (t' & Ht' & _ & _ & Hm).
        assert (t' = t) by congruence. subst t'. now apply Hm. }
    split.
    + cbn [flatten]. constructor.
      * intros Habs. apply Hin in Habs. destruct Habs as (d & Hd & _ & j & Hj).
        apply children_of_In in Hd. destruct Hd as [Hd Hp].
        exact (Hac _ _ (up_child _ _ _ _ _ Hnd Hd Hp Hj)).
      * apply (NoDup_flat_map_keys
                 (fun d t => read_tree fuel (heap_after categories categories)
                                       (id d) = Some t)
                 flatten (fun d x => below categories (id d) x)
                 (children_of categories (id c)) ts HF).
        -- apply NoDup_filter. now apply NoDup_map_inv in Hnd.
        -- exact Hsub.
        -- intros d e x Hd He (_ & j1 & H1) (_ & j2 & H2).
           apply children_of_In in Hd, He.
           destruct Hd as [Hd Hpd]. destruct He as [He Hpe].
           pose proof (up_child _ _ _ _ _ Hnd Hd Hpd H1) as U1.
           pose proof (up_child _ _ _ _ _ Hnd He Hpe H2) as U2.
           pose proof (level_unique _ _ _ _ _ Hac U1 U2) as E.
           injection E as E. subst j2.
           apply (id_inj categories); auto. congruence.
    + intros x. cbn [flatten In]. rewrite Hin. split.
      * intros [<- | (d & Hd & Hx & j & Hj)].
        -- split; [exact Hc|]. exists 0. simpl.
           now rewrite (has_id_In _ _ Hc).
        -- apply children_of_In in Hd. destruct Hd as [Hd Hp].
           split; [exact Hx|]. exists (S j).
           exact (up_child _ _ _ _ _ Hnd Hd Hp Hj).
      * intros (Hx & j & Hj). destruct j as [|j].
        -- left. apply up_0 in Hj. apply (id_inj categories); auto.
        -- right. replace (S j) with (j + 1) in Hj by lia.
           rewrite up_add in Hj.
           destruct (up categories j (id x)) as [y|] eqn:Ey; [|discriminate].
           destruct (proj1 (has_id_find categories y)) as [d Hd].
           { now apply (up_has _ _ _ _ Ey). }
           destruct (find_cat_Some _ _ _ Hd) as [Hdin <-].
           rewrite (up_1 _ _ Hnd Hdin) in Hj.
           exists d. split; [apply children_of_In; now split|].
           split; [exact Hx | now exists j].
Qed.

(** *** Roots and children in the words of the claim *)

Lemma truthy_str_iff s : truthy_str s = true <-> s <> "".
Proof.
  destruct s; simpl; split; congruence.
Qed.

Lemma parent_of_iff categories c p :
  parent_of categories c = Some p
  <-> parent_id c = Some p /\ p <> "" /\ In p (map id categories).
Proof.
  unfold parent_of. rewrite <- has_id_ids, <- truthy_str_iff.
  destruct (parent_id c) as [q|].
  - destruct (truthy_str q && has_id categories q) eqn:E.
    + apply andb_true_iff in E. destruct E as [E1 E2]. split.
      * intros [= <-]. auto.
      * intros ([= <-] & _). reflexivity.
    + split; [discriminate|]. intros ([= <-] & H1 & H2).
      rewrite H1, H2 in E. discriminate.
  - split; [discriminate | intros ([=] & _)].
Qed.

Lemma is_root_iff categories c :
  is_root categories c = true
  <-> parent_id c = None \/ parent_id c = Some ""
      \/ exists p, parent_id c = Some p /\ ~ In p (map id categories).
Proof.
  unfold is_root. destruct (parent_of categories c) as [p|] eqn:Hp.
  - apply parent_of_iff in Hp. destruct Hp as (Hpid & Hne & Hin).
    split; [discriminate|]. rewrite Hpid.
    intros [H | [H | (q & H & Hq)]]; [discriminate | |];
      injection H as H; subst; contradiction.
  - split; [|reflexivity]. intros _.
    destruct (parent_id c) as [q|] eqn:Hq; [|now left]. right.
    destruct (String.eqb_spec q "") as [->|Hne]; [now left|]. right.
    exists q. split; [reflexivity|]. intros Hin.
    assert (Hsome : parent_of categories c = Some q)
      by (apply parent_of_iff; auto).
    congruence.
Qed.

Lemma Forall2_roots {B} (R : Category -> B -> Prop) (h : B -> Category) l ts :
  Forall2 R l ts -> (forall a t, R a t -> h t = a) -> map h ts = l.
Proof.
  induction 1 as [|a t l ts Hat _ IH]; intros Hh; simpl; [reflexivity|].
  now rewrite (Hh _ _ Hat), IH.
Qed.

Lemma NoDup_ids_filter (f : Category -> bool) categories :
  NoDup (map id categories) -> NoDup (map id (filter f categories)).
Proof.
  induction categories as [|d cs IH]; intros Hnd; simpl; [constructor|].
  inversion Hnd as [|? ? Hnotin Hnd']; subst.
  destruct (f d); [|now apply IH]. simpl. constructor; [|now apply IH].
  intros Hin. apply Hnotin. apply in_map_iff in Hin.
  destruct Hin as (e & He & Hin). apply filter_In in Hin.
  rewrite <- He. apply in_map. now destruct Hin.
Qed.

(** The forest read from the roots of an acyclic list. *)
Lemma forest_of_acyclic categories :
  NoDup (map id categories) -> acyclic categories ->
  exists forest,
    mapM (read_tree (List.length categories) (heap_after categories categories))
         (map id (roots categories)) = Some forest
    /\ map root_of forest = roots categories
    /\ Permutation (flatten_forest forest) categories.
Proof.
  intros Hnd Hac.
  assert (Hndc : NoDup categories) by now apply NoDup_map_inv in Hnd.
  set (n := List.length categories).
  set (H := heap_after categories categories).
  assert (Htree : forall r, In r (roots categories) ->
             exists t, read_tree n H (id r) = Some t /\ root_of t = r
                       /\ NoDup (flatten t)
                       /\ forall x, In x (flatten t) <-> below categories (id r) x).
  { intros r Hr. apply filter_In in Hr. destruct Hr as [Hr _].
    apply (read_tree_spec _ Hnd Hac n r Hr).
    intros x j Hj. exact (level_bound _ _ _ _ Hac Hj). }
  destruct (mapM_all (read_tree n H) id (roots categories)) as (forest & Hf & HF).
  { intros r Hr. destruct (Htree r Hr) as (t & Ht & _). eauto. }
  exists forest. split; [exact Hf|].
  assert (Hsame : forall r t, In r (roots categories) ->
             read_tree n H (id r) = Some t ->
             root_of t = r /\ NoDup (flatten t)
             /\ forall x, In x (flatten t) <-> below categories (id r) x).
  { intros r t Hr Ht. destruct (Htree r Hr) as (t' & Ht' & Hroot & Hn & Hm).
    assert (t' = t) by congruence. now subst t'. }
  split.
  - clear - HF Hsame. revert HF Hsame. generalize (roots categories) as l.
    intros l HF. induction HF as [|r t l ts Hrt _ IH]; intros Hsame;
      [reflexivity|].
    simpl. destruct (Hsame r t (or_introl eq_refl) Hrt) as [-> _].
    f_equal. apply IH. intros r' t' Hr'. apply Hsame. now right.
  - unfold flatten_forest. apply NoDup_Permutation; [|exact Hndc|].
    + apply (NoDup_flat_map_keys
               (fun r t => read_tree n H (id r) = Some t) flatten
               (fun r x => In r (roots categories) /\ below categories (id r) x)
               (roots categories) forest HF).
      * now apply NoDup_filter.
      * intros r t Hr Ht. destruct (Hsame r t Hr Ht) as (_ & Hn & Hm).
        split; [exact Hn|]. intros x Hx. split; [exact Hr | now apply Hm].
      * intros r1 r2 x _ _ [Hr1 (_ & j1 & H1)] [Hr2 (_ & j2 & H2)].
        apply filter_In in Hr1, Hr2.
        destruct Hr1 as [Hin1 Hroot1]. destruct Hr2 as [Hin2 Hroot2].
        assert (Hend : forall r j, In r categories ->
                   is_root categories r = true ->
                   up categories j (id x) = Some (id r) ->
                   up categories (S j) (id x) = None).
        { intros r j Hr Hroot Hj. replace (S j) with (j + 1) by lia.
          rewrite up_add, Hj, (up_1 _ _ Hnd Hr). unfold is_root in Hroot.
          now destruct (parent_of categories r). }
        pose proof (Hend _ _ Hin1 Hroot1 H1) as E1.
        pose proof (Hend _ _ Hin2 Hroot2 H2) as E2.
        assert (j1 = j2).
        { destruct (Nat.lt_trichotomy j1 j2) as [Hlt|[Heq|Hgt]]; [|exact Heq|].
          - exfalso.
            apply (up_prefix categories (S j1) j2 (id x));
              [lia | congruence | exact E1].
          - exfalso.
            apply (up_prefix categories (S j2) j1 (id x));
              [lia | congruence | exact E2]. }
        subst j2. apply (id_inj categories); auto. congruence.
    + intros x. rewrite in_flat_map. split.
      * intros (t & Ht & Hx).
        destruct (Forall2_In_r _ _ _ _ HF Ht) as (r & Hr & Hrt).
        destruct (Hsame r t Hr Hrt) as (_ & _ & Hm).
        destruct (proj1 (Hm x) Hx) as [Hx' _]. exact Hx'.
      * intros Hx.
        destruct (reaches_a_root _ _ Hnd Hac Hx) as (j & r & Hj & Hr & Hroot).
        assert (Hrr : In r (roots categories)) by (apply filter_In; auto).
        destruct (Forall2_In_l _ _ _ _ HF Hrr) as (t & Ht & Hrt).
        exists t. split; [exact Ht|].
        destruct (Hsame r t Hrr Hrt) as (_ & _ & Hm).
        apply Hm. split; [exact Hx | now exists j].
Qed.


(** *** Deciding acyclicity *)

Lemma reaches_root_ends categories fuel k :
  reaches_root categories fuel k = true -> up categories (S fuel) k = None.
Proof.
  revert k. induction fuel as [|fuel IH]; intros k; cbn [reaches_root up].
  - destruct (find_cat categories k) as [c|]; [|reflexivity].
    destruct (parent_of categories c); [discriminate | reflexivity].
  - destruct (find_cat categories k) as [c|]; [|reflexivity].
    destruct (parent_of categories c) as [p|]; [|reflexivity].
    intros H. apply IH in H. exact H.
Qed.

Lemma up_cycle categories j k m :
  up categories (S j) k = Some k -> up categories (m * S j) k = Some k.
Proof.
  intros Hc. induction m as [|m IH].
  - simpl. destruct (up_has _ _ _ _ Hc) as [-> _]. reflexivity.
  - cbn [Nat.mul]. now rewrite up_add, Hc.
Qed.

Lemma acyclicb_sound categories :
  acyclicb categories = true -> acyclic categories.
Proof.
  unfold acyclicb. rewrite forallb_forall. intros Hall k j Hc.
  destruct (up_has _ _ _ _ Hc) as [Hk _].
  apply has_id_find in Hk. destruct Hk as [c Hfind].
  destruct (find_cat_Some _ _ _ Hfind) as [Hin <-].
  pose proof (reaches_root_ends _ _ _ (Hall c Hin)) as Hend.
  apply (up_prefix categories (S (List.length categories))
           (S (List.length categories) * S j) (id c)).
  - nia.
  - rewrite (up_cycle _ _ _ _ Hc). discriminate.
  - exact Hend.
Qed.

Lemma reaches_root_mono categories fuel fuel' k :
  fuel <= fuel' -> reaches_root categories fuel k = true ->
  reaches_root categories fuel' k = true.
Proof.
  revert fuel' k. induction fuel as [|fuel IH]; intros fuel' k Hle;
    destruct fuel' as [|fuel']; try lia; cbn [reaches_root];
    destruct (find_cat categories k) as [c|]; try discriminate;
    destruct (parent_of categories c) as [p|]; try discriminate; auto.
  apply IH. lia.
Qed.

Lemma reaches_root_up categories j k r :
  NoDup (map id categories) -> In r categories ->
  is_root categories r = true ->
  up categories j k = Some (id r) -> reaches_root categories j k = true.
Proof.
  intros Hnd Hr Hroot. revert k. induction j as [|j IH]; intros k Hj.
  - apply up_0 in Hj. subst k. cbn [reaches_root].
    rewrite (find_cat_In _ _ Hnd Hr). unfold is_root in Hroot.
    now destruct (parent_of categories r).
  - cbn [up] in Hj. cbn [reaches_root].
    destruct (find_cat categories k) as [c|]; [|discriminate].
    destruct (parent_of categories c) as [p|]; [|discriminate].
    now apply IH.
Qed.

(** For distinct ids [acyclicb] decides [acyclic]. *)
Lemma acyclicb_complete categories :
  NoDup (map id categories) -> acyclic categories ->
  acyclicb categories = true.
Proof.
  intros Hnd Hac. unfold acyclicb. apply forallb_forall. intros c Hc.
  destruct (reaches_a_root _ _ Hnd Hac Hc) as (j & r & Hj & Hr & Hroot).
  apply (reaches_root_mono categories j).
  - pose proof (level_bound _ _ _ _ Hac Hj). lia.
  - now apply (reaches_root_up categories j (id c) r).
Qed.



End CategoryTree.

(** ** EditCategory.tsx: the parents offered by the edit form *)

Section EditParent.
Import Js Eff EditCategory.
Local Open Scope list_scope.

Lemma selected_others u k x :
  selected category_col [Eq "user_id" u; Neq "id" k] x
  = (user_id x =? u)%string && negb (id x =? k)%string.
Proof.
  unfold selected, holds, category_col. simpl. now rewrite andb_true_r.
Qed.

Lemma filter_absent_id cs k :
  ~ In k (map id cs) -> filter (fun x => (id x =? k)%string) cs = [].
Proof.
  induction cs as [|e cs IH]; intros Hk; [reflexivity|]. simpl.
  destruct (String.eqb_spec (id e) k) as [E|_].
  - exfalso. apply Hk. now left.
  - apply IH. intros H. apply Hk. now right.
Qed.

Lemma filter_by_id cs c :
  NoDup (map id cs) -> In c cs ->
  filter (selected category_col [Eq "id" (id c)]) cs = [c].
Proof.
  intros Hnd Hin.
  rewrite (filter_ext _ (fun x => (id x =? id c)%string))
    by (intros x; apply selected_id).
  induction cs as [|d cs IH]; [contradiction|].
  inversion Hnd as [|? ? Hnotin Hnd']; subst. simpl.
  destruct Hin as [-> | Hin].
  - rewrite String.eqb_refl. f_equal. now apply filter_absent_id.
  - destruct (String.eqb_spec (id d) (id c)) as [E|_].
    + exfalso. apply Hnotin. rewrite E. now apply in_map.
    + now apply IH.
Qed.

Lemma execute_select_category d c :
  NoDup (map id (categories d)) -> In c (categories d) ->
  execute (select_category (id c)) d = (d, ok_rows [c]).
Proof.
  intros Hnd Hin. unfold execute, select_category.
  cbn [table verb filters single]. rewrite String.eqb_refl. cbv iota.
  now rewrite (filter_by_id _ _ Hnd Hin).
Qed.

Lemma execute_select_others d u k :
  execute (select_others u k) d = (d, ok_rows (others_of u k (categories d))).
Proof.
  unfold execute, select_others, others_of.
  cbn [table verb filters single]. rewrite String.eqb_refl. cbv iota.
  f_equal. f_equal. apply filter_ext. intros x. apply selected_others.
Qed.

Lemma execute_update_category d k u :
  execute (update_category k u) d
  = ({| categories := map (fun x => if (id x =? k)%string
                                    then apply_updates u x else x)
                          (categories d);
        products := products d |}, ok_empty).
Proof.
  unfold execute, update_category.
  cbn [table verb filters single]. rewrite String.eqb_refl. cbv iota.
  f_equal. f_equal. apply map_ext. intros x. now rewrite selected_id.
Qed.

(** [fetchData] on a category of the current user, when the backend does not
    fail: the form is loaded and the dropdown filled. *)
Lemma fetchData_loaded w user c :
  truthy_str (id c) = true ->
  auth_getUser w = Returned (Some user, None) ->
  (forall i, nth i (failures w) None = None) ->
  NoDup (map id (categories (db w))) -> In c (categories (db w)) ->
  user_id c = uid user ->
  let w' := snd (fetchData (Some (id c)) w) in
  db w' = db w
  /\ category (ui w') = Some c
  /\ dropdown (ui w')
     = validParentCategories (others_of (uid user) (id c) (categories (db w))) c
  /\ form_parent_id (formData (ui w'))
     = match parent_id c with Some p => p | None => "" end
  /\ auth_getUser w' = auth_getUser w
  /\ (forall i, nth i (failures w') None = None).
Proof.
  intros Hk Hauth Hfail Hnd Hin Hown. cbv zeta.
  unfold fetchData. rewrite Hk. cbn [negb].
  fold (select_category (id c)). fold (select_others (uid user) (id c)).
  unfold try_finally, try_catch, bind, setLoading, setError, setCategory,
    setCategories, setFormData, navigate, modify, await_getUser.
  cbn [with_ui auth_getUser]. rewrite Hauth.
  cbn [fst snd throw_if ret].
  rewrite await_query_eq.
  cbn [failures with_ui db issued auth_getUser ui]. rewrite Hfail.
  rewrite (execute_select_category _ _ Hnd Hin).
  cbn [fst snd error ok_rows data throw_if ret].
  rewrite Hown, String.eqb_refl. cbn [negb].
  rewrite await_query_eq.
  cbn [failures with_ui db issued auth_getUser ui]. rewrite nth_tl, Hfail.
  change {| table := "categories"; verb := Select;
            filters := [Eq "user_id" (uid user); Neq "id" (id c)];
            single := false |} with (select_others (uid user) (id c)).
  rewrite execute_select_others.
  cbn [fst snd error ok_rows data throw_if ret with_ui db ui auth_getUser
       failures category dropdown formData form_parent_id set_loading].
  do 4 (split; [reflexivity|]). split; [congruence|].
  intros i. now rewrite !nth_tl.
Qed.

Lemma handleSubmit_saved w user k now :
  truthy_str k = true ->
  auth_getUser w = Returned (Some user, None) ->
  (forall i, nth i (failures w) None = None) ->
  let u := {| upd_name := form_name (formData (ui w));
              upd_parent_id :=
                if truthy_str (form_parent_id (formData (ui w)))
                then Some (form_parent_id (formData (ui w))) else None;
              upd_updated_at := now |} in
  categories (db (snd (handleSubmit (Some k) now w)))
  = map (fun x => if (id x =? k)%string then apply_updates u x else x)
        (categories (db w)).
Proof.
  intros Hk Hauth Hfail. cbv zeta.
  unfold handleSubmit. rewrite Hk. cbn [negb].
  unfold try_catch, bind, setLoading, setError, navigate, modify,
    await_getUser, get.
  cbn [with_ui auth_getUser ui formData]. rewrite Hauth.
  cbn [fst snd throw_if ret formData ui form_name form_parent_id set_loading].
  rewrite await_query_eq.
  cbn [failures with_ui db issued auth_getUser ui]. rewrite Hfail.
  match goal with
  | |- context [execute {| table := _; verb := Update ?u; filters := _;
                           single := _ |} _] =>
      change {| table := "categories"; verb := Update u;
                filters := [Eq "id" k]; single := false |}
        with (update_category k u)
  end.
  rewrite execute_update_category. reflexivity.
Qed.

Lemma validParentCategories_In all c x :
  In x (validParentCategories all c)
  <-> In x all /\ id x <> id c /\ parent_id x <> Some (id c).
Proof.
  unfold validParentCategories. rewrite filter_In, andb_true_iff,
    !negb_true_iff, String.eqb_neq.
  destruct (parent_id x) as [p|].
  - rewrite String.eqb_neq. split.
    + intros (Hx & Hid & Hp). repeat split; auto. congruence.
    + intros (Hx & Hid & Hp). repeat split; auto. congruence.
  - split.
    + intros (Hx & Hid & _). repeat split; auto. discriminate.
    + intros (Hx & Hid & _). repeat split; auto.
Qed.

Lemma others_of_In u k cs x :
  In x (others_of u k cs) <-> In x cs /\ user_id x = u /\ id x <> k.
Proof.
  unfold others_of. rewrite filter_In, andb_true_iff, negb_true_iff,
    String.eqb_eq, String.eqb_neq. tauto.
Qed.

(** C5, as amended. When a category of the current user is opened for
    editing and the backend does not fail, the parents offered are exactly
    the user's other categories that are not direct children of the edited
    one. So after a parent is picked from the dropdown and saved, the edited
    category has that parent, which is another category and whose own parent
    is not the edited category: the form cannot make a category its own
    parent, nor the child of one of its direct children. *)
Theorem edit_form_excludes_self_and_children (w : World) (user : User)
    (c : Category) (now : string) :
  truthy_str (id c) = true ->
  auth_getUser w = Returned (Some user, None) ->
  (forall i, nth i (failures w) None = None) ->
  NoDup (map id (categories (db w))) -> In c (categories (db w)) ->
  user_id c = uid user ->
  let w1 := snd (fetchData (Some (id c)) w) in
  (forall x, In x (dropdown (ui w1)) <->
             In x (categories (db w)) /\ user_id x = uid user
             /\ id x <> id c /\ parent_id x <> Some (id c))
  /\ (forall p,
        p <> "" -> selectable (ui w1) p = true ->
        let w3 := snd (handleSubmit (Some (id c)) now
                         (snd (handleChange_parent p w1))) in
        exists x edited,
          In x (categories (db w)) /\ id x = p /\ p <> id c
          /\ parent_id x <> Some (id c)
          /\ In x (categories (db w3))
          /\ In edited (categories (db w3))
          /\ id edited = id c /\ parent_id edited = Some p).
Proof.
  intros Hk Hauth Hfail Hnd Hin Hown w1.
  destruct (fetchData_loaded w user c Hk Hauth Hfail Hnd Hin Hown)
    as (Hdb & _ & Hdrop & _ & Hauth1 & Hfail1).
  fold w1 in Hdb, Hdrop, Hauth1, Hfail1.
  assert (Hoffer : forall x, In x (dropdown (ui w1)) <->
             In x (categories (db w)) /\ user_id x = uid user
             /\ id x <> id c /\ parent_id x <> Some (id c)).
  { intros x. rewrite Hdrop, validParentCategories_In, others_of_In. tauto. }
  split; [exact Hoffer|].
  intros p Hp Hsel w3. unfold selectable in Hsel.
  apply orb_true_iff in Hsel. destruct Hsel as [Hsel | Hsel].
  { apply String.eqb_eq in Hsel. contradiction. }
  apply existsb_exists in Hsel. destruct Hsel as (x & Hx & Hid).
  apply String.eqb_eq in Hid. apply Hoffer in Hx.
  destruct Hx as (Hxin & _ & Hne & Hpar).
  set (w2 := snd (handleChange_parent p w1)).
  assert (Hw2 : db w2 = db w1 /\ auth_getUser w2 = auth_getUser w1
                /\ failures w2 = failures w1
                /\ form_parent_id (formData (ui w2)) = p) by (repeat split).
  destruct Hw2 as (Hdb2 & Hauth2 & Hfail2 & Hform).
  assert (Hcats : categories (db w3)
                  = map (fun y => if (id y =? id c)%string
                                  then apply_updates
                                         {| upd_name := form_name (formData (ui w2));
                                            upd_parent_id := Some p;
                                            upd_updated_at := now |} y
                                  else y)
                        (categories (db w))).
  { unfold w3. fold w2. rewrite (handleSubmit_saved w2 user (id c) now Hk).
    - rewrite Hform, Hdb2, Hdb.
      replace (truthy_str p) with true; [reflexivity|].
      symmetry. destruct p; [contradiction | reflexivity].
    - congruence.
    - intros i. rewrite Hfail2. apply Hfail1. }
  exists x. eexists. split; [exact Hxin|]. split; [exact Hid|].
  split; [congruence|]. split; [exact Hpar|]. split; [|split; [|split]].
  - rewrite Hcats. apply in_map_iff. exists x.
    apply String.eqb_neq in Hne. rewrite Hne. split; [reflexivity | exact Hxin].
  - rewrite Hcats. apply in_map_iff. exists c.
    rewrite String.eqb_refl. split; [reflexivity | exact Hin].
  - reflexivity.
  - reflexivity.
Qed.

(** C5 as stated fails: with categories [a], [b] under [a] and [c] under [b],
    the form that edits [a] offers [c], a descendant of [a]; picking it and
    saving makes [a] its own ancestor. *)
Lemma edit_form_introduces_cycle :
  let w1 := snd (fetchData (Some "a") chain_world) in
  let w3 := snd (handleSubmit (Some "a") "2024-07-01T00:00:00Z"
                   (snd (handleChange_parent "c" w1))) in
  acyclic (categories (db chain_world))
  /\ up (categories (db chain_world)) 2 "c" = Some "a"
  /\ map id (dropdown (ui w1)) = ["c"]
  /\ selectable (ui w1) "c" = true
  /\ up (categories (db w3)) 3 "a" = Some "a"
  /\ ~ acyclic (categories (db w3)).
Proof.
  split; [apply acyclicb_sound; reflexivity|].
  split; [reflexivity|]. split; [reflexivity|]. split; [reflexivity|].
  split; [reflexivity|].
  intros H. exact (H "a" 2%nat eq_refl).
Qed.

Lemma edit_form_excludes_self_and_children_witness :
  In (category_of "c" (Some "b") "u1")
     (dropdown (ui (snd (fetchData (Some "a") chain_world))))
  /\ ~ In (category_of "b" (Some "a") "u1")
          (dropdown (ui (snd (fetchData (Some "a") chain_world)))).
Proof.
  destruct (edit_form_excludes_self_and_children chain_world
              {| uid := "u1" |} (category_of "a" None "u1")
              "2024-07-01T00:00:00Z") as [H _].
  - reflexivity.
  - reflexivity.
  - intros [|[|i]]; reflexivity.
  - repeat constructor; simpl; intuition discriminate.
  - simpl. auto.
  - reflexivity.
  - split.
    + apply H. simpl. repeat split; auto; discriminate.
    + intros Hb. apply H in Hb. destruct Hb as (_ & _ & _ & Hp).
      apply Hp. reflexivity.
Defined.

End EditParent.

(** ** src/lib/utils/index.ts: [chunkArray] and [uniqueBy] *)

Section ArrayHelpers.
Import UtilsHelpers.
Local Open Scope Z_scope.
Local Open Scope list_scope.

Lemma firstn_beyond {A} (n : nat) (l : list A) :
  firstn (Nat.min n (List.length l)) l = firstn n l.
Proof.
  destruct (Nat.le_ge_cases n (List.length l)) as [H | H].
  - now rewrite Nat.min_l.
  - rewrite Nat.min_r by assumption.
    now rewrite !firstn_all2 by lia.
Qed.

Lemma slice_chunk {T} (array : list T) (i size : Z) :
  0 <= i -> 0 < size ->
  slice array i (i + size)
  = firstn (Z.to_nat size) (skipn (Z.to_nat i) array).
Proof.
  intros Hi Hs. unfold slice.
  destruct (i <? 0) eqn:E1; [apply Z.ltb_lt in E1; lia |].
  destruct (i + size <? 0) eqn:E2; [apply Z.ltb_lt in E2; lia |].
  set (len := Z.of_nat (List.length array)).
  destruct (Z.le_gt_cases i len) as [H | H].
  - rewrite (Z.min_l i len) by assumption.
    rewrite <- (firstn_beyond (Z.to_nat size)).
    f_equal. rewrite length_skipn. subst len. lia.
  - rewrite (Z.min_r i len) by lia.
    rewrite (Z.min_r (i + size) len) by lia.
    rewrite !skipn_all2 by (subst len; lia).
    now rewrite !firstn_nil.
Qed.

Lemma chunk_loop_spec {T} (array : list T) (size : Z) :
  0 < size ->
  forall fuel i acc,
    0 <= i ->
    Z.max 0 (Z.of_nat (List.length array) - i) < Z.of_nat fuel ->
    exists rest,
      chunk_loop fuel array size i acc = Some (acc ++ rest)
      /\ List.concat rest = skipn (Z.to_nat i) array
      /\ Forall (fun c => c <> [] /\ Z.of_nat (List.length c) <= size) rest
      /\ (forall j, (S j < List.length rest)%nat ->
                    Z.of_nat (List.length (nth j rest [])) = size)
      /\ Z.of_nat (List.length rest)
         = (Z.max 0 (Z.of_nat (List.length array) - i) + size - 1) / size.
Proof.
  intros Hs. induction fuel as [| fuel IH]; intros i acc Hi Hfuel.
  - lia.
  - cbn [chunk_loop].
    destruct (i <? Z.of_nat (List.length array)) eqn:E.
    + apply Z.ltb_lt in E.
      destruct (IH (i + size) (acc ++ [slice array i (i + size)]))
        as (rest & Hrun & Hcat & Hall & Hfull & Hlen); [lia | lia |].
      rewrite slice_chunk in * by lia.
      set (c := firstn (Z.to_nat size) (skipn (Z.to_nat i) array)) in *.
      assert (Hc : List.length c = Nat.min (Z.to_nat size)
                                           (List.length array - Z.to_nat i)).
      { subst c. now rewrite length_firstn, length_skipn. }
      exists (c :: rest). split; [| split; [| split; [| split]]].
      * rewrite Hrun. now rewrite <- app_assoc.
      * cbn [List.concat]. rewrite Hcat.
        replace (Z.to_nat (i + size)) with (Z.to_nat size + Z.to_nat i)%nat
          by lia.
        rewrite <- skipn_skipn. subst c. apply firstn_skipn.
      * constructor; [| exact Hall]. split.
        -- intros Hnil. rewrite Hnil in Hc. cbn in Hc. lia.
        -- lia.
      * intros [| j] Hj; cbn [nth List.length] in *.
        -- assert (0 < Z.of_nat (List.length rest)) by lia.
           rewrite Hlen in H.
           destruct (Z.le_gt_cases (Z.of_nat (List.length array) - (i + size)) 0)
             as [Hle | Hgt].
           ++ rewrite Z.max_l in H by lia.
              replace (0 + size - 1) with (size - 1) in H by lia.
              rewrite Z.div_small in H by lia. lia.
           ++ lia.
        -- apply Hfull. lia.
      * cbn [List.length]. rewrite Nat2Z.inj_succ, Hlen.
        rewrite (Z.max_r 0 (Z.of_nat (List.length array) - i)) by lia.
        destruct (Z.le_gt_cases (Z.of_nat (List.length array) - (i + size)) 0)
          as [Hle | Hgt].
        -- rewrite Z.max_l by lia.
           replace (0 + size - 1) with (size - 1) by lia.
           rewrite (Z.div_small (size - 1)) by lia.
           apply Z.div_unique with
             (r := Z.of_nat (List.length array) - i - 1); lia.
        -- rewrite Z.max_r by lia.
           replace (Z.of_nat (List.length array) - i + size - 1)
             with (Z.of_nat (List.length array) - (i + size) + size - 1
                   + 1 * size) by lia.
           rewrite Z.div_add by lia. lia.
    + apply Z.ltb_ge in E. exists []. split; [| split; [| split; [| split]]].
      * now rewrite app_nil_r.
      * cbn. symmetry. apply skipn_all2. lia.
      * constructor.
      * cbn. lia.
      * cbn [List.length]. rewrite Z.max_l by lia.
        replace (0 + size - 1) with (size - 1) by lia.
        rewrite Z.div_small; lia.
Qed.

Lemma chunk_loop_stuck {T} (array : list T) (size : Z) :
  size <= 0 -> array <> [] ->
  forall fuel i acc, i <= 0 -> chunk_loop fuel array size i acc = None.
Proof.
  intros Hs Hne. induction fuel as [| fuel IH]; intros i acc Hi.
  - reflexivity.
  - cbn [chunk_loop].
    destruct (i <? Z.of_nat (List.length array)) eqn:E.
    + apply IH. lia.
    + apply Z.ltb_ge in E. destruct array; [congruence | cbn in E; lia].
Qed.

(** X1. [chunkArray(array, size)] with a positive [size] returns: the
    chunks are consecutive pieces of the array, none is empty, all but the
    last hold exactly [size] elements, and there are
    [ceil(array.length / size)] of them. *)
Theorem chunkArray_partition {T} (array : list T) (size : Z) (fuel : nat) :
  0 < size -> (List.length array < fuel)%nat ->
  exists chunks,
    chunkArray fuel array size = Some chunks
    /\ List.concat chunks = array
    /\ Forall (fun c => c <> [] /\ Z.of_nat (List.length c) <= size) chunks
    /\ (forall j, (S j < List.length chunks)%nat ->
                  Z.of_nat (List.length (nth j chunks [])) = size)
    /\ Z.of_nat (List.length chunks)
       = (Z.of_nat (List.length array) + size - 1) / size.
Proof.
  intros Hs Hfuel.
  destruct (chunk_loop_spec array size Hs fuel 0 []) as
    (rest & Hrun & Hcat & Hall & Hfull & Hlen); [lia | lia |].
  exists rest. unfold chunkArray. rewrite Hrun.
  split; [reflexivity |]. split; [exact Hcat |]. split; [exact Hall |].
  split; [exact Hfull |].
  rewrite Hlen. rewrite Z.sub_0_r. now rewrite Z.max_r by lia.
Qed.

Lemma chunkArray_partition_witness :
  exists chunks,
    chunkArray 6 [1; 2; 3; 4; 5]%nat 2 = Some chunks
    /\ List.concat chunks = [1; 2; 3; 4; 5]%nat
    /\ Forall (fun c => c <> [] /\ Z.of_nat (List.length c) <= 2) chunks
    /\ (forall j, (S j < List.length chunks)%nat ->
                  Z.of_nat (List.length (nth j chunks [])) = 2)
    /\ Z.of_nat (List.length chunks)
       = (Z.of_nat (List.length [1; 2; 3; 4; 5]%nat) + 2 - 1) / 2.
Proof.
  apply (chunkArray_partition [1; 2; 3; 4; 5]%nat 2 6); [lia | cbn; lia].
Defined.

(** X2. [chunkArray(array, size)] with [size <= 0] and a non-empty array
    never leaves its loop: the index never reaches [array.length]. *)
Theorem chunkArray_diverges {T} (array : list T) (size : Z) :
  size <= 0 -> array <> [] ->
  forall fuel, chunkArray fuel array size = None.
Proof.
  intros Hs Hne fuel. unfold chunkArray.
  now apply chunk_loop_stuck.
Qed.

Lemma chunkArray_diverges_witness :
  0 <= 0 /\ [1; 2; 3]%nat <> []
  /\ forall fuel, chunkArray fuel [1; 2; 3]%nat 0 = None.
Proof.
  split; [lia |]. split; [discriminate |].
  apply (chunkArray_diverges [1; 2; 3]%nat 0); [lia | discriminate].
Defined.

End ArrayHelpers.

Section UniqueByHelpers.
Import UtilsHelpers.
Local Open Scope list_scope.

Context {T V : Type}.
Variable same : V -> V -> bool.
Hypothesis same_spec : forall a b, same a b = true <-> a = b.
Variable key : T -> V.

Lemma seen_has_In seen v : seen_has same seen v = true <-> In v seen.
Proof.
  unfold seen_has. rewrite existsb_exists. split.
  - intros (x & Hx & E). apply same_spec in E. now subst.
  - intros H. exists v. split; [assumption | now apply same_spec].
Qed.

Lemma seen_has_app seen seen' v :
  seen_has same (seen ++ seen') v
  = seen_has same seen v || seen_has same seen' v.
Proof. unfold seen_has. apply existsb_app. Qed.

Lemma filter_unseen_ext seen1 seen2 array :
  (forall v, seen_has same seen1 v = seen_has same seen2 v) ->
  filter_unseen same key seen1 array = filter_unseen same key seen2 array.
Proof.
  revert seen1 seen2. induction array as [| item rest IH]; intros s1 s2 H.
  - reflexivity.
  - cbn [filter_unseen]. cbv zeta. rewrite (H (key item)).
    destruct (seen_has same s2 (key item)).
    + now apply IH.
    + f_equal. apply IH. intros v. now rewrite !seen_has_app, H.
Qed.

Lemma filter_filter {A} (f g : A -> bool) l :
  filter f (filter g l) = filter (fun x => g x && f x) l.
Proof.
  induction l as [| a l IH]; [reflexivity |]. cbn.
  destruct (g a); cbn; [destruct (f a) |]; now rewrite IH.
Qed.

(** Starting with more values in [seen] filters the result further. *)
Lemma filter_unseen_more array :
  forall seen' seen,
    filter_unseen same key (seen' ++ seen) array
    = filter (fun x => negb (seen_has same seen' (key x)))
             (filter_unseen same key seen array).
Proof.
  induction array as [| item rest IH]; intros seen' seen.
  - reflexivity.
  - cbn [filter_unseen]. cbv zeta. rewrite seen_has_app.
    destruct (seen_has same seen (key item)) eqn:E1.
    + rewrite orb_true_r. apply IH.
    + rewrite orb_false_r.
      destruct (seen_has same seen' (key item)) eqn:E2.
      * cbn [filter]. rewrite E2. cbn [negb].
        rewrite (filter_unseen_ext (seen ++ [key item]) ([key item] ++ seen))
          by (intros v; rewrite !seen_has_app; apply orb_comm).
        rewrite (IH [key item] seen), filter_filter, (IH seen' seen).
        apply filter_ext. intros x.
        destruct (seen_has same seen' (key x)) eqn:E3;
          [now rewrite andb_false_r |].
        destruct (seen_has same [key item] (key x)) eqn:E4; [| reflexivity].
        apply seen_has_In in E4. destruct E4 as [E4 | []].
        rewrite <- E4 in E3. congruence.
      * cbn [filter]. rewrite E2. cbn [negb]. f_equal.
        rewrite <- app_assoc. apply IH.
Qed.

Lemma filter_unseen_app seen pre post :
  filter_unseen same key seen (pre ++ post)
  = filter_unseen same key seen pre
    ++ filter_unseen same key (seen ++ map key pre) post.
Proof.
  revert seen. induction pre as [| item rest IH]; intros seen.
  - cbn. now rewrite app_nil_r.
  - cbn [app filter_unseen map]. cbv zeta.
    destruct (seen_has same seen (key item)) eqn:E.
    + rewrite IH. f_equal. apply filter_unseen_ext. intros v.
      rewrite !seen_has_app. cbn [map]. 
      change (key item :: map key rest) with ([key item] ++ map key rest).
      rewrite seen_has_app.
      destruct (seen_has same seen v) eqn:E1; [reflexivity |]. cbn [orb].
      destruct (seen_has same [key item] v) eqn:E2; [| reflexivity].
      apply seen_has_In in E2. destruct E2 as [E2 | []]. subst v. congruence.
    + cbn [app]. f_equal. rewrite IH. f_equal.
      now rewrite <- app_assoc.
Qed.

Lemma filter_unseen_keys seen array :
  NoDup (map key (filter_unseen same key seen array))
  /\ (forall x, In x (filter_unseen same key seen array) ->
                In x array /\ ~ In (key x) seen)
  /\ (forall x, In x array ->
                In (key x) seen
                \/ In (key x) (map key (filter_unseen same key seen array))).
Proof.
  revert seen. induction array as [| item rest IH]; intros seen.
  - cbn. split; [constructor |]. split; [intros x [] | intros x []].
  - cbn [filter_unseen]. cbv zeta.
    destruct (seen_has same seen (key item)) eqn:E.
    + destruct (IH seen) as (Hnd & Hin & Hcov).
      split; [exact Hnd |]. split.
      * intros x Hx. destruct (Hin x Hx). split; [now right | assumption].
      * intros x [<- | Hx]; [left; now apply seen_has_In | now apply Hcov].
    + destruct (IH (seen ++ [key item])) as (Hnd & Hin & Hcov).
      assert (Hnot : ~ In (key item) seen).
      { intros H. apply seen_has_In in H. congruence. }
      split; [| split].
      * cbn [map]. constructor; [| exact Hnd].
        intros H. apply in_map_iff in H. destruct H as (x & Hk & Hx).
        destruct (Hin x Hx) as [_ Hn]. apply Hn. apply in_or_app. right.
        rewrite Hk. now left.
      * intros x [<- | Hx]; [split; [now left | assumption] |].
        destruct (Hin x Hx) as [H1 H2]. split; [now right |].
        intros H. apply H2. apply in_or_app. now left.
      * intros x [<- | Hx]; [right; now left |].
        destruct (Hcov x Hx) as [H | H].
        -- apply in_app_or in H. destruct H as [H | [H | []]];
             [now left | right; left; now symmetry].
        -- right. now right.
Qed.

Lemma filter_unseen_distinct seen array :
  NoDup (map key array) ->
  (forall x, In x array -> ~ In (key x) seen) ->
  filter_unseen same key seen array = array.
Proof.
  revert seen. induction array as [| item rest IH]; intros seen Hnd Hout.
  - reflexivity.
  - cbn [filter_unseen]. cbv zeta.
    destruct (seen_has same seen (key item)) eqn:E.
    + apply seen_has_In in E. exfalso. apply (Hout item); [now left | exact E].
    + f_equal. inversion Hnd as [| ? ? Hni Hnd']; subst.
      apply IH; [assumption |]. intros x Hx H.
      apply in_app_or in H. destruct H as [H | [H | []]].
      * apply (Hout x); [now right | exact H].
      * apply Hni. rewrite H. now apply in_map.
Qed.

(** X3. [uniqueBy] keeps, in order, the first item of each key: the keys of
    the result are distinct and are those of the array, an item is kept
    exactly when no earlier item has its key, and a second pass changes
    nothing. *)
Theorem uniqueBy_first_of_each_key (array : list T) :
  NoDup (map key (uniqueBy same array key))
  /\ (forall v, In v (map key (uniqueBy same array key))
                <-> In v (map key array))
  /\ (forall pre item post,
        array = pre ++ item :: post ->
        uniqueBy same array key
        = uniqueBy same pre key
          ++ (if seen_has same (map key pre) (key item) then [] else [item])
          ++ filter (fun x => negb (seen_has same (map key (pre ++ [item]))
                                             (key x)))
                    (uniqueBy same post key))
  /\ uniqueBy same (uniqueBy same array key) key = uniqueBy same array key.
Proof.
  unfold uniqueBy.
  destruct (filter_unseen_keys [] array) as (Hnd & Hin & Hcov).
  split; [exact Hnd |]. split; [| split].
  - intros v. split.
    + intros H. apply in_map_iff in H. destruct H as (x & <- & Hx).
      apply in_map. now apply Hin.
    + intros H. apply in_map_iff in H. destruct H as (x & <- & Hx).
      destruct (Hcov x Hx) as [[] | H]. exact H.
  - intros pre item post ->.
    rewrite filter_unseen_app. f_equal. cbn [app].
    cbn [filter_unseen]. cbv zeta.
    replace (map key (pre ++ [item])) with ((map key pre ++ [key item]) ++ [])
      by (now rewrite app_nil_r, map_app).
    rewrite <- filter_unseen_more. rewrite !app_nil_r.
    destruct (seen_has same (map key pre) (key item)) eqn:E; [| reflexivity].
    cbn [app]. apply filter_unseen_ext. intros v. rewrite seen_has_app.
    destruct (seen_has same (map key pre) v) eqn:E1; [reflexivity |].
    destruct (seen_has same [key item] v) eqn:E2; [| reflexivity].
    apply seen_has_In in E2. destruct E2 as [E2 | []]. subst v. congruence.
  - apply filter_unseen_distinct; [exact Hnd | intros x _ []].
Qed.

End UniqueByHelpers.

Section UniqueByWitness.
Import UtilsHelpers.
Local Open Scope list_scope.

Lemma uniqueBy_first_of_each_key_witness :
  (forall a b, String.eqb a b = true <-> a = b)
  /\ uniqueBy String.eqb (uniqueBy String.eqb sample_rows fst) fst
     = uniqueBy String.eqb sample_rows fst
  /\ uniqueBy String.eqb sample_rows fst = [("a", 1); ("b", 2); ("c", 5)]%nat.
Proof.
  split; [apply String.eqb_eq |]. split; [| reflexivity].
  apply (uniqueBy_first_of_each_key String.eqb String.eqb_eq fst sample_rows).
Defined.

End UniqueByWitness.

(** ** src/lib/utils/index.ts: [pick] and [omit] *)

Section ObjectHelpers.
Import UtilsHelpers.
Local Open Scope list_scope.

Context {V : Type}.

Lemma prop_get_set (k k' : string) (v : V) o :
  prop_get k (prop_set k' v o)
  = if (k' =? k)%string then Some v else prop_get k o.
Proof.
  induction o as [| [k0 v0] o IH]; cbn.
  - reflexivity.
  - destruct (k0 =? k')%string eqn:E; cbn.
    + apply String.eqb_eq in E. subst k0.
      now destruct (k' =? k)%string.
    + rewrite IH. destruct (k0 =? k)%string eqn:E1; [| reflexivity].
      apply String.eqb_eq in E1. subst k0.
      now rewrite (String.eqb_sym k' k), E.
Qed.

Lemma prop_get_delete (k k' : string) (o : @Props V) :
  prop_get k (prop_delete k' o)
  = if (k' =? k)%string then None else prop_get k o.
Proof.
  unfold prop_delete.
  induction o as [| [k0 v0] o IH]; cbn [filter fst prop_get].
  - now destruct (k' =? k)%string.
  - destruct (k0 =? k')%string eqn:E; cbn [negb prop_get].
    + apply String.eqb_eq in E. subst k0. rewrite IH.
      now destruct (k' =? k)%string.
    + rewrite IH. destruct (k0 =? k)%string eqn:E1; [| reflexivity].
      apply String.eqb_eq in E1. subst k0.
      now rewrite (String.eqb_sym k' k), E.
Qed.

Lemma pick_from (o : @Props V) keys k :
  forall acc,
    prop_get k
      (fold_left (fun acc key =>
                    match prop_get key o with
                    | Some v => prop_set key v acc
                    | None => acc
                    end) keys acc)
    = if existsb (String.eqb k) keys
      then match prop_get k o with
           | Some v => Some v
           | None => prop_get k acc
           end
      else prop_get k acc.
Proof.
  induction keys as [| key keys IH]; intros acc.
  - reflexivity.
  - cbn [fold_left existsb]. rewrite IH.
    destruct (k =? key)%string eqn:E.
    + apply String.eqb_eq in E. subst key. cbn [orb].
      destruct (prop_get k o) eqn:Ek.
      * rewrite prop_get_set, String.eqb_refl.
        now destruct (existsb (String.eqb k) keys).
      * now destruct (existsb (String.eqb k) keys).
    + cbn [orb].
      assert (Hacc : prop_get k match prop_get key o with
                                | Some v => prop_set key v acc
                                | None => acc
                                end = prop_get k acc).
      { destruct (prop_get key o); [| reflexivity].
        rewrite prop_get_set. now rewrite String.eqb_sym, E. }
      now rewrite Hacc.
Qed.

Lemma omit_from keys k :
  forall o : @Props V,
    prop_get k (fold_left (fun result key => prop_delete key result) keys o)
    = if existsb (String.eqb k) keys then None else prop_get k o.
Proof.
  induction keys as [| key keys IH]; intros o.
  - reflexivity.
  - cbn [fold_left existsb]. rewrite IH, prop_get_delete.
    rewrite (String.eqb_sym key k).
    destruct (k =? key)%string; cbn [orb].
    + now destruct (existsb (String.eqb k) keys).
    + reflexivity.
Qed.


End ObjectHelpers.

(** ** src/lib/utils/index.ts: [truncate] and [getFileExtension] *)

Section StringHelpers.
Import UtilsHelpers.
Local Open Scope list_scope.

Lemma substring_prefix (s : JsString) (n : Z) :
  substring s 0 n = firstn (Z.to_nat n) s.
Proof.
  unfold substring.
  set (len := Z.of_nat (List.length s)).
  set (b := Z.min (Z.max n 0) len).
  assert (Hlen : (0 <= len)%Z) by (subst len; lia).
  replace (Z.min (Z.max 0 0) len) with 0%Z by lia.
  replace (Z.min 0 b) with 0%Z by (subst b; lia).
  replace (Z.max 0 b - 0)%Z with b by (subst b; lia).
  cbn [Z.to_nat skipn].
  destruct (Z.le_gt_cases n len) as [Hl | Hl].
  - f_equal. subst b. lia.
  - replace (Z.to_nat b) with (List.length s) by (subst b len; lia).
    rewrite firstn_all. symmetry. apply firstn_all2. subst len. lia.
Qed.

(** X5. [truncate] returns a string of at most [length] code units as it
    is; a longer one becomes its first [length] code units (none for a
    negative [length]) followed by the suffix, so that the result is
    [max(length, 0) + suffix.length] long. *)
Theorem truncate_cuts_then_appends (str : JsString) (length : Z)
    (suffix : JsString) :
  ((Z.of_nat (List.length str) <= length)%Z ->
   truncate str length suffix = str)
  /\ ((length < Z.of_nat (List.length str))%Z ->
      truncate str length suffix = firstn (Z.to_nat length) str ++ suffix
      /\ Z.of_nat (List.length (truncate str length suffix))
         = (Z.max length 0 + Z.of_nat (List.length suffix))%Z).
Proof.
  unfold truncate. split; intros H.
  - destruct (Z.of_nat (List.length str) >? length)%Z eqn:E; [| reflexivity].
    apply Z.gtb_lt in E. lia.
  - destruct (Z.of_nat (List.length str) >? length)%Z eqn:E.
    + rewrite substring_prefix. split; [reflexivity |].
      rewrite length_app, length_firstn. lia.
    + rewrite Z.gtb_ltb in E. apply Z.ltb_ge in E. lia.
Qed.

Lemma split_nonempty sep s : split sep s <> [].
Proof.
  destruct s as [| c s]; cbn; [discriminate |].
  destruct (c =? sep)%N; [discriminate |].
  destruct (split sep s); discriminate.
Qed.

Lemma split_app sep a b :
  split sep (a ++ sep :: b) = split sep a ++ split sep b.
Proof.
  induction a as [| c a IH]; cbn [app split].
  - now rewrite N.eqb_refl.
  - rewrite IH. destruct (c =? sep)%N; [reflexivity |].
    destruct (split sep a) eqn:E; [now apply split_nonempty in E |].
    reflexivity.
Qed.

Lemma split_whole sep s : ~ In sep s -> split sep s = [s].
Proof.
  induction s as [| c s IH]; intros H; cbn [split]; [reflexivity |].
  destruct (c =? sep)%N eqn:E.
  - apply N.eqb_eq in E. subst c. exfalso. apply H. now left.
  - rewrite IH; [reflexivity |]. intros Hin. apply H. now right.
Qed.

Lemma pop_app {A} (l : list A) (a : A) : pop (l ++ [a]) = Some a.
Proof.
  induction l as [| b l IH]; [reflexivity |].
  cbn [app pop]. rewrite IH. destruct (l ++ [a]) eqn:E; [| reflexivity].
  now destruct l.
Qed.

(** X6. [getFileExtension] returns, in lower case, what follows the last
    dot of the name; for a name without a dot that is the whole name. *)
Theorem getFileExtension_after_last_dot (toLowerCase : JsString -> JsString)
    (base ext : JsString) :
  ~ In dot ext ->
  getFileExtension toLowerCase (base ++ dot :: ext) = toLowerCase ext
  /\ getFileExtension toLowerCase ext = toLowerCase ext.
Proof.
  intros H. unfold getFileExtension.
  rewrite split_app, (split_whole dot ext H), pop_app. cbn [pop].
  now destruct (toLowerCase ext).
Qed.

Lemma getFileExtension_after_last_dot_witness :
  ~ In dot (code_units "JPG")
  /\ getFileExtension SupabaseUtils.ascii_toLowerCase
       (code_units "holiday.photo.JPG") = code_units "jpg"
  /\ getFileExtension SupabaseUtils.ascii_toLowerCase (code_units "JPG")
     = code_units "jpg".
Proof.
  assert (H : ~ In dot (code_units "JPG")).
  { cbn. unfold dot. intros [E | [E | [E | []]]]; discriminate. }
  split; [exact H |].
  exact (getFileExtension_after_last_dot SupabaseUtils.ascii_toLowerCase
           (code_units "holiday.photo") (code_units "JPG") H).
Defined.

End StringHelpers.

(** ** src/lib/utils/index.ts: [validateEmail] and [validatePhone] *)

Section Validation.
Import UtilsHelpers.
Local Open Scope list_scope.

Lemma Lang_seq r1 r2 s :
  Lang (Seq r1 r2) s
  <-> exists s1 s2, s = s1 ++ s2 /\ Lang r1 s1 /\ Lang r2 s2.
Proof.
  split.
  - intros H. inversion H; subst. eauto.
  - intros (s1 & s2 & -> & H1 & H2). now constructor.
Qed.

Lemma Lang_class p s : Lang (Class p) s <-> exists c, s = [c] /\ p c = true.
Proof.
  split.
  - intros H. inversion H; subst. eauto.
  - intros (c & -> & H). now constructor.
Qed.

Lemma Lang_alt r1 r2 s : Lang (Alt r1 r2) s <-> Lang r1 s \/ Lang r2 s.
Proof.
  split.
  - intros H. inversion H; subst; [now left | now right].
  - intros [H | H]; [now apply LAltL | now apply LAltR].
Qed.

Lemma nullable_Lang r : nullable r = true <-> Lang r [].
Proof.
  induction r as [| | p | r1 IH1 r2 IH2 | r1 IH1 r2 IH2 | r IH];
    cbn [nullable].
  - split; [discriminate | intros H; inversion H].
  - split; [constructor | reflexivity].
  - split; [discriminate | intros H; inversion H].
  - rewrite andb_true_iff, IH1, IH2, Lang_seq. split.
    + intros [H1 H2]. now exists [], [].
    + intros (s1 & s2 & E & H1 & H2). symmetry in E.
      apply app_eq_nil in E. destruct E; subst. now split.
  - now rewrite orb_true_iff, IH1, IH2, Lang_alt.
  - split; [constructor | reflexivity].
Qed.

Lemma star_cons_inv r c s :
  Lang (Star r) (c :: s) ->
  exists s1 s2, s = s1 ++ s2 /\ Lang r (c :: s1) /\ Lang (Star r) s2.
Proof.
  intros H. remember (Star r) as r0 eqn:Er. remember (c :: s) as s0 eqn:Es.
  revert s Es.
  induction H as [| | | | | | r' s1 s2 H1 _ H2 IH2]; try discriminate.
  injection Er as ->. intros s Es.
  destruct s1 as [| c1 s1].
  - cbn in Es. now apply IH2.
  - cbn in Es. injection Es as -> <-. now exists s1, s2.
Qed.

Lemma derive_Lang r : forall c s, Lang (derive c r) s <-> Lang r (c :: s).
Proof.
  induction r as [| | p | r1 IH1 r2 IH2 | r1 IH1 r2 IH2 | r IH];
    intros c s; cbn [derive].
  - split; intros H; inversion H.
  - split; intros H; inversion H.
  - rewrite (Lang_class p (c :: s)). destruct (p c) eqn:E; split.
    + intros H. inversion H; subst. now exists c.
    + intros (c' & Hc & _). injection Hc as <- ->. constructor.
    + intros H. inversion H.
    + intros (c' & Hc & Hp). injection Hc as <- ->. congruence.
  - assert (Hleft : forall s, Lang (Seq (derive c r1) r2) s ->
                              Lang (Seq r1 r2) (c :: s)).
    { intros s0 H. apply Lang_seq in H. destruct H as (s1 & s2 & -> & H1 & H2).
      apply IH1 in H1. change (c :: s1 ++ s2) with ((c :: s1) ++ s2).
      now constructor. }
    assert (Hinv : Lang (Seq r1 r2) (c :: s) ->
                   Lang (Seq (derive c r1) r2) s
                   \/ (Lang r1 [] /\ Lang (derive c r2) s)).
    { intros H. apply Lang_seq in H. destruct H as (s1 & s2 & E & H1 & H2).
      destruct s1 as [| c1 s1]; cbn in E.
      - subst s2. right. split; [assumption | now apply IH2].
      - injection E as <- ->. left. constructor; [now apply IH1 | assumption]. }
    destruct (nullable r1) eqn:En.
    + rewrite Lang_alt. split.
      * intros [H | H]; [now apply Hleft |].
        change (c :: s) with ([] ++ c :: s). constructor.
        -- now apply nullable_Lang.
        -- now apply IH2.
      * intros H. destruct (Hinv H) as [H' | [_ H']]; [now left | now right].
    + split; [apply Hleft |].
      intros H. destruct (Hinv H) as [H' | [H' _]]; [assumption |].
      apply nullable_Lang in H'. congruence.
  - now rewrite !Lang_alt, IH1, IH2.
  - split.
    + intros H. apply Lang_seq in H. destruct H as (s1 & s2 & -> & H1 & H2).
      change (c :: s1 ++ s2) with ((c :: s1) ++ s2).
      constructor; [now apply IH | assumption].
    + intros H. apply star_cons_inv in H.
      destruct H as (s1 & s2 & -> & H1 & H2).
      constructor; [now apply IH | assumption].
Qed.

Lemma test_Lang s : forall r, test r s = true <-> Lang r s.
Proof.
  induction s as [| c s IH]; intros r; cbn [test].
  - apply nullable_Lang.
  - rewrite IH. apply derive_Lang.
Qed.

Lemma Lang_star_class p s :
  Lang (Star (Class p)) s <-> forallb p s = true.
Proof.
  split.
  - intros H. remember (Star (Class p)) as r eqn:Er.
    induction H as [| | | | | | r' s1 s2 H1 _ H2 IH2]; try discriminate.
    + reflexivity.
    + injection Er as ->. apply Lang_class in H1.
      destruct H1 as (c & -> & Hc). cbn. rewrite Hc. now apply IH2.
  - induction s as [| c s IH]; intros H.
    + constructor.
    + cbn in H. apply andb_true_iff in H. destruct H as [Hc Hs].
      change (c :: s) with ([c] ++ s).
      constructor; [now constructor | now apply IH].
Qed.

Lemma Lang_plus_class p s :
  Lang (plus (Class p)) s <-> s <> [] /\ forallb p s = true.
Proof.
  unfold plus. split.
  - intros H. apply Lang_seq in H. destruct H as (s1 & s2 & -> & H1 & H2).
    apply Lang_class in H1. destruct H1 as (c & -> & Hc).
    apply Lang_star_class in H2. cbn. rewrite Hc. split; [discriminate | exact H2].
  - intros [Hne H]. destruct s as [| c s]; [congruence |].
    cbn in H. apply andb_true_iff in H. destruct H as [Hc Hs].
    change (c :: s) with ([c] ++ s).
    constructor; [now constructor | now apply Lang_star_class].
Qed.

Lemma Lang_at_least p n s :
  Lang (at_least n (Class p)) s
  <-> n <= List.length s /\ forallb p s = true.
Proof.
  revert s. induction n as [| n IH]; intros s; cbn [at_least].
  - rewrite Lang_star_class. split; [intros H; split; [lia | exact H] | tauto].
  - split.
    + intros H. apply Lang_seq in H. destruct H as (s1 & s2 & -> & H1 & H2).
      apply Lang_class in H1. destruct H1 as (c & -> & Hc).
      apply IH in H2. destruct H2 as [Hn Hs]. cbn. rewrite Hc.
      split; [lia | exact Hs].
    + intros [Hn H]. destruct s as [| c s]; [cbn in Hn; lia |].
      cbn in H, Hn. apply andb_true_iff in H. destruct H as [Hc Hs].
      change (c :: s) with ([c] ++ s).
      constructor; [now constructor |]. apply IH. split; [lia | exact Hs].
Qed.

(** X7. [validateEmail] accepts exactly the strings of the form
    [local@domain.tld] in which the three parts are non-empty and hold no
    white space and no [@]; the parts may themselves hold dots. *)
Theorem validateEmail_shape (email : JsString) :
  validateEmail email = true
  <-> exists local domain tld,
        email = local ++ at_sign :: domain ++ dot :: tld
        /\ local <> [] /\ domain <> [] /\ tld <> []
        /\ Forall (fun c => SupabaseUtils.is_space c = false /\ c <> at_sign)
                  (local ++ domain ++ tld).
Proof.
  assert (Hok : forall s,
            forallb not_space_or_at s = true
            <-> Forall (fun c => SupabaseUtils.is_space c = false
                                 /\ c <> at_sign) s).
  { intros s. rewrite forallb_forall, Forall_forall.
    split; intros H c Hc; specialize (H c Hc); unfold not_space_or_at in *.
    - apply negb_true_iff, orb_false_iff in H. destruct H as [H1 H2].
      split; [exact H1 | now apply N.eqb_neq].
    - destruct H as [H1 H2]. apply negb_true_iff, orb_false_iff.
      split; [exact H1 | now apply N.eqb_neq]. }
  unfold validateEmail, email_pattern. rewrite test_Lang. split.
  - intros H.
    apply Lang_seq in H. destruct H as (l & s1 & -> & Hl & H).
    apply Lang_seq in H. destruct H as (a & s2 & -> & Ha & H).
    apply Lang_seq in H. destruct H as (d & s3 & -> & Hd & H).
    apply Lang_seq in H. destruct H as (o & t & -> & Ho & Ht).
    apply Lang_class in Ha. destruct Ha as (c & -> & Hc).
    apply N.eqb_eq in Hc. subst c.
    apply Lang_class in Ho. destruct Ho as (c & -> & Hc).
    apply N.eqb_eq in Hc. subst c.
    apply Lang_plus_class in Hl, Hd, Ht.
    destruct Hl as [Hl1 Hl2], Hd as [Hd1 Hd2], Ht as [Ht1 Ht2].
    exists l, d, t. split; [reflexivity |].
    split; [assumption |]. split; [assumption |]. split; [assumption |].
    apply Hok. now rewrite !forallb_app, Hl2, Hd2, Ht2.
  - intros (l & d & t & -> & Hl & Hd & Ht & Hall).
    apply Hok in Hall. rewrite !forallb_app in Hall.
    apply andb_true_iff in Hall. destruct Hall as [Hl2 Hall].
    apply andb_true_iff in Hall. destruct Hall as [Hd2 Ht2].
    constructor; [now apply Lang_plus_class |].
    change (at_sign :: d ++ dot :: t) with ([at_sign] ++ d ++ [dot] ++ t).
    constructor; [constructor; apply N.eqb_refl |].
    constructor; [now apply Lang_plus_class |].
    constructor; [constructor; apply N.eqb_refl |].
    now apply Lang_plus_class.
Qed.

(** X8. [validatePhone] accepts exactly the strings that, after one
    optional leading [+], consist of at least ten code units, each a digit,
    a white space or a hyphen; no digit is required. *)
Theorem validatePhone_shape (phone : JsString) :
  validatePhone phone
  = (let body := match phone with
                 | c :: rest => if (c =? plus_sign)%N then rest else phone
                 | [] => phone
                 end in
     (10 <=? List.length body)%nat && forallb phone_char body).
Proof.
  cbv zeta. apply eq_true_iff_eq.
  unfold validatePhone, phone_pattern. rewrite test_Lang.
  rewrite andb_true_iff, Nat.leb_le, Lang_seq. split.
  - intros (s1 & s2 & -> & H1 & H2).
    apply Lang_at_least in H2. destruct H2 as [Hn Hs].
    apply Lang_alt in H1. destruct H1 as [Hp | He].
    + apply Lang_class in Hp. destruct Hp as (c & -> & Hc).
      apply N.eqb_eq in Hc. subst c. cbn [app].
      rewrite N.eqb_refl. now split.
    + inversion He; subst. cbn [app].
      destruct s2 as [| c s2]; [now split |].
      destruct (c =? plus_sign)%N eqn:E; [| now split].
      apply N.eqb_eq in E. subst c. cbn in Hs. discriminate.
  - intros [Hn Hs]. destruct phone as [| c rest].
    + cbn in Hn. lia.
    + destruct (c =? plus_sign)%N eqn:E.
      * apply N.eqb_eq in E. subst c. exists [plus_sign], rest.
        split; [reflexivity |]. split.
        -- apply LAltL. constructor. apply N.eqb_refl.
        -- now apply Lang_at_least.
      * exists [], (c :: rest). split; [reflexivity |]. split.
        -- apply LAltR. constructor.
        -- now apply Lang_at_least.
Qed.

End Validation.

(** ** [debounce] and [throttle] over runs of calls *)

Section TimerRuns.
Import Utils.
Local Open Scope Z_scope.
Local Open Scope list_scope.

Context {A : Type}.

Lemma debounce_owns_kept (rt : Runtime A) :
  debounce_owns_timers rt -> kept_by_debounce rt = [].
Proof.
  intros [_ [[Ht Hv] | (t & Ht & Hv & Hh)]]; unfold kept_by_debounce;
    rewrite Hv, Ht.
  - reflexivity.
  - destruct (handle t) as [| h] eqn:E; [lia |].
    cbn. rewrite E, Nat.eqb_refl. reflexivity.
Qed.

Lemma debounce_moment_owns wait (rt : Runtime A) m :
  debounce_owns_timers rt -> debounce_owns_timers (debounce_moment wait rt m).
Proof.
  intros H. destruct m as [args | ms]; cbn [debounce_moment].
  - destruct (debounced_effect wait args rt) as (Ht & Hv & _ & _).
    rewrite (debounce_owns_kept rt H) in Ht. destruct H as [Hn _].
    split.
    + unfold debounced.
      destruct (timeout rt) as [h |]; [destruct (negb (h =? 0)%nat) |];
        cbn; lia.
    + right. exists (new_timer (CallFunc args) wait rt).
      split; [exact Ht |]. split; [exact Hv | exact Hn].
  - exact H.
Qed.

Lemma debounce_run_owns wait run :
  forall rt : Runtime A, debounce_owns_timers rt ->
             debounce_owns_timers (fold_left (debounce_moment wait) run rt).
Proof.
  induction run as [| m run IH]; intros rt H; [exact H |].
  cbn [fold_left]. apply IH. now apply debounce_moment_owns.
Qed.

Lemma debounce_run_invoked wait run :
  forall rt : Runtime A,
    invoked (fold_left (debounce_moment wait) run rt) = invoked rt.
Proof.
  induction run as [| m run IH]; intros rt; [reflexivity |].
  cbn [fold_left]. rewrite IH. destruct m as [args | ms]; [| reflexivity].
  now destruct (debounced_effect wait args rt) as (_ & _ & Hi & _).
Qed.

Lemma duration_from (run : list (Moment A)) :
  forall t,
    fold_left (fun t m => match m with
                          | Pause ms => t + Z.max 0 ms
                          | Call _ => t
                          end) run t
    = t + duration run.
Proof.
  unfold duration. induction run as [| m run IH]; intros t.
  - cbn. lia.
  - cbn [fold_left]. rewrite IH, (IH (match m with
                                         | Pause ms => 0 + Z.max 0 ms
                                         | Call _ => 0
                                         end)).
    destruct m; lia.
Qed.

Lemma debounce_run_clock wait run :
  forall rt : Runtime A,
    clock (fold_left (debounce_moment wait) run rt) = clock rt + duration run.
Proof.
  induction run as [| m run IH]; intros rt.
  - cbn. unfold duration. cbn. lia.
  - cbn [fold_left]. rewrite IH. unfold duration at 2. cbn [fold_left].
    rewrite duration_from.
    destruct m as [args | ms].
    + destruct (debounced_effect wait args rt) as (_ & _ & _ & Hc).
      cbn [debounce_moment]. rewrite Hc. lia.
    + cbn. lia.
Qed.

Lemma pauses_keep (step : Runtime A -> Moment A -> Runtime A) gaps :
  (forall rt ms, step rt (Pause ms) = elapse ms rt) ->
  forall rt,
    let rt' := fold_left step (pauses gaps) rt in
    timers rt' = timers rt /\ invoked rt' = invoked rt
    /\ timeout rt' = timeout rt /\ inThrottle rt' = inThrottle rt
    /\ next_handle rt' = next_handle rt
    /\ clock rt <= clock rt'.
Proof.
  intros Hstep. induction gaps as [| ms gaps IH]; intros rt; cbn zeta.
  - cbn. repeat split. lia.
  - cbn [pauses map fold_left]. rewrite Hstep.
    destruct (IH (elapse ms rt)) as (H1 & H2 & H3 & H4 & H5 & H6).
    unfold pauses in *. rewrite H1, H2, H3, H4, H5.
    repeat split. cbn [elapse clock] in H6. lia.
Qed.

(** X9. however many calls of a debounced function came before, a call
    leaves exactly one timer pending, its own; [func] has not run, and when
    that timer fires [func] runs once, with the arguments of this last
    call, [wait] milliseconds after it (later if the host is late). *)
Theorem debounce_last_call_wins (wait : Z) (before : list (Moment A))
    (args : A) (gaps : list Z) :
  let rt := fold_left (debounce_moment wait)
                      (before ++ Call args :: pauses gaps) initial_runtime in
  let due_at := duration before + Z.max 0 wait in
  invoked rt = []
  /\ map callback (timers rt) = [CallFunc args]
  /\ map due (timers rt) = [due_at]
  /\ invoked (fire_next rt) = [(Z.max (clock rt) due_at, args)]
  /\ timers (fire_next rt) = [].
Proof.
  cbv zeta. rewrite fold_left_app. cbn [fold_left debounce_moment].
  set (rt0 := fold_left (debounce_moment wait) before initial_runtime).
  assert (Hown : debounce_owns_timers rt0).
  { apply debounce_run_owns. split; [cbn; lia |]. left. now split. }
  assert (Hinv : invoked rt0 = []) by apply debounce_run_invoked.
  assert (Hclock : clock rt0 = duration before).
  { unfold rt0. rewrite debounce_run_clock. reflexivity. }
  destruct (debounced_effect wait args rt0) as (Ht & Hv & Hi & Hc).
  rewrite (debounce_owns_kept rt0 Hown) in Ht. cbn [app] in Ht.
  destruct (pauses_keep (debounce_moment wait) gaps (fun _ _ => eq_refl)
              (debounced wait args rt0)) as (K1 & K2 & K3 & K4 & K5 & K6).
  cbv zeta in *.
  set (rt := fold_left (debounce_moment wait) (pauses gaps)
                       (debounced wait args rt0)) in *.
  rewrite Ht in K1. rewrite Hi, Hinv in K2.
  split; [exact K2 |]. rewrite K1. unfold new_timer. cbn [map callback due].
  rewrite Hclock.
  split; [reflexivity |]. split; [reflexivity |].
  unfold fire_next. rewrite K1. unfold new_timer.
  cbn [earliest callback handle due run_callback call_func filter negb
       invoked clock timers].
  rewrite Nat.eqb_refl, K2, Hclock. cbn [negb app]. now split.
Qed.

(** X10. a throttled function passes on the first call of a window at
    once and drops every later call of the window; a dropped call is not
    replayed when the window closes, and the first call after that goes
    through. *)
Theorem throttle_drops_until_timer (limit : Z) (args : A)
    (run : list (Moment A)) (next : A) :
  let rt := fold_left (throttle_moment limit) (Call args :: run)
                      initial_runtime in
  invoked rt = [(0, args)]
  /\ inThrottle rt = true
  /\ invoked (fire_next rt) = [(0, args)]
  /\ inThrottle (fire_next rt) = false
  /\ timers (fire_next rt) = []
  /\ invoked (throttled limit next (fire_next rt))
     = [(0, args); (clock (fire_next rt), next)].
Proof.
  cbv zeta. cbn [fold_left throttle_moment].
  set (rt1 := throttled limit args initial_runtime).
  assert (Hkeep : forall (run : list (Moment A)) (rt : Runtime A),
            inThrottle rt = true ->
            let rt' := fold_left (throttle_moment limit) run rt in
            invoked rt' = invoked rt /\ inThrottle rt' = true
            /\ timers rt' = timers rt).
  { clear. induction run as [| m run IH]; intros rt H; cbv zeta.
    - now repeat split.
    - cbn [fold_left]. destruct m as [a | ms]; cbn [throttle_moment].
      + destruct (throttled_effect limit a rt) as [_ Hsame].
        rewrite (Hsame H). now apply IH.
      + destruct (IH (elapse ms rt) H) as (H1 & H2 & H3).
        now rewrite H1, H2, H3. }
  destruct (Hkeep run rt1 eq_refl) as (H1 & H2 & H3). cbv zeta in *.
  set (rt := fold_left (throttle_moment limit) run rt1) in *.
  cbn in H1, H3.
  split; [exact H1 |]. split; [exact H2 |].
  assert (Hf : invoked (fire_next rt) = [(0, args)]
               /\ inThrottle (fire_next rt) = false
               /\ timers (fire_next rt) = []).
  { unfold fire_next. rewrite H3.
    cbn [earliest callback handle due run_callback set_inThrottle filter
         negb invoked clock timers inThrottle].
    rewrite Nat.eqb_refl. cbn [negb]. now rewrite H1. }
  destruct Hf as (F1 & F2 & F3).
  split; [exact F1 |]. split; [exact F2 |]. split; [exact F3 |].
  destruct (throttled_effect limit next (fire_next rt)) as [Hgo _].
  destruct (Hgo F2) as (G1 & _). now rewrite G1, F1.
Qed.

End TimerRuns.

(** ** AuthContext.tsx: the status checks *)

Section SessionChecks.
Import Js Eff AuthContext AuthChecks.
Local Open Scope list_scope.

Lemma getSession_in_force thr now w :
  fst (getSession thr now false w) = Returned (session_in_force thr now w).
Proof.
  unfold session_in_force.
  destruct (auth_getSession w) as [[s err] | e] eqn:Hg.
  - destruct err as [e |].
    + rewrite getSession_failed_lookup by (unfold raised; now rewrite Hg).
      reflexivity.
    + rewrite (getSession_unforced _ _ _ _ Hg). cbn [error data_session].
      now destruct (about_to_expire thr now s).
  - rewrite getSession_failed_lookup by (unfold raised; now rewrite Hg).
    reflexivity.
Qed.

(** X11. [isSessionValid] and [checkEmailConfirmed] never throw. They
    answer for the session [getSession()] ends up with: when the looked-up
    session is about to expire they answer for the refreshed one, so a
    failed refresh makes [isSessionValid] answer false although the
    looked-up session has not expired yet; any SDK error gives false. Before
    [getSession] is installed in the ref, both answer false. *)
Theorem session_checks_follow_getSession (thr now : Z) (w : Sdk) :
  fst (isSessionValid (Some (getSession thr now)) w)
  = Returned (match session_in_force thr now w with
              | Some _ => true
              | None => false
              end)
  /\ fst (checkEmailConfirmed (Some (getSession thr now)) w)
     = Returned (match session_in_force thr now w with
                 | Some s => confirmed (Some (user s))
                 | None => false
                 end)
  /\ fst (isSessionValid (Some getSessionRef_initial) w) = Returned false
  /\ fst (checkEmailConfirmed (Some getSessionRef_initial) w) = Returned false
  /\ (raised (auth_getSession w) = true ->
      session_in_force thr now w = None)
  /\ (forall s e,
        auth_getSession w
        = Returned {| data_session := Some s; error := None |} ->
        expires_at s = Some e -> e <> 0%Z ->
        (now < e * 1000 < now + thr * 1000)%Z ->
        raised (auth_refreshSession w) = true ->
        session_in_force thr now w = None).
Proof.
  pose proof (getSession_in_force thr now w) as Hg.
  split; [| split; [| split; [| split; [| split]]]].
  - unfold isSessionValid, bind, ret.
    destruct (getSession thr now false w) as [o w'] eqn:E.
    cbn [fst] in Hg. subst o.
    now destruct (session_in_force thr now w).
  - unfold checkEmailConfirmed, bind, ret.
    destruct (getSession thr now false w) as [o w'] eqn:E.
    cbn [fst] in Hg. subst o.
    now destruct (session_in_force thr now w).
  - reflexivity.
  - reflexivity.
  - unfold raised, session_in_force.
    destruct (auth_getSession w) as [r | e]; [| reflexivity].
    destruct (error r); [reflexivity | discriminate].
  - intros s e Hget He Hnz Hlt Hfail. unfold session_in_force.
    rewrite Hget. cbn [error data_session].
    assert (Hexp : about_to_expire thr now (Some s) = true).
    { apply about_to_expire_iff. exists s, e. repeat split; auto. lia. }
    rewrite Hexp. unfold refreshed, raised in *.
    destruct (auth_refreshSession w) as [r | e']; [| reflexivity].
    destruct (error r); [reflexivity | discriminate].
Qed.

Lemma session_checks_follow_getSession_witness :
  (1700000000000 < 1700000100 * 1000 < 1700000000000 + 300 * 1000)%Z
  /\ raised (auth_refreshSession failing_sdk) = true
  /\ fst (isSessionValid (Some (getSession 300 1700000000000)) failing_sdk)
     = Returned false.
Proof.
  split; [lia |]. split; [reflexivity |].
  destruct (session_checks_follow_getSession 300 1700000000000 failing_sdk)
    as (H1 & _ & _ & _ & _ & H6).
  rewrite H1.
  rewrite (H6 stale_session 1700000100%Z eq_refl eq_refl); [reflexivity | | |].
  - discriminate.
  - lia.
  - reflexivity.
Defined.

End SessionChecks.

(** ** Running a migration again *)

Section MigrationReruns.
Import Migrations.
Local Open Scope list_scope.

Lemma alter_table_add_present cs t :
  (forall c, In c cs -> has_column (col_name c) (columns t) = true) ->
  alter_table_add cs t = Some t.
Proof.
  induction cs as [| c cs IH]; intros H; [reflexivity |].
  cbn [alter_table_add].
  rewrite add_column_old by (apply H; now left).
  apply IH. intros d Hd. apply H. now right.
Qed.

Lemma alter_table_add_has cs :
  forall t t',
    alter_table_add cs t = Some t' ->
    (forall n, has_column n (columns t) = true ->
               has_column n (columns t') = true)
    /\ (forall c, In c cs -> has_column (col_name c) (columns t') = true).
Proof.
  induction cs as [| c cs IH]; intros t t' H; cbn [alter_table_add] in H.
  - injection H as <-. split; [auto | intros c []].
  - destruct (add_column_if_not_exists c t) as [t1 |] eqn:E; [| discriminate].
    destruct (IH _ _ H) as [Hkeep Hnew]. split.
    + intros n Hn. apply Hkeep. now apply (add_column_keeps c t t1).
    + intros d [<- | Hd]; [| now apply Hnew].
      apply Hkeep. now apply (add_column_has c t t1).
Qed.

(** X15. an [ALTER TABLE ... ADD COLUMN IF NOT EXISTS ...] migration that
    has gone through can be run again: the second run changes nothing. A
    column that was there before the first run, whatever its definition,
    is kept as it was. *)
Theorem migration_rerun_changes_nothing (cs : list Column) (t t1 : Table) :
  alter_table_add cs t = Some t1 ->
  alter_table_add cs t1 = Some t1
  /\ (forall d, In d (columns t) -> In d (columns t1))
  /\ (forall c, In c cs -> has_column (col_name c) (columns t1) = true).
Proof.
  intros H. destruct (alter_table_add_has cs t t1 H) as [_ Hnew].
  split; [now apply alter_table_add_present |]. split; [| exact Hnew].
  clear Hnew. revert t H. induction cs as [| c cs IH]; intros t H d Hd;
    cbn [alter_table_add] in H.
  - now injection H as <-.
  - destruct (add_column_if_not_exists c t) as [t' |] eqn:E; [| discriminate].
    apply (IH t' H). now apply (add_column_keeps_In c t t').
Qed.

Lemma migration_rerun_changes_nothing_witness :
  exists t1,
    alter_table_add add_gpsr_fields_to_products one_product = Some t1
    /\ alter_table_add add_gpsr_fields_to_products t1 = Some t1.
Proof.
  destruct (alter_table_add add_gpsr_fields_to_products one_product)
    as [t1 |] eqn:E; [| vm_compute in E; discriminate E].
  exists t1. split; [reflexivity |].
  exact (proj1 (migration_rerun_changes_nothing
                  add_gpsr_fields_to_products one_product t1 E)).
Defined.

End MigrationReruns.

(** ** AuthContext.tsx: the sign-in and account methods *)

Section AuthMethodsProofs.
Import Js Eff AuthContext AuthMethods.
Local Open Scope list_scope.

Lemma error_only_hands_on c w : hands_on_error (fun e => e) (error_only c) c w.
Proof.
  unfold hands_on_error, error_only, try_catch, bind, await_auth.
  destruct (respond w c) as [a | e]; cbn [fst snd made ret];
    (split; [reflexivity | eexists; split; reflexivity]).
Qed.

Ltac run_auth w :=
  unfold rejection_caught, hands_on_error, signUp, signIn,
    signInWithProvider, signOut, resetPassword, updatePassword,
    sendVerificationEmail, updateUser, verifyEmail, error_only, try_catch,
    bind, await_auth, get, set_user, modify;
  cbn [fst snd origin];
  repeat lazymatch goal with
  | |- _ /\ _ => split
  end;
  try (intros e Hc; rewrite Hc; reflexivity);
  match goal with
  | |- context [respond w ?c] =>
      destruct (respond w c) as [[[u |] s [err |]] | err];
      cbn [fst snd made state error data_user data_session ret setUser
           st_user];
      first [ reflexivity | eexists; split; reflexivity ]
  end.

(** X12. signing up, signing in (with a password or through a provider)
    and verifying an e-mail never throw. Each makes one SDK call and
    resolves to a result whose [error] is the error the SDK reported or
    rejected with; a rejected call gives user and session null. None of them
    sets the context's user. [signInWithProvider] asks to be sent back to
    [origin + homePath]. *)
Theorem sign_in_methods_never_throw (w : World) (email password token
    provider homePath : string) (meta : option UserMetadata) :
  hands_on_error r_error (signUp email password meta)
                 (SignUp email password meta) w
  /\ hands_on_error r_error (signIn email password)
                    (SignInWithPassword email password) w
  /\ hands_on_error r_error (signInWithProvider homePath provider)
                    (SignInWithOAuth provider (origin w ++ homePath)) w
  /\ hands_on_error r_error (verifyEmail token) (VerifyOtp token "email") w
  /\ rejection_caught (signUp email password meta)
                      (SignUp email password meta) w
  /\ rejection_caught (signIn email password)
                      (SignInWithPassword email password) w
  /\ rejection_caught (signInWithProvider homePath provider)
                      (SignInWithOAuth provider (origin w ++ homePath)) w
  /\ rejection_caught (verifyEmail token) (VerifyOtp token "email") w
  /\ state (snd (signUp email password meta w)) = state w
  /\ state (snd (signIn email password w)) = state w
  /\ state (snd (signInWithProvider homePath provider w)) = state w
  /\ state (snd (verifyEmail token w)) = state w.
Proof. run_auth w. Qed.

(** X13. signing out, asking for a password reset, changing the password
    and re-sending the verification e-mail never throw: each makes one SDK
    call and resolves to the error the SDK reported or rejected with, null
    when there is none, and leaves the context's state alone. The reset
    link leads to [origin + '/update-password'], the verification link to
    [origin + '/verify-email']. *)
Theorem account_methods_never_throw (w : World) (email password : string) :
  hands_on_error (fun e => e) signOut SignOut w
  /\ hands_on_error (fun e => e) (resetPassword email)
                    (ResetPasswordForEmail email
                                           (origin w ++ "/update-password")) w
  /\ hands_on_error (fun e => e) (updatePassword password)
                    (UpdateUser None (Some password) None) w
  /\ hands_on_error (fun e => e) (sendVerificationEmail email)
                    (Resend "signup" email (origin w ++ "/verify-email")) w
  /\ state (snd (signOut w)) = state w
  /\ state (snd (resetPassword email w)) = state w
  /\ state (snd (updatePassword password w)) = state w
  /\ state (snd (sendVerificationEmail email w)) = state w.
Proof. run_auth w. Qed.

(** X14. [updateUser] never throws; it makes one SDK call and hands on its
    error. The context's user changes only when the SDK hands a user back,
    and then becomes that user, even when the SDK reports an error with it;
    otherwise, and when the call is rejected, the user stays as it was. The
    loading flag is never touched. *)
Theorem updateUser_sets_returned_user (w : World) (email password :
    option string) (meta : option UserMetadata) :
  hands_on_error r_error (updateUser email password meta)
                 (UpdateUser email password meta) w
  /\ rejection_caught (updateUser email password meta)
                      (UpdateUser email password meta) w
  /\ st_user (state (snd (updateUser email password meta w)))
     = match respond w (UpdateUser email password meta) with
       | Returned {| data_user := Some u |} => Some u
       | _ => st_user (state w)
       end
  /\ st_loading (state (snd (updateUser email password meta w)))
     = st_loading (state w).
Proof. run_auth w. Qed.

End AuthMethodsProofs.

(** ** Categories.tsx: the list page *)

Section CategoriesPageRuns.
Import Js Eff CategoriesPage.
Local Open Scope list_scope.

Lemma selected_user_id u x :
  selected category_col [Eq "user_id" u] x = (user_id x =? u)%string.
Proof.
  unfold selected, holds, category_col. cbn. now rewrite andb_true_r.
Qed.

Lemma execute_select_owned d u :
  execute (select_owned u) d = (d, ok_rows (owned_by u (categories d))).
Proof.
  unfold execute, select_owned, owned_by.
  cbn [table verb filters single]. rewrite String.eqb_refl. cbv iota.
  f_equal. f_equal. apply filter_ext. intros x. apply selected_user_id.
Qed.

Lemma orphan_detach k ref : orphan [k] ref = detach k ref.
Proof.
  destruct ref as [p |]; [| reflexivity]. cbn.
  rewrite orb_false_r. reflexivity.
Qed.

Lemma execute_delete_by_id d c :
  NoDup (map id (categories d)) -> In c (categories d) ->
  execute (delete_by_id (id c)) d = (deleted (id c) d, ok_empty).
Proof.
  intros Hnd Hin. unfold execute, delete_by_id, deleted.
  cbn [table verb filters single]. rewrite String.eqb_refl. cbv iota.
  rewrite (filter_by_id _ _ Hnd Hin). cbn [map].
  f_equal. f_equal.
  - rewrite (filter_ext _ (fun x => negb (id x =? id c)%string))
      by (intros x; now rewrite selected_id).
    apply map_ext. intros x. unfold detach_category.
    now rewrite orphan_detach.
  - apply map_ext. intros p. unfold detach_product.
    now rewrite orphan_detach.
Qed.

(** [fetchCategories] for a signed-in user, when the backend answers. *)
Lemma fetchCategories_loaded w user :
  auth_getUser w = Returned (Some user, None) ->
  nth 0 (failures w) None = None ->
  fetchCategories w
  = (Returned tt,
     {| db := db w; auth_getUser := auth_getUser w;
        failures := tl (failures w); generated := generated w;
        issued := issued w ++ [Sent (select_owned (uid user))];
        ui := {| ui_categories :=
                   buildCategoryGraph
                     (owned_by (uid user) (categories (db w)));
                 newCategory := newCategory (ui w);
                 loading := false;
                 error_text := error_text (ui w);
                 expandedCategories := expandedCategories (ui w) |} |}).
Proof.
  intros Hauth Hfail.
  unfold fetchCategories, try_finally, try_catch, bind, setLoading, setError,
    setCategories, modify, await_getUser, await_request.
  cbn [with_ui auth_getUser]. rewrite Hauth.
  cbn [fst snd throw_if ret failures db issued ui generated auth_getUser
       with_ui]. rewrite Hfail.
  fold (select_owned (uid user)).
  cbn [carry_out db]. rewrite execute_select_owned.
  cbn [fst snd error ok_rows data throw_if ret].
  unfold with_ui, set_loading.
  cbn [db ui auth_getUser failures issued generated ui_categories
       newCategory loading error_text expandedCategories].
  now rewrite Hauth.
Qed.

Lemma NoDup_owned u cs :
  NoDup (map id cs) -> NoDup (map id (owned_by u cs)).
Proof. apply NoDup_ids_filter. Qed.

(** X16. once [fetchCategories] has loaded the list for a signed-in user,
    the parent select of the add form offers, besides the empty choice,
    exactly the user's top-level categories: those whose [parent_id] is
    null, empty, or names none of the user's categories. One request is
    sent, restricted to the user's rows, and the table is left as it was. *)
Theorem list_page_offers_top_level_parents (w : World) (user : User) :
  auth_getUser w = Returned (Some user, None) ->
  nth 0 (failures w) None = None ->
  NoDup (map id (categories (db w))) ->
  let w' := snd (fetchCategories w) in
  let mine := owned_by (uid user) (categories (db w)) in
  parent_options (ui w') = "" :: map id (filter (is_root mine) mine)
  /\ (forall k, In k (parent_options (ui w')) <->
        k = ""
        \/ exists c, In c (categories (db w)) /\ id c = k
                     /\ user_id c = uid user
                     /\ (parent_id c = None \/ parent_id c = Some ""
                         \/ exists p, parent_id c = Some p
                                      /\ ~ In p (map id mine)))
  /\ requested fetchCategories w = [Sent (select_owned (uid user))]
  /\ db w' = db w
  /\ loading (ui w') = false.
Proof.
  intros Hauth Hfail Hnd. cbv zeta.
  unfold requested. rewrite (fetchCategories_loaded w user Hauth Hfail).
  cbn [snd ui db issued loading parent_options ui_categories].
  set (mine := owned_by (uid user) (categories (db w))).
  assert (Hmine : NoDup (map id mine)) by now apply NoDup_owned.
  rewrite (buildCategoryGraph_distinct mine Hmine). cbn [snd]. unfold roots.
  split; [reflexivity |]. split; [| split; [| split]].
  - intros k. cbn [In]. split.
    + intros [<- | H]; [now left | right].
      apply in_map_iff in H. destruct H as (c & <- & Hc).
      apply filter_In in Hc. destruct Hc as [Hc Hroot].
      unfold mine, owned_by in Hc. apply filter_In in Hc.
      destruct Hc as [Hc Hu]. apply String.eqb_eq in Hu.
      exists c. repeat split; try assumption.
      now apply is_root_iff.
    + intros [-> | (c & Hc & <- & Hu & Hroot)]; [now left | right].
      apply in_map. apply filter_In. split.
      * unfold mine, owned_by. apply filter_In. split; [assumption |].
        now apply String.eqb_eq.
      * now apply is_root_iff.
  - apply skipn_length_app.
  - reflexivity.
  - reflexivity.
Qed.

Lemma list_page_offers_top_level_parents_witness :
  parent_options
    (ui (snd (fetchCategories (page_of catalog [] "u1" ("new", "now")))))
  = [""; "home"; "stray"].
Proof.
  destruct (list_page_offers_top_level_parents
              (page_of catalog [] "u1" ("new", "now")) {| uid := "u1" |})
    as (H & _); [reflexivity | reflexivity | |].
  - cbn. repeat constructor; cbn; intuition discriminate.
  - rewrite H. reflexivity.
Defined.

Lemma map_id_detach k cs : map id (map (detach_category k) cs) = map id cs.
Proof. rewrite map_map. now apply map_ext. Qed.

Lemma NoDup_deleted k cs :
  NoDup (map id cs) ->
  NoDup (map id (categories (deleted k {| categories := cs;
                                          products := [] |}))).
Proof.
  intros H. cbn [deleted categories]. rewrite map_id_detach.
  now apply NoDup_ids_filter.
Qed.



Lemma fetchCategories_keeps_db w : db (snd (fetchCategories w)) = db w.
Proof.
  unfold fetchCategories, try_finally, try_catch, bind, setLoading, setError,
    setCategories, modify, await_getUser, await_request.
  cbn [with_ui auth_getUser].
  destruct (auth_getUser w) as [[[user |] [e |]] | e]; try reflexivity.
  cbn [fst snd throw_if ret failures db issued ui generated auth_getUser
       with_ui].
  fold (select_owned (uid user)). cbn [carry_out db].
  rewrite execute_select_owned.
  destruct (nth 0 (failures w) None); reflexivity.
Qed.

(** What [handleAddCategory] does to the table: nothing, or the insert of
    the form's row for the signed-in user. *)
Lemma handleAddCategory_db w :
  db (snd (handleAddCategory w)) = db w
  \/ exists user,
       auth_getUser w = Returned (Some user, None)
       /\ nth 0 (failures w) None = None
       /\ db (snd (handleAddCategory w))
          = fst (insert_category (form_row w user) (generated w) (db w)).
Proof.
  unfold handleAddCategory, try_catch, bind, setError, setNewCategory,
    modify, await_getUser, await_request, get.
  cbn [with_ui auth_getUser].
  destruct (auth_getUser w) as [[[user |] [e |]] | e]; try (left; reflexivity).
  cbn [fst snd throw_if ret failures db issued ui generated auth_getUser
       with_ui newCategory carry_out].
  fold (form_row w user).
  destruct (nth 0 (failures w) None) as [e |]; [left; reflexivity |].
  right. exists user. split; [reflexivity |]. split; [reflexivity |].
  destruct (insert_category (form_row w user) (generated w) (db w))
    as [d r] eqn:E.
  cbn [fst snd].
  destruct (error r) as [e |]; cbn [throw_if throw ret]; [reflexivity |].
  match goal with
  | |- context [fetchCategories ?W] =>
      pose proof (fetchCategories_keeps_db W) as Hk;
      destruct (fetchCategories W) as [[a | e'] w']
  end; exact Hk.
Qed.

Lemma find_cat_app_old cs new k :
  In k (map id cs) -> find_cat (cs ++ [new]) k = find_cat cs k.
Proof.
  unfold find_cat. induction cs as [| c cs IH]; intros H; [destruct H |].
  cbn [app find]. destruct (id c =? k)%string eqn:E; [reflexivity |].
  apply IH. destruct H as [H | H]; [| exact H].
  apply String.eqb_neq in E. congruence.
Qed.

Lemma find_cat_app_new cs new :
  ~ In (id new) (map id cs) -> find_cat (cs ++ [new]) (id new) = Some new.
Proof.
  unfold find_cat. induction cs as [| c cs IH]; intros H.
  - cbn. now rewrite String.eqb_refl.
  - cbn [app find]. destruct (id c =? id new)%string eqn:E.
    + apply String.eqb_eq in E. exfalso. apply H. now left.
    + apply IH. intros Hin. apply H. now right.
Qed.

Lemma has_id_app cs ds k : has_id (cs ++ ds) k = has_id cs k || has_id ds k.
Proof. unfold has_id. apply existsb_app. Qed.

Lemma parent_of_app_old cs new c :
  references_hold cs -> ~ In (id new) (map id cs) -> In c cs ->
  parent_of (cs ++ [new]) c = parent_of cs c.
Proof.
  intros Hfk Hfresh Hc. unfold parent_of.
  destruct (parent_id c) as [p |] eqn:Ep; [| reflexivity].
  rewrite has_id_app.
  assert (Hp : In p (map id cs)) by now apply (Hfk c).
  replace (has_id [new] p) with false; [now rewrite orb_false_r |].
  symmetry. cbn. rewrite orb_false_r. apply String.eqb_neq.
  intros E. apply Hfresh. now rewrite E.
Qed.

Lemma reaches_root_app cs new :
  references_hold cs -> ~ In (id new) (map id cs) ->
  forall fuel k,
    reaches_root cs fuel k = true ->
    reaches_root (cs ++ [new]) fuel k = true.
Proof.
  intros Hfk Hfresh. induction fuel as [| fuel IH]; intros k H.
  - cbn [reaches_root] in *.
    destruct (find_cat cs k) as [c |] eqn:Ef; [| discriminate].
    destruct (find_cat_Some _ _ _ Ef) as [Hc Hk].
    rewrite find_cat_app_old by (rewrite <- Hk; now apply in_map).
    rewrite Ef, (parent_of_app_old cs new c Hfk Hfresh Hc). exact H.
  - cbn [reaches_root] in *.
    destruct (find_cat cs k) as [c |] eqn:Ef; [| discriminate].
    destruct (find_cat_Some _ _ _ Ef) as [Hc Hk].
    rewrite find_cat_app_old by (rewrite <- Hk; now apply in_map).
    rewrite Ef, (parent_of_app_old cs new c Hfk Hfresh Hc).
    destruct (parent_of cs c) as [p |]; [| reflexivity].
    now apply IH.
Qed.

(** Appending a category with a fresh id whose parent, if any, is in the
    table keeps the parent links acyclic. *)
Lemma acyclic_app cs new :
  NoDup (map id cs) -> references_hold cs -> acyclic cs ->
  ~ In (id new) (map id cs) ->
  (forall p, parent_id new = Some p -> In p (map id cs)) ->
  acyclic (cs ++ [new]).
Proof.
  intros Hnd Hfk Hac Hfresh Hparent.
  apply acyclicb_sound. unfold acyclicb.
  pose proof (acyclicb_complete cs Hnd Hac) as Hb. unfold acyclicb in Hb.
  rewrite forallb_forall in Hb.
  assert (Hold : forall k, In k (map id cs) ->
                           reaches_root (cs ++ [new]) (List.length cs) k = true).
  { intros k Hk. apply in_map_iff in Hk. destruct Hk as (c & <- & Hc).
    apply reaches_root_app; auto. }
  rewrite length_app. cbn [List.length]. rewrite Nat.add_1_r.
  apply forallb_forall. intros c Hc. apply in_app_or in Hc.
  destruct Hc as [Hc | [<- | []]].
  - apply reaches_root_mono with (fuel := List.length cs); [lia |].
    apply Hold. now apply in_map.
  - cbn [reaches_root]. rewrite (find_cat_app_new cs new Hfresh).
    destruct (parent_of (cs ++ [new]) new) as [p |] eqn:Ep; [| reflexivity].
    apply Hold. apply Hparent.
    unfold parent_of in Ep. destruct (parent_id new) as [q |]; [| discriminate].
    destruct (truthy_str q && has_id (cs ++ [new]) q); [| discriminate].
    congruence.
Qed.

(** X18. adding a category through the list page keeps the table a forest:
    whatever the form holds and whether or not the request goes through,
    ids stay distinct, every [parent_id] still names a category, and the
    parent links stay acyclic. The table is left as it was or gains one row,
    owned by the signed-in user, with the form's name and the chosen parent
    (none for the empty choice); products are not touched. *)
Theorem list_page_add_keeps_forest (w : World) :
  NoDup (map id (categories (db w))) ->
  references_hold (categories (db w)) ->
  acyclic (categories (db w)) ->
  let d' := db (snd (handleAddCategory w)) in
  NoDup (map id (categories d'))
  /\ references_hold (categories d')
  /\ acyclic (categories d')
  /\ products d' = products (db w)
  /\ (categories d' = categories (db w)
      \/ exists user,
           auth_getUser w = Returned (Some user, None)
           /\ categories d'
              = categories (db w)
                ++ [stored (form_row w user) (generated w)]).
Proof.
  intros Hnd Hfk Hac. cbv zeta.
  destruct (handleAddCategory_db w) as [-> | (user & Hauth & _ & ->)].
  - repeat split; auto.
  - unfold insert_category.
    destruct (has_id (categories (db w)) (fst (generated w))) eqn:Epk;
      [cbn [fst]; repeat split; auto |].
    destruct (match row_parent_id (form_row w user) with
              | Some p => negb (has_id (categories (db w)) p)
              | None => false
              end) eqn:Efk; [cbn [fst]; repeat split; auto |].
    cbn [fst categories products].
    set (new := stored (form_row w user) (generated w)).
    assert (Hfresh : ~ In (id new) (map id (categories (db w)))).
    { intros H. apply has_id_ids in H. cbn [new stored id] in H. congruence. }
    assert (Hparent : forall p, parent_id new = Some p ->
                                In p (map id (categories (db w)))).
    { intros p Hp. cbn [new stored parent_id] in Hp. rewrite Hp in Efk.
      apply negb_false_iff in Efk. now apply has_id_ids. }
    split; [| split; [| split; [| split]]].
    + rewrite map_app. cbn [map]. apply NoDup_app; [assumption | |].
      * constructor; [intros [] | constructor].
      * intros k Hk [<- | []]. now apply Hfresh.
    + intros c p Hc Hp. rewrite map_app. apply in_or_app.
      apply in_app_or in Hc. destruct Hc as [Hc | [<- | []]].
      * left. now apply (Hfk c).
      * left. now apply Hparent.
    + now apply acyclic_app.
    + reflexivity.
    + right. exists user. now split.
Qed.

Lemma list_page_add_keeps_forest_witness :
  categories (db (snd (handleAddCategory adding_page)))
  = [category_of "home" None "u1"; category_of "lamps" (Some "home") "u1";
     {| id := "desks"; name := "Desks"; parent_id := Some "home";
        user_id := "u1"; created_at := "2024-07-01T10:00:00Z";
        updated_at := "2024-07-01T10:00:00Z" |}]
  /\ acyclic (categories (db (snd (handleAddCategory adding_page)))).
Proof.
  destruct (list_page_add_keeps_forest adding_page) as (_ & _ & Hac & _).
  - cbn. repeat constructor; cbn; intuition discriminate.
  - intros c p [<- | [<- | []]]; cbn; intros [= <-]. tauto.
  - apply acyclicb_sound. reflexivity.
  - split; [reflexivity | exact Hac].
Defined.

Lemma is_expanded_set k b e x :
  is_expanded (expanded_set k b e) x
  = if (k =? x)%string then b else is_expanded e x.
Proof.
  unfold is_expanded. induction e as [| [k0 b0] e IH]; cbn.
  - now destruct (k =? x)%string.
  - destruct (k0 =? k)%string eqn:E; cbn.
    + apply String.eqb_eq in E. subst k0. now destruct (k =? x)%string.
    + destruct (k0 =? x)%string eqn:E1; [| exact IH].
      apply String.eqb_eq in E1. subst k0.
      now rewrite (String.eqb_sym k x), E.
Qed.

Lemma is_expanded_toggle_twice k e x :
  is_expanded (toggle k (toggle k e)) x = is_expanded e x.
Proof.
  unfold toggle. rewrite !is_expanded_set, String.eqb_refl.
  destruct (k =? x)%string eqn:E; [| reflexivity].
  apply String.eqb_eq in E. subst x. apply negb_involutive.
Qed.

Lemma renderCategory_ext e1 e2 :
  (forall x, is_expanded e1 x = is_expanded e2 x) ->
  forall t level, renderCategory e1 level t = renderCategory e2 level t.
Proof.
  intros H. induction t as [c sub IH] using Tree_nested_ind. intros level.
  cbn [renderCategory]. cbv zeta. rewrite (H (id c)). f_equal.
  destruct (match sub with [] => false | _ :: _ => true end
            && is_expanded e2 (id c)); [| reflexivity].
  induction IH as [| t sub Ht _ IHsub]; [reflexivity |].
  cbn [flat_map]. now rewrite Ht, IHsub.
Qed.

Lemma renderCategory_all e :
  forall t level,
    (forall c, In c (flatten t) -> is_expanded e (id c) = true) ->
    map row_category (renderCategory e level t) = flatten t.
Proof.
  induction t as [c sub IH] using Tree_nested_ind. intros level H.
  cbn [renderCategory flatten map row_category]. cbv zeta. f_equal.
  rewrite (H c) by (cbn; now left). rewrite andb_true_r.
  assert (Hsub : forall x, In x (flat_map flatten sub) ->
                           is_expanded e (id x) = true).
  { intros x Hx. apply H. cbn [flatten]. now right. }
  clear H. destruct sub as [| t0 sub0]; [reflexivity |].
  set (sub := t0 :: sub0) in *. clearbody sub.
  induction IH as [| t sub' Ht _ IHsub]; [reflexivity |].
  cbn [flat_map]. rewrite map_app, Ht, IHsub.
  - reflexivity.
  - intros x Hx. apply Hsub. cbn [flat_map]. apply in_or_app. now right.
  - intros x Hx. apply Hsub. cbn [flat_map]. apply in_or_app. now left.
Qed.

Lemma renderCategory_within e :
  forall t level c,
    In c (map row_category (renderCategory e level t)) -> In c (flatten t).
Proof.
  induction t as [c0 sub IH] using Tree_nested_ind. intros level c.
  cbn [renderCategory flatten map row_category]. cbv zeta.
  intros [-> | H]; [now left | right].
  destruct (match sub with [] => false | _ :: _ => true end
            && is_expanded e (id c0)); [| destruct H].
  induction IH as [| t sub' Ht _ IHsub]; [destruct H |].
  cbn [flat_map] in *. rewrite map_app in H.
  apply in_or_app. apply in_app_or in H. destruct H as [H | H].
  - left. now apply (Ht (S level)).
  - right. now apply IHsub.
Qed.

(** X19. what the category list shows. With nothing expanded, as on
    arrival, it shows exactly the top-level categories; it never shows a
    category that is not in the tree, always shows the top-level ones, and
    with every category expanded shows them all, parents before children.
    Toggling a category twice brings back what was shown. *)
Theorem category_list_shows_expanded_branches (forest : list Tree)
    (e : Expanded) :
  map row_category (render_list [] forest) = map root_of forest
  /\ incl (map root_of forest) (map row_category (render_list e forest))
  /\ incl (map row_category (render_list e forest)) (flatten_forest forest)
  /\ ((forall c, In c (flatten_forest forest) ->
                 is_expanded e (id c) = true) ->
      map row_category (render_list e forest) = flatten_forest forest)
  /\ (forall k, render_list (toggle k (toggle k e)) forest
                = render_list e forest).
Proof.
  unfold render_list, flatten_forest.
  split; [| split; [| split; [| split]]].
  - induction forest as [| [c sub] forest IH]; [reflexivity |].
    cbn [flat_map map root_of]. rewrite map_app, IH.
    cbn [renderCategory]. cbv zeta. unfold is_expanded. cbn [expanded_get].
    rewrite andb_false_r. reflexivity.
  - intros c Hc. apply in_map_iff in Hc. destruct Hc as ([c0 sub] & <- & Ht).
    apply in_map_iff.
    exists {| row_category := c0; row_level := 0;
              row_button := if match sub with [] => false | _ :: _ => true end
                            then Some (is_expanded e (id c0)) else None |}.
    split; [reflexivity |]. apply in_flat_map.
    exists (TNode c0 sub). split; [assumption | now left].
  - intros c Hc. apply in_map_iff in Hc. destruct Hc as (r & <- & Hr).
    apply in_flat_map in Hr. destruct Hr as (t & Ht & Hr).
    apply in_flat_map. exists t. split; [assumption |].
    apply (renderCategory_within e t 0). now apply in_map.
  - intros H. induction forest as [| t forest IH]; [reflexivity |].
    cbn [flat_map]. rewrite map_app, renderCategory_all, IH.
    + reflexivity.
    + intros c Hc. apply H. cbn [flat_map]. apply in_or_app. now right.
    + intros c Hc. apply H. cbn [flat_map]. apply in_or_app. now left.
  - intros k. induction forest as [| t forest IH]; [reflexivity |].
    cbn [flat_map]. rewrite IH. f_equal.
    apply renderCategory_ext. intros x. apply is_expanded_toggle_twice.
Qed.

End CategoriesPageRuns.

(** ** EditCategory.tsx: signing in and saving *)

Section EditPage.
Import Js Eff EditCategory.
Local Open Scope list_scope.

Ltac run_page :=
  unfold try_finally, try_catch, bind, setLoading, setError, setCategory,
    setCategories, setFormData, navigate, modify, await_getUser, get;
  cbn [with_ui auth_getUser].

Lemma skipn_same {A} (l : list A) : skipn (List.length l) l = [].
Proof. apply skipn_all. Qed.

(** X20. the edit page asks [getUser] first: when that gives no user, or
    an error, neither loading the page nor saving the form sends a request,
    and the table is left as it was. With no user and no error, loading
    redirects to [/login] and saving reports 'User not authenticated'.
    Deleting does not ask: it sends its first request all the same. *)
Theorem edit_page_needs_a_user (w : World) (k now : string) :
  truthy_str k = true ->
  signed_in w = false ->
  sent (fetchData (Some k)) w = []
  /\ sent (handleSubmit (Some k) now) w = []
  /\ db (snd (fetchData (Some k) w)) = db w
  /\ db (snd (handleSubmit (Some k) now w)) = db w
  /\ navigated (handleSubmit (Some k) now) w = []
  /\ loading (ui (snd (fetchData (Some k) w))) = false
  /\ loading (ui (snd (handleSubmit (Some k) now w))) = false
  /\ (auth_getUser w = Returned (None, None) ->
      navigated (fetchData (Some k)) w = [login_redirect]
      /\ error_text (ui (snd (fetchData (Some k) w))) = error_text (ui w)
      /\ error_text (ui (snd (handleSubmit (Some k) now w)))
         = "User not authenticated")
  /\ firstn 1 (sent (handleDelete (Some k) true) w) = [count_products k].
Proof.
  intros Hk Hout. unfold signed_in in Hout.
  assert (Hdel : firstn 1 (sent (handleDelete (Some k) true) w)
                 = [count_products k]).
  { pose proof (handleDelete_observed k w Hk) as H.
    apply (f_equal o_sent) in H. cbn [observe o_sent] in H. rewrite H.
    unfold expected_delete.
    destruct (nth 0 (failures w) None); [reflexivity |].
    destruct (0 <? List.length (products_of (db w) k))%nat; [reflexivity |].
    destruct (nth 1 (failures w) None); [reflexivity |].
    destruct (0 <? List.length (subcategories_of (db w) k))%nat;
      [reflexivity |].
    destruct (nth 2 (failures w) None); reflexivity. }
  unfold sent, navigated, fetchData, handleSubmit. rewrite Hk. cbn [negb].
  run_page.
  destruct (auth_getUser w) as [[[user |] [e |]] | e]; try discriminate;
    cbn [fst snd throw_if throw ret with_ui ui db issued set_loading loading
         error_text navigations];
    rewrite ?skipn_same, ?skipn_length_app;
    repeat (split; [reflexivity |]);
    (split; [| exact Hdel]); try discriminate.
  intros _. now repeat split.
Qed.

Lemma edit_page_needs_a_user_witness :
  signed_in signed_out_world = false
  /\ sent (fetchData (Some "a")) signed_out_world = []
  /\ navigated (fetchData (Some "a")) signed_out_world = [login_redirect].
Proof.
  destruct (edit_page_needs_a_user signed_out_world "a" "now" eq_refl eq_refl)
    as (H1 & _ & _ & _ & _ & _ & _ & H8 & _).
  split; [reflexivity |]. split; [exact H1 |].
  now destruct (H8 eq_refl).
Defined.



End EditPage.

(** ** [fetchPaginated] *)

Section ProductPagesProofs.
Import Js Eff ProductPages.
Local Open Scope Z_scope.
Local Open Scope list_scope.

Lemma count_or_zero_nat count :
  count_or_zero count = Z.of_nat (match count with Some n => n | None => 0 end).
Proof.
  unfold count_or_zero, truthy_num. destruct count as [n |]; [| reflexivity].
  destruct (Z.of_nat n =? 0) eqn:E; [| reflexivity].
  apply Z.eqb_eq in E. cbn [negb]. lia.
Qed.

Lemma ceil_div_bounds n size :
  0 <= n -> 1 <= size ->
  exists pc, ceil_div n size = Some pc
             /\ n <= pc * size < n + size /\ 0 <= pc.
Proof.
  intros Hn Hs. unfold ceil_div.
  destruct (size =? 0) eqn:E; [apply Z.eqb_eq in E; lia |].
  exists (- (- n / size)). split; [reflexivity |].
  pose proof (Z.div_mod (- n) size ltac:(lia)) as Hdm.
  pose proof (Z.mod_pos_bound (- n) size ltac:(lia)) as Hm.
  assert (Heq : - (- n / size) * size = n + (- n) mod size).
  { rewrite Z.mul_opp_l, (Z.mul_comm (- n / size) size). lia. }
  rewrite Heq. split; [lia |].
  assert (0 <= - (- n / size) * size) by lia.
  nia.
Qed.



End ProductPagesProofs.

(** ** [useProductImages] *)

Section ProductImagesProofs.
Import Js Eff ProductImages.
Local Open Scope list_scope.

Lemma addImage_effect productId url altText w :
  respond (snd (addImage productId url altText w)) = respond w
  /\ (images (snd (addImage productId url altText w)) = images w
      \/ exists pid d,
           productId = Some pid
           /\ respond w {| table := "product_images";
                           verb := Insert (new_image pid url altText
                                             (List.length (images w)));
                           filters := []; order := None;
                           returning := true; single := true |}
              = Returned {| data := d; error := None |}
           /\ images (snd (addImage productId url altText w))
              = images w ++ [row_of d]).
Proof.
  unfold addImage. destruct productId as [pid |]; [| now split; [| left]].
  destruct (negb (truthy_str pid)); [now split; [| left] |].
  unfold try_finally, try_catch, bind, setError, setImages, modify,
    await_query, get, set_loading.
  cbn [fst snd respond issued images loading hook_error].
  match goal with
  | |- context [respond w ?q] => set (query := q)
  end.
  destruct (respond w query) as [[d [e |]] | e] eqn:Er;
    cbn [fst snd error data throw_if throw ret respond images];
    (split; [reflexivity |]); try (left; reflexivity).
  right. exists pid, d. now repeat split.
Qed.

Lemma numbered_snoc imgs img :
  numbered imgs ->
  SupabaseUtils.obj_get "position" img
  = Some (SupabaseUtils.JNum (Z.of_nat (List.length imgs))) ->
  SupabaseUtils.obj_get "is_primary" img
  = Some (SupabaseUtils.JBool (List.length imgs =? 0)%nat) ->
  numbered (imgs ++ [img]).
Proof.
  intros Hn Hp Hq i x Hx.
  destruct (Nat.lt_ge_cases i (List.length imgs)) as [Hi | Hi].
  - rewrite nth_error_app1 in Hx by assumption. now apply Hn.
  - rewrite nth_error_app2 in Hx by assumption.
    destruct (i - List.length imgs) as [| j] eqn:Ej.
    + cbn in Hx. injection Hx as <-.
      replace i with (List.length imgs) by lia. now split.
    + cbn in Hx. now destruct j.
Qed.



(** X24. [removeImage] and [updateImage] never throw and change the list
    the hook holds only after the backend has accepted the request, which
    selects the row by its id alone. On success [removeImage] drops exactly
    the images with that id, keeping the others in order, and
    [updateImage] overrides the given fields of exactly those images; on
    failure the list is as before, the error is recorded and the result is
    false. *)
Theorem image_list_follows_backend (imageId : string) (updates : Obj)
    (w : World) :
  let rm := removeImage imageId w in
  let up := updateImage imageId updates w in
  issued (snd rm) = issued w ++ [delete_image imageId]
  /\ match respond w (delete_image imageId) with
     | Returned {| error := None |} =>
         fst rm = Returned true
         /\ images (snd rm)
            = filter (fun img => negb (has_image_id imageId img)) (images w)
         /\ Forall (fun img => has_image_id imageId img = false)
                   (images (snd rm))
         /\ hook_error (snd rm) = hook_error w
     | Returned {| error := Some e |} | Thrown e =>
         fst rm = Returned false
         /\ images (snd rm) = images w
         /\ hook_error (snd rm) = Some e
     end
  /\ issued (snd up) = issued w ++ [update_image imageId updates]
  /\ match respond w (update_image imageId updates) with
     | Returned {| error := None |} =>
         fst up = Returned true
         /\ images (snd up)
            = map (fun img => if has_image_id imageId img
                              then merge img updates else img)
                  (images w)
         /\ hook_error (snd up) = hook_error w
     | Returned {| error := Some e |} | Thrown e =>
         fst up = Returned false
         /\ images (snd up) = images w
         /\ hook_error (snd up) = Some e
     end.
Proof.
  cbv zeta.
  unfold removeImage, updateImage, try_catch, bind, setError, setImages,
    modify, await_query.
  fold (delete_image imageId). fold (update_image imageId updates).
  cbn [fst snd respond issued images loading hook_error].
  destruct (respond w (delete_image imageId)) as [[d [e |]] | e];
    destruct (respond w (update_image imageId updates)) as [[d' [e' |]] | e'];
    cbn [fst snd error throw_if throw ret images hook_error issued];
    repeat split;
    try (apply Forall_forall; intros img Hi; apply filter_In in Hi;
         now apply negb_true_iff).
Qed.

End ProductImagesProofs.

(** ** [useTable]: how the operations end *)

Section TableOutcomes.
Import Js Eff SupabaseUtils.
Local Open Scope list_scope.

(** X25. the five operations of [useTable] never throw. For a signed-in
    user each ends with [loading] switched off; when the backend answers
    without error the result is the data (true for [remove]) and an error
    left by an earlier operation is cleared; when the backend reports an
    error or the request rejects, the result is null (false for [remove])
    and the hook's error is that error. *)
Theorem useTable_operations_settle (tableName : string) (u : User)
    (id : string) (values : Obj) (w : World) :
  settles (fetchAll tableName (Some u))
          {| table := tableName; verb := Select "*";
             filters := [("user_id", uid u)];
             returning := false; single := false |} data JNull w
  /\ settles (fetchById tableName (Some u) id)
             {| table := tableName; verb := Select "*";
                filters := [("id", id); ("user_id", uid u)];
                returning := false; single := true |} data JNull w
  /\ settles (insert tableName (Some u) values)
             {| table := tableName;
                verb := Insert (obj_set "user_id" (JStr (uid u)) values);
                filters := []; returning := true; single := true |}
             data JNull w
  /\ settles (update tableName (Some u) id values)
             {| table := tableName; verb := Update values;
                filters := [("id", id); ("user_id", uid u)];
                returning := true; single := true |} data JNull w
  /\ settles (remove tableName (Some u) id)
             {| table := tableName; verb := Delete;
                filters := [("id", id); ("user_id", uid u)];
                returning := false; single := false |}
             (fun _ => true) false w.
Proof.
  unfold settles, fetchAll, fetchById, insert, update, remove, guarded,
    data_or_throw, try_finally, try_catch, bind, modify, await_query,
    setLoading, setError.
  cbn [fst snd respond issued loading hook_error].
  repeat lazymatch goal with
  | |- _ /\ _ => split
  end;
  match goal with
  | |- context [respond w ?q] =>
      destruct (respond w q) as [[d [e |]] | e];
      cbn [fst snd error data throw ret loading hook_error];
      first [ reflexivity | split; reflexivity ]
  end.
Qed.

End TableOutcomes.

(** ** [buildCategoryTree]: the order of the children *)

Section CategoryTreeOrder.
Import Js Categories.
Local Open Scope list_scope.

Lemma filter_none {A} (f : A -> bool) l :
  (forall x, In x l -> f x = false) -> filter f l = [].
Proof.
  induction l as [| a l IH]; intros H; [reflexivity |].
  cbn [filter]. rewrite (H a) by now left.
  apply IH. intros x Hx. apply H. now right.
Qed.

(** X26. in the object graph [buildCategoryTree] returns for categories
    with distinct ids, the object of each category is a copy of it whose
    [children] are exactly the categories linked to it as parent (a
    non-empty [parent_id] equal to its id), in the order of the input; a
    category that none names as parent has an empty [children] array. *)
Theorem buildCategoryTree_children_in_input_order
    (categories : list Category) (c : Category) :
  NoDup (map id categories) -> In c categories ->
  map_get (id c) (fst (buildCategoryGraph categories))
  = Some {| cat := c;
            children := map id (filter (is_child_of categories (id c))
                                       categories) |}
  /\ ((forall d, In d categories -> parent_id d <> Some (id c)) ->
      map_get (id c) (fst (buildCategoryGraph categories))
      = Some {| cat := c; children := [] |}).
Proof.
  intros Hnd Hin.
  rewrite (buildCategoryGraph_distinct categories Hnd). cbn [fst].
  rewrite map_get_heap, (find_cat_In categories c Hnd Hin). cbn [option_map].
  split; [reflexivity |].
  intros Hnone. f_equal. f_equal.
  replace (filter (is_child_of categories (id c)) categories) with
    (@nil Category); [reflexivity |].
  symmetry.
  assert (Hnot : forall d, In d categories ->
                           is_child_of categories (id c) d = false).
  { intros d Hd. unfold is_child_of.
    destruct (parent_of categories d) as [q |] eqn:Eq; [| reflexivity].
    apply String.eqb_neq. intros ->.
    apply parent_of_iff in Eq. destruct Eq as (Hp & _).
    now apply (Hnone d). }
  now apply filter_none.
Qed.

Lemma buildCategoryTree_children_in_input_order_witness :
  NoDup (map id catalog)
  /\ map_get "home" (fst (buildCategoryGraph catalog))
     = Some {| cat := category_of "home" None "u1"; children := ["lamps"] |}.
Proof.
  assert (Hnd : NoDup (map id catalog)).
  { cbn. repeat constructor; cbn; intuition discriminate. }
  split; [exact Hnd |].
  destruct (buildCategoryTree_children_in_input_order catalog
              (category_of "home" None "u1") Hnd) as [H _].
  - cbn. tauto.
  - exact H.
Defined.

End CategoryTreeOrder.
